(** * filetrace: a shallow embedding of the tracer supervisor

    The development follows the C++ sources.  Definitions come first:
    - [path_utils.hpp]      -> Module [path_utils]
    - [main.cpp] (registry) -> Module [Registry]
    - [main.cpp] (reader)   -> Module [Reader]
    - [main.cpp] (loop)     -> Module [Supervisor]
    - [directory_tree.hpp]  -> Module [Tree]
    - sample inputs         -> Module [Samples]
    and the properties follow in [PathFacts], [RegistryFacts],
    [ReaderFacts], [TreeFacts] and [SupervisorFacts].

    Everything the program asks of the kernel or of the file system
    (realpath, getcwd, stat, readlink, /proc/<tid>/comm, PTRACE_PEEKDATA,
    waitpid reports, ...) is an explicit oracle argument: the functions
    below are the program's own logic, run against arbitrary answers.
    Logging and the calls that only act on the tracees (kill with SIGTERM,
    PTRACE_DETACH, PTRACE_SETOPTIONS, usleep) leave the program's variables
    unchanged and are not represented. *)

From Stdlib Require Import ZArith String Ascii List Lia Bool Sorting.Sorted
  Sorting.Permutation.
From Stdlib Require OrderedTypeEx.
From stdpp Require Import gmap strings list sorting pretty.

Local Open Scope Z_scope.
#[local] Arguments String.append !_ _ / : simpl nomatch.

(** ** Machine integers and strings *)

(** Conversion to a 32-bit [int] / [pid_t] (two's complement wrap-around). *)
Definition to_int (x : Z) : Z := (x + 2 ^ 31) mod 2 ^ 32 - 2 ^ 31.

(** [s.find(pat) == 0] on [std::string]. *)
Definition find_at_0 (s pat : string) : bool :=
  match String.index 0 pat s with
  | Some O => true
  | _ => false
  end.

(** [s[0] != '/'] (for the empty string the byte read is the terminating
    NUL, which differs from '/'). *)
Definition first_not_slash (s : string) : bool :=
  match s with
  | String c _ => negb (Ascii.eqb c "/")
  | EmptyString => true
  end.

(** [s.back() != '/'] on a non-empty string. *)
Fixpoint back_not_slash (s : string) : bool :=
  match s with
  | EmptyString => true
  | String c EmptyString => negb (Ascii.eqb c "/")
  | String _ rest => back_not_slash rest
  end.

Definition string_empty (s : string) : bool :=
  match s with EmptyString => true | _ => false end.

(** [std::filesystem::path(base) / p] on a POSIX system: an absolute [p]
    replaces [base]; otherwise a separator is added unless [base] is empty
    or already ends with one. *)
Definition path_append (base p : string) : string :=
  if negb (first_not_slash p) then p
  else if string_empty base then p
  else if back_not_slash base then base +:+ "/" +:+ p
  else base +:+ p.

(** ** The file system as the program sees it *)

Inductive FileKind := RegularFile | Directory | OtherFile.

Record FsEnv := {
  realpath : string -> option string;        (* realpath(3), None on failure *)
  getcwd : option string;                    (* getcwd(3) *)
  lexically_normal : string -> string;       (* std::filesystem, purely lexical *)
  stat : string -> option FileKind;          (* stat(2) == 0, with st_mode's type *)
  readlink_fd : Z -> Z -> option string;     (* readlink("/proc/<pid>/fd/<fd>") *)
  proc_comm : Z -> option string;            (* first line of /proc/<tid>/comm *)
  peekdata : Z -> Z -> option Z;             (* PTRACE_PEEKDATA, None when errno != 0 *)
  now : Z                                    (* time(nullptr) *)
}.

(** ** path_utils.hpp *)

Module path_utils.

Section WithEnv.
Variable env : FsEnv.

Definition normalize_path (path : string) : string :=
  if string_empty path then ""%string
  else
    match realpath env path with
    | Some resolved => resolved
    | None =>
        let fallback := lexically_normal env path in
        if first_not_slash path then
          match getcwd env with
          | Some base_dir =>
              let full_path := path_append base_dir path in
              match realpath env full_path with
              | Some resolved => resolved
              | None => lexically_normal env full_path
              end
          | None => fallback
          end
        else fallback
    end.

(** The system-path allow-list of [is_within_directory]. *)
Definition system_path (path : string) : bool :=
  find_at_0 path "/lib" || find_at_0 path "/proc"
  || find_at_0 path "/etc/ld.so.cache".

Definition is_within_directory (disable_directory_filtering : bool)
    (path base_dir : string) : bool :=
  if disable_directory_filtering then true
  else if system_path path then true
  else
    let norm_path := normalize_path path in
    let norm_base := normalize_path base_dir in
    if string_empty norm_path || string_empty norm_base then false
    else if String.eqb norm_path norm_base then true
    else
      let norm_base :=
        if back_not_slash norm_base then norm_base +:+ "/" else norm_base in
      let is_within := find_at_0 norm_path norm_base in
      if negb is_within && first_not_slash path then
        match getcwd env with
        | Some cwd =>
            find_at_0 (normalize_path (cwd +:+ "/" +:+ path)) norm_base
        | None => is_within
        end
      else is_within.

Definition get_current_directory : string :=
  match getcwd env with Some cwd => cwd | None => ""%string end.

End WithEnv.

End path_utils.

(** ** main.cpp: the process/thread registry *)

Module Registry.

Inductive ProcessType := PROCESS | THREAD.

Record ThreadInfo := {
  thread_id : Z;
  parent_pid : Z;
  name : string;
  active : bool;
  process_type : ProcessType;
  child_processes : list Z;
  child_threads : list Z;
  creation_time : Z;
  exit_status : Z
}.

#[export] Instance ProcessType_eq_dec : EqDecision ProcessType.
Proof. solve_decision. Defined.

#[export] Instance ThreadInfo_eq_dec : EqDecision ThreadInfo.
Proof. solve_decision. Defined.

(** The global [thread_map]. *)
Abbreviation thread_map_t := (gmap Z ThreadInfo).

Definition get_thread_name (env : FsEnv) (tid : Z) : string :=
  match proc_comm env tid with
  | Some line => line
  | None => "unknown"%string
  end.

(** [children.erase(std::remove(children.begin(), children.end(), tid),
    children.end())] *)
Definition erase_remove (tid : Z) (children : list Z) : list Z :=
  filter (fun c => c ≠ tid) children.

Definition set_children (is_process : bool) (cs : list Z) (p : ThreadInfo)
    : ThreadInfo :=
  if is_process then
    {| thread_id := thread_id p; parent_pid := parent_pid p; name := name p;
       active := active p; process_type := process_type p;
       child_processes := cs; child_threads := child_threads p;
       creation_time := creation_time p; exit_status := exit_status p |}
  else
    {| thread_id := thread_id p; parent_pid := parent_pid p; name := name p;
       active := active p; process_type := process_type p;
       child_processes := child_processes p; child_threads := cs;
       creation_time := creation_time p; exit_status := exit_status p |}.

(** The list the source selects with [is_process ? child_processes :
    child_threads]. *)
Definition children_of (is_process : bool) (p : ThreadInfo) : list Z :=
  if is_process then child_processes p else child_threads p.

Definition handle_thread_creation (env : FsEnv)
    (parent tid : Z) (is_process : bool) (thread_map : thread_map_t)
    : thread_map_t :=
  match thread_map !! tid with
  | Some existing =>
      if active existing then thread_map
      else
        (* existing.active = true; exit_status = -1; creation_time = now *)
        let reparent := bool_decide (parent_pid existing ≠ parent) in
        let old_parent := parent_pid existing in
        let existing' :=
          {| thread_id := thread_id existing;
             parent_pid := if reparent then parent else parent_pid existing;
             name := name existing;
             active := true;
             process_type := process_type existing;
             child_processes := child_processes existing;
             child_threads := child_threads existing;
             creation_time := now env;
             exit_status := -1 |} in
        let m1 := <[tid := existing']> thread_map in
        if reparent && bool_decide (old_parent ≠ 0) then
          match m1 !! old_parent with
          | Some op =>
              <[old_parent :=
                  set_children is_process
                    (erase_remove tid (children_of is_process op)) op]> m1
          | None => m1
          end
        else m1
  | None =>
      let info :=
        {| thread_id := tid; parent_pid := parent;
           name := get_thread_name env tid; active := true;
           process_type := if is_process then PROCESS else THREAD;
           child_processes := []; child_threads := [];
           creation_time := now env; exit_status := -1 |} in
      let m1 :=
        if bool_decide (parent ≠ 0) then
          match thread_map !! parent with
          | Some p =>
              <[parent :=
                  set_children is_process (children_of is_process p ++ [tid]) p]>
                thread_map
          | None =>
              <[parent :=
                  {| thread_id := parent; parent_pid := 0;
                     name := get_thread_name env parent; active := true;
                     process_type := PROCESS;
                     child_processes := if is_process then [tid] else [];
                     child_threads := if is_process then [] else [tid];
                     creation_time := now env; exit_status := -1 |}]>
                thread_map
          end
        else thread_map in
      <[tid := info]> m1
  end.

Definition is_active (m : thread_map_t) (tid : Z) : bool :=
  match m !! tid with Some info => active info | None => false end.

(** The TIDs whose record is active. *)
Definition active_set (m : thread_map_t) : gset Z :=
  filter (fun tid => is_active m tid = true) (dom m).

(** One pass of the two [for] loops of [handle_thread_exit]: every child
    that is present and still active is exited with status -1. *)
Definition exit_children (rec : Z -> thread_map_t -> thread_map_t)
    (children : list Z) (m : thread_map_t) : thread_map_t :=
  foldl (fun acc child =>
           match acc !! child with
           | Some ci => if active ci then rec child acc else acc
           | None => acc
           end) m children.

Definition mark_exited (status : Z) (p : ThreadInfo) : ThreadInfo :=
  {| thread_id := thread_id p; parent_pid := parent_pid p; name := name p;
     active := false; process_type := process_type p;
     child_processes := child_processes p; child_threads := child_threads p;
     creation_time := creation_time p; exit_status := status |}.

(** [handle_thread_exit] recurses through the child lists; every nested
    call first turns one active record inactive, so the depth is bounded by
    the number of records.  [fuel] is that bound. *)
Fixpoint handle_thread_exit_fuel (fuel : nat) (tid status : Z)
    (thread_map : thread_map_t) : thread_map_t :=
  match fuel with
  | O => thread_map
  | S fuel' =>
      match thread_map !! tid with
      | None => thread_map
      | Some info =>
          if negb (active info) then thread_map
          else
            let m1 := <[tid := mark_exited status info]> thread_map in
            let rec := fun child acc => handle_thread_exit_fuel fuel' child (-1) acc in
            let m2 := exit_children rec (child_processes info) m1 in
            exit_children rec (child_threads info) m2
      end
  end.

Definition handle_thread_exit (tid status : Z) (thread_map : thread_map_t)
    : thread_map_t :=
  handle_thread_exit_fuel (S (size thread_map)) tid status thread_map.

End Registry.

(** ** main.cpp: reading a C string out of a stopped tracee *)

Module Reader.

(** [sizeof(buffer)] and [sizeof(long)] on x86-64. *)
Definition buffer_size : Z := 4096.
Definition sizeof_long : Z := 8.

(** The bytes [data.chars[0..7]] of the union over [long val]
    (little-endian). *)
Definition chars_of_long (val : Z) : list Z :=
  map (fun j => Z.land (Z.shiftr val (8 * j)) 255) [0; 1; 2; 3; 4; 5; 6; 7].

(** [std::string(buffer)]: the bytes before the first NUL. *)
Fixpoint cstring (buffer : list Z) : string :=
  match buffer with
  | [] => EmptyString
  | c :: rest =>
      if c =? 0 then EmptyString
      else String (ascii_of_N (Z.to_N c)) (cstring rest)
  end.

(** The inner [for] loop: copies [chars] to [buffer[pos..]].  [buffer] holds
    the bytes written so far.  The result says whether a NUL was met (the
    function then returns at once). *)
Fixpoint copy_chars (chars : list Z) (pos : Z) (buffer : list Z)
    : list Z * bool :=
  match chars with
  | [] => (buffer, false)
  | c :: chars' =>
      if pos <? buffer_size - 1 then
        if c =? 0 then (buffer ++ [c], true)
        else copy_chars chars' (pos + 1) (buffer ++ [c])
      else (buffer, false)
  end.

(** The outer [while (i < sizeof(buffer) - sizeof(long))] loop; [rounds]
    bounds the number of iterations left. *)
Fixpoint read_loop (env : FsEnv) (rounds : nat) (pid addr i : Z)
    (buffer : list Z) : string :=
  match rounds with
  | O => cstring (buffer ++ [0])
  | S rounds' =>
      if i <? buffer_size - sizeof_long then
        match peekdata env pid ((addr + i) mod 2 ^ 64) with
        | None => cstring (buffer ++ [0])
        | Some val =>
            let '(buffer', nul) := copy_chars (chars_of_long val) i buffer in
            if nul then cstring buffer'
            else read_loop env rounds' pid addr (i + sizeof_long) buffer'
        end
      else cstring (buffer ++ [0])
  end.

(** [i] runs over 0, 8, ..., 4080: 511 iterations at most. *)
Definition max_rounds : nat := 511.

Definition read_process_string (env : FsEnv) (pid addr : Z) : string :=
  read_loop env max_rounds pid addr 0 [].

(** The string made of the given bytes, none of them taken as a
    terminator. *)
Definition string_of_chars (bytes : list Z) : string :=
  string_of_list_ascii (map (fun c => ascii_of_N (Z.to_N c)) bytes).

(** No byte of the word is NUL. *)
Definition nul_free (val : Z) : Prop :=
  Forall (fun c => c <> 0) (chars_of_long val).

(** The words at [addr + start], [addr + start + 8], ... of the tracee are
    readable and hold no NUL. *)
Definition readable_from (env : FsEnv) (pid addr : Z) (start : Z)
    (words : list Z) : Prop :=
  forall (j : nat) (w : Z),
    words !! j = Some w ->
    peekdata env pid ((addr + (start + sizeof_long * Z.of_nat j)) mod 2 ^ 64)
    = Some w
    /\ nul_free w.

End Reader.

(** ** main.cpp: syscall classification and the supervisor loop *)

Module Supervisor.
Import Registry.

(** System-call numbers and flags of x86-64 Linux (from the system
    headers). *)
Definition SYS_open : Z := 2.
Definition SYS_clone : Z := 56.
Definition SYS_fork : Z := 57.
Definition SYS_vfork : Z := 58.
Definition SYS_execve : Z := 59.
Definition SYS_exit : Z := 60.
Definition SYS_exit_group : Z := 231.
Definition SYS_openat : Z := 257.
Definition CLONE_THREAD : Z := 65536.
Definition AT_FDCWD : Z := -100.
Definition SIGTRAP : Z := 5.
Definition PTRACE_EVENT_FORK : Z := 1.
Definition PTRACE_EVENT_VFORK : Z := 2.
Definition PTRACE_EVENT_CLONE : Z := 3.

(** The registers of [user_regs_struct] the program reads (64-bit
    unsigned). *)
Record Regs := { orig_rax : Z; rax : Z; rdi : Z; rsi : Z }.

Record FileOperation := {
  pid : Z;
  path : string;
  sequence : Z;
  op_thread_id : Z;
  op_thread_name : string;
  is_actual_open : bool
}.

(** Conversion of a 64-bit register to [long]. *)
Definition to_long (x : Z) : Z := (x + 2 ^ 63) mod 2 ^ 64 - 2 ^ 63.

Definition resolve_fd_path (env : FsEnv) (pid fd : Z) : string :=
  if fd =? AT_FDCWD then "."%string
  else match readlink_fd env pid fd with
       | Some target => target
       | None => ""%string
       end.

Definition resolve_relative_path (env : FsEnv) (base_path relative_path : string)
    : string :=
  if string_empty relative_path || negb (first_not_slash relative_path)
  then relative_path
  else
    let resolved :=
      if negb (String.eqb base_path "/") && back_not_slash base_path
      then base_path +:+ "/" else base_path in
    path_utils.normalize_path env (resolved +:+ relative_path).

(** What the kernel answers inside the clone/fork branch of
    [handle_syscall_entry]. *)
Record CloneOracle := {
  clone_resume_ok : bool;          (* first PTRACE_SYSCALL *)
  clone_wait_ok : bool;            (* waitpid(pid) *)
  clone_post_regs : option Regs    (* PTRACE_GETREGS after the syscall *)
}.

(** The process-versus-thread decision at syscall entry. *)
Definition entry_is_process (regs : Regs) : bool :=
  (orig_rax regs =? SYS_fork) || (orig_rax regs =? SYS_vfork)
  || ((orig_rax regs =? SYS_clone) && (Z.land (rdi regs) CLONE_THREAD =? 0)).

Definition is_creation_syscall (regs : Regs) : bool :=
  (orig_rax regs =? SYS_clone) || (orig_rax regs =? SYS_fork)
  || (orig_rax regs =? SYS_vfork).

Definition is_exit_syscall (regs : Regs) : bool :=
  (orig_rax regs =? SYS_exit) || (orig_rax regs =? SYS_exit_group).

Definition is_file_syscall (regs : Regs) : bool :=
  (orig_rax regs =? SYS_open) || (orig_rax regs =? SYS_openat)
  || (orig_rax regs =? SYS_execve).

(** The path argument as the file branch extracts it. *)
Definition extract_filepath (env : FsEnv) (pid : Z) (regs : Regs) : string :=
  if orig_rax regs =? SYS_open then Reader.read_process_string env pid (rdi regs)
  else if orig_rax regs =? SYS_execve then
    Reader.read_process_string env pid (rdi regs)
  else
    let dirfd := to_int (rdi regs) in
    let filepath := Reader.read_process_string env pid (rsi regs) in
    if negb (string_empty filepath) && first_not_slash filepath then
      let base_path := resolve_fd_path env pid dirfd in
      if negb (string_empty base_path)
      then resolve_relative_path env base_path filepath
      else filepath
    else filepath.

(** The normalized path the file branch works with. *)
Definition classified_path (env : FsEnv) (pid : Z) (regs : Regs) : string :=
  path_utils.normalize_path env (extract_filepath env pid regs).

(** The file branch of [handle_syscall_entry] (lines 306-372). *)
Definition handle_file_syscall (env : FsEnv) (disable_directory_filtering : bool)
    (base_dir : string) (pid : Z) (regs : Regs)
    (thread_map : thread_map_t) (operations : list FileOperation)
    : thread_map_t * list FileOperation :=
  let filepath := extract_filepath env pid regs in
  if string_empty filepath then (thread_map, operations)
  else
    let normalized_path := path_utils.normalize_path env filepath in
    if negb disable_directory_filtering && negb (string_empty base_dir)
       && negb (path_utils.is_within_directory env disable_directory_filtering
                  normalized_path base_dir)
    then (thread_map, operations)
    else if orig_rax regs =? SYS_execve then (thread_map, operations)
    else
      match stat env normalized_path with
      | None => (thread_map, operations)
      | Some _ =>
          let thread_map' :=
            match thread_map !! pid with
            | Some _ => thread_map
            | None => handle_thread_creation env pid pid false thread_map
            end in
          let thread_name :=
            match thread_map' !! pid with
            | Some info => name info
            | None => ""%string
            end in
          let op :=
            {| pid := pid; path := normalized_path;
               sequence := to_int (Z.of_nat (length operations) + 1);
               op_thread_id := pid; op_thread_name := thread_name;
               is_actual_open := true |} in
          (thread_map', operations ++ [op])
      end.

Definition handle_syscall_entry (env : FsEnv) (k : CloneOracle)
    (disable_directory_filtering : bool) (base_dir : string)
    (pid : Z) (regs : Regs)
    (thread_map : thread_map_t) (operations : list FileOperation)
    : thread_map_t * list FileOperation :=
  (* clone / fork / vfork *)
  let after_clone : option thread_map_t :=
    if is_creation_syscall regs then
      if negb (clone_resume_ok k) then None
      else if negb (clone_wait_ok k) then None
      else
        match clone_post_regs k with
        | None => Some thread_map
        | Some post_regs =>
            let new_tid := to_long (rax post_regs) in
            if 0 <? new_tid then
              Some (handle_thread_creation env pid (to_int new_tid)
                      (entry_is_process regs) thread_map)
            else Some thread_map
        end
    else Some thread_map in
  match after_clone with
  | None => (thread_map, operations)        (* early return *)
  | Some m1 =>
      (* exit / exit_group *)
      let m2 :=
        if is_exit_syscall regs
        then handle_thread_exit pid (to_int (rdi regs)) m1
        else m1 in
      (* open / openat / execve *)
      if is_file_syscall regs
      then handle_file_syscall env disable_directory_filtering base_dir pid regs
             m2 operations
      else (m2, operations)
  end.

(** *** waitpid status words *)

Definition WIFEXITED (status : Z) : bool := Z.land status 127 =? 0.
Definition WEXITSTATUS (status : Z) : Z := Z.shiftr (Z.land status 65280) 8.
Definition WIFSIGNALED (status : Z) : bool :=
  negb (Z.land status 127 =? 0) && negb (Z.land status 127 =? 127).
Definition WIFSTOPPED (status : Z) : bool := Z.land status 255 =? 127.

Definition is_event (status event : Z) : bool :=
  Z.shiftr status 8 =? Z.lor SIGTRAP (Z.shiftl event 8).

(** *** The main loop *)

Inductive KillResult := KillOk | KillESRCH | KillOtherError.

#[export] Instance KillResult_eq_dec : EqDecision KillResult.
Proof. solve_decision. Defined.

Inductive PtraceResult (A : Type) :=
  | POk (a : A) | PESRCH | PEINVAL | PEIO | POtherError.
Arguments POk {A} a.
Arguments PESRCH {A}.
Arguments PEINVAL {A}.
Arguments PEIO {A}.
Arguments POtherError {A}.

(** The kernel's and the file system's answers during one iteration of the
    loop that handles a stop. *)
Record StopOracle := {
  fs : FsEnv;
  eventmsg : option Z;                    (* PTRACE_GETEVENTMSG *)
  kill_before_regs : KillResult;          (* kill(pid, 0), line 780 *)
  getregs : nat -> PtraceResult Regs;     (* PTRACE_GETREGS, by attempt *)
  kill_in_regs_retry : nat -> KillResult; (* line 808 *)
  clone_oracle : CloneOracle;
  kill_after_entry : KillResult;          (* line 838 *)
  resume : nat -> PtraceResult unit;      (* PTRACE_SYSCALL, by attempt *)
  kill_in_resume_retry : nat -> KillResult; (* line 866 *)
  detach_ok : Z -> bool                   (* PTRACE_DETACH != -1 *)
}.

(** What [waitpid(-1, &status, __WALL)] reports. *)
Inductive Report :=
  | WaitECHILD (fs : FsEnv) (probe : Z -> KillResult)
  | WaitFailed
  | WaitStatus (waited_pid status : Z) (k : StopOracle).

(** The supervisor's variables.  [classified] is not a program variable:
    it records, in order, the TIDs for which [handle_syscall_entry] was
    called. *)
Record State := {
  thread_map : thread_map_t;
  operations : list FileOperation;
  in_syscall : bool;
  classified : list Z
}.

(** Run-time configuration fixed before the loop starts. *)
Record Config := {
  disable_directory_filtering : bool;
  base_dir : string;
  child : Z
}.

Definition with_map (st : State) (m : thread_map_t) : State :=
  {| thread_map := m; operations := operations st;
     in_syscall := in_syscall st; classified := classified st |}.

(** Iteration over [thread_map] visits the keys in ascending order. *)
Definition map_keys (m : thread_map_t) : list Z :=
  merge_sort Z.le (map fst (map_to_list m)).

(** The PTRACE_GETREGS retry loop (lines 793-823): the registers when
    obtained, and the registry after the exits the loop performs. *)
Fixpoint getregs_retry (k : StopOracle) (left : nat) (retry_count : nat)
    (pid : Z) (m : thread_map_t) : option Regs * thread_map_t :=
  match left with
  | O => (None, m)
  | S left' =>
      match getregs k retry_count with
      | POk regs => (Some regs, m)
      | PESRCH => (None, handle_thread_exit pid (-1) m)
      | PEINVAL =>
          match kill_in_regs_retry k retry_count with
          | KillESRCH => (None, handle_thread_exit pid (-1) m)
          | _ => getregs_retry k left' (S retry_count) pid m
          end
      | _ => (None, m)
      end
  end.

(** The PTRACE_SYSCALL retry loop (lines 850-882). *)
Fixpoint resume_retry (k : StopOracle) (left : nat) (continue_retry : nat)
    (pid : Z) (m : thread_map_t) : bool * thread_map_t :=
  match left with
  | O => (false, m)
  | S left' =>
      match resume k continue_retry with
      | POk _ => (true, m)
      | PESRCH => (false, handle_thread_exit pid (-1) m)
      | PEINVAL | PEIO =>
          match kill_in_resume_retry k continue_retry with
          | KillESRCH => (false, handle_thread_exit pid (-1) m)
          | _ => resume_retry k left' (S continue_retry) pid m
          end
      | POtherError => (false, m)
      end
  end.

(** A stop that is not a fork/vfork/clone event (lines 763-890). *)
Definition handle_syscall_stop (cfg : Config) (k : StopOracle)
    (waited_pid : Z) (st : State) : State :=
  let m0 :=
    match thread_map st !! waited_pid with
    | Some _ => thread_map st
    | None => handle_thread_creation (fs k) (child cfg) waited_pid false
                (thread_map st)
    end in
  if negb (is_active m0 waited_pid) then with_map st m0
  else
    match kill_before_regs k with
    | KillESRCH => with_map st (handle_thread_exit waited_pid (-1) m0)
    | _ =>
        match getregs_retry k 5 0 waited_pid m0 with
        | (None, m1) => with_map st (handle_thread_exit waited_pid (-1) m1)
        | (Some regs, m1) =>
            let '(m2, ops, calls) :=
              if negb (in_syscall st) then
                let '(m, ops) :=
                  handle_syscall_entry (fs k) (clone_oracle k)
                    (disable_directory_filtering cfg) (base_dir cfg)
                    waited_pid regs m1 (operations st) in
                (m, ops, classified st ++ [waited_pid])
              else (m1, operations st, classified st) in
            let st2 m :=
              {| thread_map := m; operations := ops;
                 in_syscall := negb (in_syscall st); classified := calls |} in
            match kill_after_entry k with
            | KillESRCH => st2 (handle_thread_exit waited_pid (-1) m2)
            | _ =>
                match resume_retry k 3 0 waited_pid m2 with
                | (true, m3) => st2 m3
                | (false, m3) => st2 (handle_thread_exit waited_pid (-1) m3)
                end
            end
        end
    end.

(** A fork/vfork/clone event stop (lines 713-761). *)
Definition handle_event_stop (k : StopOracle) (waited_pid status : Z)
    (st : State) : State :=
  match eventmsg k with
  | Some new_pid =>
      let is_process :=
        is_event status PTRACE_EVENT_FORK || is_event status PTRACE_EVENT_VFORK in
      with_map st
        (handle_thread_creation (fs k) waited_pid (to_int new_pid) is_process
           (thread_map st))
  | None => st
  end.

(** An exit report (lines 692-709). *)
Definition handle_exit_report (cfg : Config) (k : StopOracle)
    (waited_pid status : Z) (st : State) : State :=
  let exit_code := if WIFEXITED status then WEXITSTATUS status else -1 in
  let m1 := handle_thread_exit waited_pid exit_code (thread_map st) in
  if waited_pid =? child cfg then
    with_map st
      (foldl (fun m tid =>
                if is_active m tid && negb (tid =? child cfg) && detach_ok k tid
                then handle_thread_exit tid (-1) m else m)
         m1 (map_keys m1))
  else with_map st m1.

(** One iteration of [while (true)]; the boolean says whether the loop is
    left ([break]). *)
Definition step (cfg : Config) (st : State) (r : Report) : State * bool :=
  match r with
  | WaitECHILD _ probe =>
      let m := thread_map st in
      let actives := filter (fun tid => is_active m tid = true) (map_keys m) in
      let threads_to_cleanup :=
        filter (fun tid => probe tid = KillESRCH) actives in
      let any_active :=
        existsb (fun tid => match probe tid with KillOk => true | _ => false end)
          actives in
      let m' := foldl (fun m tid => handle_thread_exit tid (-1) m) m
                  threads_to_cleanup in
      (with_map st m', negb any_active)
  | WaitFailed =>
      let m := thread_map st in
      (with_map st
         (foldl (fun m tid =>
                   if is_active m tid then handle_thread_exit tid (-1) m else m)
            m (map_keys m)),
       true)
  | WaitStatus waited_pid status k =>
      if WIFEXITED status || WIFSIGNALED status then
        (handle_exit_report cfg k waited_pid status st, false)
      else if WIFSTOPPED status then
        if is_event status PTRACE_EVENT_FORK || is_event status PTRACE_EVENT_VFORK
           || is_event status PTRACE_EVENT_CLONE
        then (handle_event_stop k waited_pid status st, false)
        else (handle_syscall_stop cfg k waited_pid st, false)
      else (st, false)
  end.

(** The loop over the reports the kernel delivers. *)
Fixpoint run (cfg : Config) (st : State) (reports : list Report) : State :=
  match reports with
  | [] => st
  | r :: rest =>
      let '(st', stop) := step cfg st r in
      if stop then st' else run cfg st' rest
  end.

(** *** When the classifier runs *)

(** Whether the handling of a stop that is not a fork/vfork/clone event
    reaches [in_syscall = !in_syscall] (line 835): the tracee is registered
    as active and alive, and its registers were obtained. *)
Definition syscall_stop_reaches_toggle (cfg : Config) (k : StopOracle)
    (waited_pid : Z) (st : State) : bool :=
  let m0 :=
    match thread_map st !! waited_pid with
    | Some _ => thread_map st
    | None => handle_thread_creation (fs k) (child cfg) waited_pid false
                (thread_map st)
    end in
  if negb (is_active m0 waited_pid) then false
  else
    match kill_before_regs k with
    | KillESRCH => false
    | _ =>
        match getregs_retry k 5 0 waited_pid m0 with
        | (Some _, _) => true
        | (None, _) => false
        end
    end.

(** The TID whose stop reaches the toggle in the iteration for report [r],
    if the iteration gets there. *)
Definition reaches_toggle (cfg : Config) (st : State) (r : Report) : option Z :=
  match r with
  | WaitStatus waited_pid status k =>
      if WIFEXITED status || WIFSIGNALED status then None
      else if WIFSTOPPED status then
        if is_event status PTRACE_EVENT_FORK
           || is_event status PTRACE_EVENT_VFORK
           || is_event status PTRACE_EVENT_CLONE then None
        else if syscall_stop_reaches_toggle cfg k waited_pid st
             then Some waited_pid else None
      else None
  | _ => None
  end.

(** The TIDs of the stops that reach the toggle during a run, in order. *)
Fixpoint toggling_stops (cfg : Config) (st : State) (reports : list Report)
    : list Z :=
  match reports with
  | [] => []
  | r :: rest =>
      let '(st', stop) := step cfg st r in
      match reaches_toggle cfg st r with Some tid => [tid] | None => [] end
      ++ (if stop then [] else toggling_stops cfg st' rest)
  end.

(** One flip-flop for all tracees, as the source has it: the stops at which
    the flag is found false. *)
Fixpoint shared_entries (in_syscall : bool) (stops : list Z) : list Z :=
  match stops with
  | [] => []
  | tid :: rest =>
      (if in_syscall then [] else [tid]) ++ shared_entries (negb in_syscall) rest
  end.

(** One flip-flop per tracee, in the words of the specification: a stop is
    an entry half when the flag of its own tracee is found false. *)
Fixpoint spec_per_tracee_entries (in_syscall_of : gmap Z bool) (stops : list Z)
    : list Z :=
  match stops with
  | [] => []
  | tid :: rest =>
      let flag := default false (in_syscall_of !! tid) in
      (if flag then [] else [tid])
      ++ spec_per_tracee_entries (<[tid := negb flag]> in_syscall_of) rest
  end.

(** *** Sequence numbers *)

(** The entry at index [i] (from 0) carries the [int] value of [i + 1]. *)
Definition numbered (operations : list FileOperation) : Prop :=
  forall (i : nat) (op : FileOperation),
    operations !! i = Some op -> sequence op = to_int (Z.of_nat i + 1).

(** The state on entry to the loop: the root was registered by
    [handle_thread_creation(0, child, true)] on an empty registry. *)
Definition initial_state (env : FsEnv) (cfg : Config) : State :=
  {| thread_map := handle_thread_creation env 0 (child cfg) true ∅;
     operations := [];
     in_syscall := false;
     classified := [] |}.

End Supervisor.

(** ** directory_tree.hpp *)

Module Tree.

(** [children] is the [std::map] from segment name to child node: an
    association list kept in ascending key order, one entry per key.
    [thread_id] is [None] until it is first assigned (the constructor leaves
    it uninitialised). *)
#[local] Unset Elimination Schemes.
Inductive DirectoryNode := mkNode {
  name : string;
  full_path : string;
  is_file : bool;
  sequence_number : Z;
  thread_id : option Z;
  thread_name : string;
  children : list (string * DirectoryNode)
}.
#[local] Set Elimination Schemes.

(** [DirectoryNode(n, path, file)] *)
Definition new_node (n path : string) (file : bool) : DirectoryNode :=
  {| name := n; full_path := path; is_file := file; sequence_number := -1;
     thread_id := None; thread_name := ""; children := [] |}.

(** [std::map::find] *)
Fixpoint map_find (key : string) (m : list (string * DirectoryNode))
    : option DirectoryNode :=
  match m with
  | [] => None
  | (k, v) :: rest => if String.eqb key k then Some v else map_find key rest
  end.

(** Adding the entry of a key that is not yet in the map: it takes its
    place in key order. *)
Fixpoint map_add (key : string) (v : DirectoryNode)
    (m : list (string * DirectoryNode)) : list (string * DirectoryNode) :=
  match m with
  | [] => [(key, v)]
  | (k, x) :: rest =>
      if String.ltb key k then (key, v) :: (k, x) :: rest
      else (k, x) :: map_add key v rest
  end.

(** Writing through the pointer that [m[key]] returns for a key that is in
    the map: the entry is updated where it is. *)
Fixpoint map_replace (key : string) (v : DirectoryNode)
    (m : list (string * DirectoryNode)) : list (string * DirectoryNode) :=
  match m with
  | [] => []
  | (k, x) :: rest =>
      if String.eqb key k then (k, v) :: rest
      else (k, x) :: map_replace key v rest
  end.

Definition with_children (n : DirectoryNode)
    (cs : list (string * DirectoryNode)) : DirectoryNode :=
  {| name := name n; full_path := full_path n; is_file := is_file n;
     sequence_number := sequence_number n; thread_id := thread_id n;
     thread_name := thread_name n; children := cs |}.

(** The update of the last component (lines 83-90). *)
Definition touch (sequence tid : Z) (tname : string) (n : DirectoryNode)
    : DirectoryNode :=
  {| name := name n; full_path := full_path n; is_file := true;
     sequence_number := sequence; thread_id := Some tid;
     thread_name := tname; children := children n |}.

(** Splitting at every '/'. *)
Fixpoint split_slash (s : string) : list string :=
  match s with
  | EmptyString => [EmptyString]
  | String c rest =>
      let r := split_slash rest in
      if Ascii.eqb c "/" then EmptyString :: r
      else match r with
           | seg :: more => String c seg :: more
           | [] => [String c EmptyString]
           end
  end.

(** The elements of a [std::filesystem::path] are the root directory "/",
    the names between separators and an empty name after a trailing
    separator; the source keeps those that are neither "/" nor empty. *)
Definition path_components (p : string) : list string :=
  filter (fun comp_str => string_empty comp_str = false) (split_slash p).

(** The loop over the components (lines 65-91), as a descent from
    [current]: a missing child is created and added to the map, an existing
    one is updated in place. *)
Fixpoint insert_components (components : list string) (current_path : string)
    (sequence tid : Z) (tname : string) (current : DirectoryNode)
    : DirectoryNode :=
  match components with
  | [] => current
  | comp_str :: rest =>
      let is_last := match rest with [] => true | _ => false end in
      let current_path' := path_append current_path comp_str in
      let descend (child : DirectoryNode) : DirectoryNode :=
        insert_components rest current_path' sequence tid tname
          (if is_last then touch sequence tid tname child else child) in
      match map_find comp_str (children current) with
      | Some child =>
          with_children current
            (map_replace comp_str (descend child) (children current))
      | None =>
          with_children current
            (map_add comp_str
               (descend (new_node comp_str current_path' is_last))
               (children current))
      end
  end.

(** [DirectoryTree()] *)
Definition empty_tree : DirectoryNode := new_node "/" "/" false.

Definition insert_file (env : FsEnv) (path : string) (sequence tid : Z)
    (tname : string) (root : DirectoryNode) : DirectoryNode :=
  insert_components (path_components (path_utils.normalize_path env path))
    "/" sequence tid tname root.

(** *** The invariant of the child maps *)

(** The keys of a [std::map] are strictly ascending. *)
Definition keys_ascending (m : list (string * DirectoryNode)) : Prop :=
  StronglySorted (fun a b => String.ltb a b = true) (map fst m).

(** Every child map in the tree has strictly ascending keys, and every
    child is filed under its own name. *)
Fixpoint well_formed (node : DirectoryNode) : Prop :=
  match node with
  | mkNode _ _ _ _ _ _ cs =>
      keys_ascending cs
      /\ (fix all (l : list (string * DirectoryNode)) : Prop :=
            match l with
            | [] => True
            | (k, c) :: l' => name c = k /\ well_formed c /\ all l'
            end) cs
  end.

(** *** Comparing trees up to touch metadata *)




(** *** Rendering *)

(** The comparison given to [std::sort]. *)
Definition node_before (a b : DirectoryNode) : bool :=
  if negb (Bool.eqb (is_file a) (is_file b)) then negb (is_file a)
  else String.ltb (name a) (name b).

Fixpoint insert_sorted (x : DirectoryNode) (l : list DirectoryNode)
    : list DirectoryNode :=
  match l with
  | [] => [x]
  | y :: l' => if node_before x y then x :: y :: l' else y :: insert_sorted x l'
  end.

(** [std::sort(..., node_before)] *)
Definition sort_nodes (l : list DirectoryNode) : list DirectoryNode :=
  foldr insert_sorted [] l.

Definition sorted_children (node : DirectoryNode) : list DirectoryNode :=
  sort_nodes (map snd (children node)).

(** [a] may stand before [b] in a sequence sorted by [node_before]. *)
Definition may_precede (a b : DirectoryNode) : Prop := node_before b a = false.


Definition nl : string := String (ascii_of_nat 10) EmptyString.

Fixpoint spaces (n : nat) : string :=
  match n with O => EmptyString | S n' => String " " (spaces n') end.

Definition folderSvg : string :=
  "<svg class='svg-icon' viewBox='0 0 20 20'><path d='M2 4c0-1.1.9-2 2-2h4l2 2h6c1.1 0 2 .9 2 2v10c0 1.1-.9 2-2 2H4c-1.1 0-2-.9-2-2V4z'/></svg>".
Definition fileSvg : string :=
  "<svg class='svg-icon' viewBox='0 0 20 20'><path d='M13 2H6C4.9 2 4 2.9 4 4v12c0 1.1.9 2 2 2h8c1.1 0 2-.9 2-2V7l-3-5zM13 8V3.5L17.5 8H13z'/></svg>".

(** What a node writes before its children (lines 104-123). *)
Definition node_head (node : DirectoryNode) (indent : string) : string :=
  indent +:+ "<div class='tree-node"
    +:+ (if is_file node then " file" else " directory") +:+ "'>" +:+ nl
  +:+ indent +:+ "  <div class='node-content'>" +:+ nl
  +:+ (if negb (is_file node)
       then indent +:+ "    <span class='folder-icon' onclick='toggleDirectory(this)'>"
              +:+ folderSvg +:+ "</span>" +:+ nl
       else indent +:+ "    <span class='file-icon'>" +:+ fileSvg +:+ "</span>" +:+ nl)
  +:+ indent +:+ "    <span class='name'>" +:+ name node +:+ "</span>" +:+ nl
  +:+ (if is_file node then
         (if 0 <? sequence_number node
          then indent +:+ "    <span class='sequence'>["
                 +:+ pretty (sequence_number node) +:+ "]</span>" +:+ nl
          else "")
         +:+ (if negb (string_empty (thread_name node))
              then indent +:+ "    <span class='thread-info'>(Thread: "
                     +:+ pretty (default 0 (thread_id node)) +:+ " - "
                     +:+ thread_name node +:+ ")</span>" +:+ nl
              else "")
       else "")
  +:+ indent +:+ "  </div>" +:+ nl.

Definition concat_strings (l : list string) : string :=
  foldr String.append EmptyString l.

(** [1 + ] the length of the longest descent below the node: the depth of
    the recursion of [generate_html_node]. *)
Fixpoint height (node : DirectoryNode) : nat :=
  match node with
  | mkNode _ _ _ _ _ _ cs =>
      S ((fix heights (l : list (string * DirectoryNode)) : nat :=
            match l with
            | [] => O
            | (_, c) :: l' => Nat.max (height c) (heights l')
            end) cs)
  end.

(** [generate_html_node] with its recursion depth bounded by [fuel]. *)
Fixpoint generate_html_node_fuel (fuel : nat) (node : DirectoryNode)
    (depth : Z) : string :=
  match fuel with
  | O => EmptyString
  | S fuel' =>
      let indent := spaces (Z.to_nat (depth * 2)) in
      node_head node indent
      +:+ (match children node with
           | [] => ""
           | _ :: _ =>
               indent +:+ "  <div class='children'>" +:+ nl
               +:+ concat_strings
                     (map (fun child => generate_html_node_fuel fuel' child (depth + 2))
                        (sorted_children node))
               +:+ indent +:+ "  </div>" +:+ nl
           end)
      +:+ indent +:+ "</div>" +:+ nl
  end.

Definition generate_html_node (node : DirectoryNode) (depth : Z) : string :=
  generate_html_node_fuel (height node) node depth.

Definition generate_html (root : DirectoryNode) : string :=
  "<div class='directory-tree'>" +:+ nl
  +:+ generate_html_node root 0 +:+ "</div>" +:+ nl.

End Tree.

(** ** Sample environments and states (used by the examples below) *)

Module Samples.

(** Bytes of a C string packed into little-endian 64-bit words. *)
Fixpoint pack_word (bytes : list Z) : Z :=
  match bytes with
  | [] => 0
  | b :: rest => b + 256 * pack_word rest
  end.

(** A tracee memory holding [w0] at address 4096 and [w1] at 4104, nothing
    readable elsewhere. *)
Definition two_word_memory (w0 w1 : option Z) (pid addr : Z) : option Z :=
  if addr =? 4096 then w0 else if addr =? 4104 then w1 else None.

(** A file system where every path resolves to itself, "/tmp" is a
    directory and "/tmp/a.txt" a regular file; the tracee memory holds the
    given two words. *)
Definition sample_env (w0 w1 : option Z) : FsEnv :=
  {| realpath := fun p => Some p;
     getcwd := Some "/home/user"%string;
     lexically_normal := fun p => p;
     stat := fun p =>
       if String.eqb p "/tmp" then Some Directory
       else if String.eqb p "/tmp/a.txt" then Some RegularFile
       else None;
     readlink_fd := fun _ _ => None;
     proc_comm := fun _ => Some "main"%string;
     peekdata := two_word_memory w0 w1;
     now := 1000 |}.

(** "/tmp" followed by NUL. *)
Definition word_tmp : Z := pack_word [47; 116; 109; 112; 0; 0; 0; 0].
(** "/tmp/a.t" and "xt" followed by NUL. *)
Definition word_tmp_a_t : Z := pack_word [47; 116; 109; 112; 47; 97; 46; 116].
Definition word_xt : Z := pack_word [120; 116; 0; 0; 0; 0; 0; 0].
(** "/tmp/zz" followed by NUL: a path that does not exist. *)
Definition word_tmp_zz : Z := pack_word [47; 116; 109; 112; 47; 122; 122; 0].
(** "abcdefgh", no NUL. *)
Definition word_abcdefgh : Z := pack_word [97; 98; 99; 100; 101; 102; 103; 104].

Definition plain_env : FsEnv := sample_env None None.

(** A kernel that answers every request of one iteration successfully:
    registers [regs], event message [msg], registers [post] after a clone. *)
Definition clean_oracle (env : FsEnv) (regs : Supervisor.Regs)
    (msg : option Z) (post : option Supervisor.Regs) : Supervisor.StopOracle :=
  {| Supervisor.fs := env;
     Supervisor.eventmsg := msg;
     Supervisor.kill_before_regs := Supervisor.KillOk;
     Supervisor.getregs := fun _ => Supervisor.POk regs;
     Supervisor.kill_in_regs_retry := fun _ => Supervisor.KillOk;
     Supervisor.clone_oracle :=
       {| Supervisor.clone_resume_ok := true;
          Supervisor.clone_wait_ok := true;
          Supervisor.clone_post_regs := post |};
     Supervisor.kill_after_entry := Supervisor.KillOk;
     Supervisor.resume := fun _ => Supervisor.POk tt;
     Supervisor.kill_in_resume_retry := fun _ => Supervisor.KillOk;
     Supervisor.detach_ok := fun _ => true |}.

(** Status words: a plain SIGTRAP stop and a PTRACE_EVENT_CLONE stop. *)
Definition status_syscall_stop : Z := 1407.      (* 0x057f *)
Definition status_clone_event : Z := 198015.     (* 0x3057f *)
(** A PTRACE_EVENT_EXEC stop: (SIGTRAP | PTRACE_EVENT_EXEC << 8) << 8 | 0x7f. *)
Definition status_exec_event : Z := 263551.      (* 0x4057f *)

(** The root is TID 100; files are filtered against "/tmp". *)
Definition sample_cfg : Supervisor.Config :=
  {| Supervisor.disable_directory_filtering := false;
     Supervisor.base_dir := "/tmp";
     Supervisor.child := 100 |}.

(** open(4096): the path is read from the tracee at address 4096. *)
Definition regs_open : Supervisor.Regs :=
  {| Supervisor.orig_rax := Supervisor.SYS_open; Supervisor.rax := 0;
     Supervisor.rdi := 4096; Supervisor.rsi := 0 |}.

(** getpid(): not a classified system call. *)
Definition regs_getpid : Supervisor.Regs :=
  {| Supervisor.orig_rax := 39; Supervisor.rax := 0;
     Supervisor.rdi := 0; Supervisor.rsi := 0 |}.

(** clone(CLONE_VM): the thread-group-sharing flag is not set. *)
Definition regs_clone_vm : Supervisor.Regs :=
  {| Supervisor.orig_rax := Supervisor.SYS_clone; Supervisor.rax := 0;
     Supervisor.rdi := 256; Supervisor.rsi := 0 |}.

(** After the resume inside the clone branch the tracee is not yet past the
    system call: rax still holds -ENOSYS. *)
Definition regs_clone_pending : Supervisor.Regs :=
  {| Supervisor.orig_rax := Supervisor.SYS_clone; Supervisor.rax := 2 ^ 64 - 38;
     Supervisor.rdi := 256; Supervisor.rsi := 0 |}.

(** The environment in which "/tmp/a.txt" is at address 4096 of the
    tracee. *)
Definition env_a_txt : FsEnv := sample_env (Some word_tmp_a_t) (Some word_xt).
(** The environment in which "/tmp" is at address 4096 of the tracee. *)
Definition env_tmp : FsEnv := sample_env (Some word_tmp) None.

Definition syscall_stop (tid : Z) (env : FsEnv) (regs : Supervisor.Regs)
    : Supervisor.Report :=
  Supervisor.WaitStatus tid status_syscall_stop (clean_oracle env regs None None).

(** TID 3 is created under 1, exits, and its TID is reused by a child of
    2. *)
Definition reuse_registry : Registry.thread_map_t :=
  let m1 := Registry.handle_thread_creation plain_env 0 1 true ∅ in
  let m2 := Registry.handle_thread_creation plain_env 1 2 true m1 in
  let m3 := Registry.handle_thread_creation plain_env 1 3 true m2 in
  Registry.handle_thread_exit 3 0 m3.


(** A kernel whose first [n] register reads fail with EINVAL and whose
    first [n] resume requests fail with EIO, with the tracee still there;
    every other request succeeds. *)
Definition flaky_oracle (n : nat) : Supervisor.StopOracle :=
  {| Supervisor.fs := plain_env;
     Supervisor.eventmsg := None;
     Supervisor.kill_before_regs := Supervisor.KillOk;
     Supervisor.getregs := fun i =>
       if (i <? n)%nat then Supervisor.PEINVAL else Supervisor.POk regs_getpid;
     Supervisor.kill_in_regs_retry := fun _ => Supervisor.KillOk;
     Supervisor.clone_oracle :=
       {| Supervisor.clone_resume_ok := true;
          Supervisor.clone_wait_ok := true;
          Supervisor.clone_post_regs := None |};
     Supervisor.kill_after_entry := Supervisor.KillOk;
     Supervisor.resume := fun i =>
       if (i <? n)%nat then Supervisor.PEIO else Supervisor.POk tt;
     Supervisor.kill_in_resume_retry := fun _ => Supervisor.KillOk;
     Supervisor.detach_ok := fun _ => true |}.

(** An event log of two opens by the root. *)
Definition sample_log : list Supervisor.FileOperation :=
  [ {| Supervisor.pid := 100; Supervisor.path := "/tmp/a.txt";
       Supervisor.sequence := 1; Supervisor.op_thread_id := 100;
       Supervisor.op_thread_name := "main";
       Supervisor.is_actual_open := true |};
    {| Supervisor.pid := 100; Supervisor.path := "/tmp/b.txt";
       Supervisor.sequence := 2; Supervisor.op_thread_id := 100;
       Supervisor.op_thread_name := "main";
       Supervisor.is_actual_open := true |} ].

End Samples.

(** ** Relations between registries *)

Module RegistryRel.
Import Registry.

(** How exits may change a registry: no record appears or disappears, and
    a record either stays as it is or, if it was active, becomes the same
    record marked exited with the status [status_of] gives for its TID. *)
Definition exit_evolves (status_of : Z -> Z) (m m' : thread_map_t) : Prop :=
  forall t : Z,
    match m !! t with
    | None => m' !! t = None
    | Some info =>
        m' !! t = Some info
        \/ (active info = true
            /\ m' !! t = Some (mark_exited (status_of t) info))
    end.

(** The status an exit of [tid] with [status] stores: [status] for [tid]
    itself, -1 for every record exited with it. *)
Definition status_at (tid status : Z) (t : Z) : Z :=
  if decide (t = tid) then status else -1.

(** [u] can be reached from [t] by following child lists, leaving only
    records that are active. *)
Inductive reaches (m : thread_map_t) : Z -> Z -> Prop :=
  | reaches_here (t : Z) : reaches m t t
  | reaches_child (t c u : Z) (info : ThreadInfo) :
      m !! t = Some info ->
      active info = true ->
      c ∈ child_processes info \/ c ∈ child_threads info ->
      reaches m c u ->
      reaches m t u.

(** In [m'] every record that was active in [m] and no longer is has only
    children that are not active. *)
Definition children_closed (m m' : thread_map_t) : Prop :=
  forall (x c : Z) (info : ThreadInfo),
    m !! x = Some info ->
    active info = true ->
    is_active m' x = false ->
    c ∈ child_processes info \/ c ∈ child_threads info ->
    is_active m' c = false.

(** The identity of a record: the fields no operation of the registry
    writes after the record is made. *)
Definition same_identity (a b : ThreadInfo) : Prop :=
  thread_id b = thread_id a /\ name b = name a
  /\ process_type b = process_type a.

(** Every record of [m] is still in [m'], with the same identity. *)
Definition keeps_records (m m' : thread_map_t) : Prop :=
  forall (t : Z) (info : ThreadInfo),
    m !! t = Some info ->
    exists info' : ThreadInfo, m' !! t = Some info' /\ same_identity info info'.

End RegistryRel.

(** ** Relations between the registry and the event log *)

Module SupervisorRel.
Import Registry Supervisor.

(** Every entry of the log is an actual open whose thread id is its pid,
    and the thread name it carries is the name of the record registered for
    that TID. *)
Definition log_registered (m : thread_map_t) (ops : list FileOperation) : Prop :=
  forall op : FileOperation,
    op ∈ ops ->
    op_thread_id op = pid op
    /\ is_actual_open op = true
    /\ exists info : ThreadInfo,
         m !! pid op = Some info /\ name info = op_thread_name op.

(** No record of the registry is active. *)
Definition all_inactive (m : thread_map_t) : Prop :=
  forall t : Z, is_active m t = false.

End SupervisorRel.

(** ** Paths and nodes of a tree; the tree of an event log *)

Module TreeRel.
Import Tree.

(** The node reached from [node] by following the components through the
    child maps. *)
Fixpoint find_path (components : list string) (node : DirectoryNode)
    : option DirectoryNode :=
  match components with
  | [] => Some node
  | comp_str :: rest =>
      match map_find comp_str (children node) with
      | Some child => find_path rest child
      | None => None
      end
  end.

(** [d] is [node] or lies in the subtree of one of its children. *)
Inductive in_tree (d : DirectoryNode) : DirectoryNode -> Prop :=
  | in_tree_here : in_tree d d
  | in_tree_below (node child : DirectoryNode) :
      In child (map snd (children node)) ->
      in_tree d child ->
      in_tree d node.

(** [sub] occurs in [s]. *)
Definition occurs_in (sub s : string) : Prop :=
  exists pre post : string, s = pre +:+ sub +:+ post.

(** The three lines a node may write about itself, without the
    indentation (directory_tree.hpp, lines 115-122). *)
Definition name_line (node_name : string) : string :=
  "    <span class='name'>" +:+ node_name +:+ "</span>" +:+ nl.
Definition sequence_line (sequence : Z) : string :=
  "    <span class='sequence'>[" +:+ pretty sequence +:+ "]</span>" +:+ nl.
Definition thread_line (tid : Z) (tname : string) : string :=
  "    <span class='thread-info'>(Thread: " +:+ pretty tid +:+ " - "
    +:+ tname +:+ ")</span>" +:+ nl.

(** Every child's full path is its parent's full path extended by the key
    the child is filed under, throughout the tree. *)
Fixpoint paths_consistent (node : DirectoryNode) : Prop :=
  match node with
  | mkNode _ p _ _ _ _ cs =>
      (fix all (l : list (string * DirectoryNode)) : Prop :=
         match l with
         | [] => True
         | (k, c) :: l' =>
             full_path c = path_append p k /\ paths_consistent c /\ all l'
         end) cs
  end.

(** The loop of [generate_html_output] (main.cpp): the tree made of the
    event log, one insertion per entry in log order. *)
Definition build_tree (env : FsEnv) (operations : list Supervisor.FileOperation)
    : DirectoryNode :=
  foldl (fun tree op =>
           insert_file env (Supervisor.path op) (Supervisor.sequence op)
             (Supervisor.op_thread_id op) (Supervisor.op_thread_name op) tree)
    empty_tree operations.

End TreeRel.

(** * Properties *)

(** ** path_utils *)

Module PathFacts.
Import path_utils.

#[local] Transparent String.prefix.

(** [find(pat) == 0] is exactly "the raw string starts with [pat]". *)
Lemma find_at_0_app (pat rest : string) : find_at_0 (pat +:+ rest) pat = true.
Proof.
  unfold find_at_0.
  assert (Hp : String.prefix pat (pat +:+ rest) = true).
  { induction pat as [|c pat IH]; simpl.
    - destruct rest; reflexivity.
    - simpl. destruct (ascii_dec c c); [exact IH | congruence]. }
  destruct pat as [|c pat]; simpl.
  - destruct rest; reflexivity.
  - simpl in Hp. rewrite Hp. reflexivity.
Qed.

Lemma find_at_0_prefix (s pat : string) :
  find_at_0 s pat = true -> exists rest, s = pat +:+ rest.
Proof.
  unfold find_at_0. destruct (String.index 0 pat s) as [[|n]|] eqn:Hi; try discriminate.
  intros _. apply String.index_correct1 in Hi.
  exists (String.substring (String.length pat) (String.length s - String.length pat) s).
  clear -Hi. revert s Hi. induction pat as [|c pat IH]; intros s Hi; simpl.
  - rewrite Nat.sub_0_r. clear Hi. induction s as [|a s IHs]; simpl in *; [reflexivity|].
    f_equal. exact IHs.
  - destruct s as [|a s]; simpl in Hi; [discriminate|].
    injection Hi as -> Hs. simpl. f_equal. apply IH. exact Hs.
Qed.

(** C9. With directory filtering enabled (flag unset), every path whose raw
    string starts with "/lib", "/proc" or "/etc/ld.so.cache" is accepted,
    for every base directory and every state of the file system: the
    answer is given before the path is normalized, so it does not depend on
    what realpath or getcwd would say.  This includes unrelated names such
    as "/libfoo" and "/procfile". *)
Theorem is_within_directory_system_prefix :
  forall (env : FsEnv) (path base_dir rest : string),
    path = "/lib" +:+ rest \/ path = "/proc" +:+ rest
    \/ path = "/etc/ld.so.cache" +:+ rest ->
    is_within_directory env false path base_dir = true.
Proof.
  intros env path base_dir rest H.
  unfold is_within_directory, system_path.
  destruct H as [-> | [-> | ->]]; rewrite find_at_0_app;
    rewrite ?orb_true_r; reflexivity.
Qed.

(** "/libfoo" is accepted under base "/home/user". *)
Lemma is_within_directory_system_prefix_witness :
  is_within_directory Samples.plain_env false "/libfoo" "/home/user" = true.
Proof.
  apply (is_within_directory_system_prefix Samples.plain_env
           "/libfoo" "/home/user" "foo").
  left. reflexivity.
Defined.

End PathFacts.

(** ** The registry *)

Module RegistryFacts.
Import Registry.

(** C10. [handle_thread_creation] on a TID whose record exists and is
    active returns the registry as it was: no record and no child list
    changes, whatever parent and kind are supplied. *)
Theorem handle_thread_creation_active_unchanged :
  forall (env : FsEnv) (parent tid : Z) (is_process : bool)
         (thread_map : thread_map_t) (existing : ThreadInfo),
    thread_map !! tid = Some existing ->
    active existing = true ->
    handle_thread_creation env parent tid is_process thread_map = thread_map.
Proof.
  intros env parent tid is_process thread_map existing Hlook Hact.
  unfold handle_thread_creation. rewrite Hlook, Hact. reflexivity.
Qed.

(** *** The recursion of [handle_thread_exit] *)

Lemma elem_of_active_set (m : thread_map_t) (tid : Z) :
  tid ∈ active_set m <-> is_active m tid = true.
Proof.
  unfold active_set. rewrite elem_of_filter, elem_of_dom.
  split; [tauto|]. intros H. split; [exact H|].
  unfold is_active in H. destruct (m !! tid); [eauto | discriminate].
Qed.

Lemma active_set_mark_exited (m : thread_map_t) (tid status : Z)
    (info : ThreadInfo) :
  m !! tid = Some info -> active info = true ->
  active_set (<[tid := mark_exited status info]> m) ⊂ active_set m.
Proof.
  intros Hlook Hact. split.
  - intros t. rewrite !elem_of_active_set. unfold is_active.
    rewrite lookup_insert. case_decide; [discriminate | auto].
  - intros Hsub. specialize (Hsub tid).
    rewrite !elem_of_active_set in Hsub. unfold is_active in Hsub.
    rewrite lookup_insert_eq, Hlook in Hsub. simpl in Hsub.
    specialize (Hsub Hact). discriminate.
Qed.

Lemma exit_children_shrinks (rec : Z -> thread_map_t -> thread_map_t)
    (children : list Z) :
  (forall child m, active_set (rec child m) ⊆ active_set m) ->
  forall m, active_set (exit_children rec children m) ⊆ active_set m.
Proof.
  intros Hrec. unfold exit_children.
  induction children as [|c cs IH]; intros m; cbn [foldl]; [reflexivity|].
  etrans; [apply IH|].
  destruct (m !! c) as [ci|]; [|reflexivity].
  destruct (active ci); [apply Hrec | reflexivity].
Qed.

(** An exit never activates a record. *)
Lemma handle_thread_exit_fuel_shrinks (fuel : nat) :
  forall (tid status : Z) (m : thread_map_t),
    active_set (handle_thread_exit_fuel fuel tid status m) ⊆ active_set m.
Proof.
  induction fuel as [|fuel IH]; intros tid status m;
    cbn [handle_thread_exit_fuel]; [reflexivity|].
  destruct (m !! tid) as [info|] eqn:Hlook; [|reflexivity].
  destruct (active info) eqn:Hact; cbn [negb]; [|reflexivity].
  etrans; [apply exit_children_shrinks; intros; apply IH|].
  etrans; [apply exit_children_shrinks; intros; apply IH|].
  apply (active_set_mark_exited m tid status info Hlook Hact).
Qed.

Lemma exit_children_fuel_irrelevant
    (rec1 rec2 : Z -> thread_map_t -> thread_map_t) (bound : gset Z)
    (children : list Z) :
  (forall child m, active_set (rec1 child m) ⊆ active_set m) ->
  (forall child m, active_set m ⊆ bound -> rec1 child m = rec2 child m) ->
  forall m, active_set m ⊆ bound ->
            exit_children rec1 children m = exit_children rec2 children m.
Proof.
  intros Hshrink Hsame. unfold exit_children.
  induction children as [|c cs IH]; intros m Hm; cbn [foldl]; [reflexivity|].
  destruct (m !! c) as [ci|]; [|apply IH; exact Hm].
  destruct (active ci); [|apply IH; exact Hm].
  rewrite <- (Hsame c m Hm). apply IH.
  etrans; [apply Hshrink | exact Hm].
Qed.

(** Every nested call of [handle_thread_exit] is made on an active record
    and first turns it inactive: any two amounts of fuel above the number
    of active records give the same registry. *)
Lemma handle_thread_exit_fuel_irrelevant (fuel1 : nat) :
  forall (fuel2 : nat) (tid status : Z) (m : thread_map_t),
    (size (active_set m) < fuel1)%nat ->
    (size (active_set m) < fuel2)%nat ->
    handle_thread_exit_fuel fuel1 tid status m
    = handle_thread_exit_fuel fuel2 tid status m.
Proof.
  induction fuel1 as [|fuel1 IH]; intros fuel2 tid status m H1 H2; [lia|].
  destruct fuel2 as [|fuel2]; [lia|].
  cbn [handle_thread_exit_fuel].
  destruct (m !! tid) as [info|] eqn:Hlook; [|reflexivity].
  destruct (active info) eqn:Hact; cbn [negb]; [|reflexivity].
  pose proof (subset_size _ _ (active_set_mark_exited m tid status info Hlook Hact))
    as Hless.
  set (m1 := <[tid := mark_exited status info]> m) in *.
  assert (Hsame : forall child acc,
            active_set acc ⊆ active_set m1 ->
            handle_thread_exit_fuel fuel1 child (-1) acc
            = handle_thread_exit_fuel fuel2 child (-1) acc).
  { intros child acc Hacc. apply subseteq_size in Hacc. apply IH; lia. }
  rewrite (exit_children_fuel_irrelevant
             (fun child acc => handle_thread_exit_fuel fuel1 child (-1) acc)
             (fun child acc => handle_thread_exit_fuel fuel2 child (-1) acc)
             (active_set m1) (child_processes info));
    [| intros; apply handle_thread_exit_fuel_shrinks | exact Hsame | reflexivity].
  apply (exit_children_fuel_irrelevant _ _ (active_set m1));
    [intros; apply handle_thread_exit_fuel_shrinks | exact Hsame |].
  apply exit_children_shrinks. intros. apply handle_thread_exit_fuel_shrinks.
Qed.

(** The fuel [handle_thread_exit] starts with is enough: more fuel does not
    change its result. *)
Lemma handle_thread_exit_fuel_enough (fuel : nat) (tid status : Z)
    (m : thread_map_t) :
  (size m < fuel)%nat ->
  handle_thread_exit_fuel fuel tid status m = handle_thread_exit tid status m.
Proof.
  intros Hfuel. unfold handle_thread_exit.
  assert (Hsize : (size (active_set m) <= size m)%nat).
  { rewrite <- size_dom. apply subseteq_size.
    unfold active_set. intros t. rewrite elem_of_filter. tauto. }
  apply handle_thread_exit_fuel_irrelevant; lia.
Qed.

(** C10 at a registry holding the active root 1: a second creation of 1
    under another parent and as a thread changes nothing. *)
Lemma handle_thread_creation_active_unchanged_witness :
  let m := handle_thread_creation Samples.plain_env 0 1 true ∅ in
  handle_thread_creation Samples.plain_env 7 1 false m = m.
Proof.
  apply (handle_thread_creation_active_unchanged Samples.plain_env 7 1 false _
           {| thread_id := 1; parent_pid := 0; name := "main"; active := true;
              process_type := PROCESS; child_processes := [];
              child_threads := []; creation_time := 1000; exit_status := -1 |});
    reflexivity.
Defined.

(** Reactivation of an inactive record writes the record itself and, at
    most, the record of the old parent: the record of a new parent is left
    as it was, so the reactivated TID is not linked into its child list. *)
Lemma reactivation_leaves_new_parent :
  forall (env : FsEnv) (parent tid : Z) (is_process : bool)
         (thread_map : thread_map_t) (existing : ThreadInfo),
    thread_map !! tid = Some existing ->
    active existing = false ->
    parent_pid existing <> parent ->
    parent <> tid ->
    handle_thread_creation env parent tid is_process thread_map !! parent
    = thread_map !! parent.
Proof.
  intros env parent tid is_process thread_map existing Hlook Hact Hne Hpt.
  unfold handle_thread_creation. rewrite Hlook, Hact.
  rewrite bool_decide_eq_true_2 by exact Hne. simpl.
  case_bool_decide as Hold; simpl.
  - destruct (_ !! parent_pid existing) as [op|] eqn:Hop.
    + rewrite lookup_insert_ne by exact Hne.
      rewrite lookup_insert_ne by (intros E; apply Hpt; symmetry; exact E).
      reflexivity.
    + rewrite lookup_insert_ne by (intros E; apply Hpt; symmetry; exact E).
      reflexivity.
  - rewrite lookup_insert_ne by (intros E; apply Hpt; symmetry; exact E).
    reflexivity.
Qed.

(** X26. What reactivation does to the record itself.  A new creation of
    a TID whose record is inactive sets the record active with the supplied
    parent, the current time and exit status -1, and keeps the thread id,
    the name, the kind and both child lists of the old record, whatever
    kind the flag says. *)
Lemma reactivation_record :
  forall (env : FsEnv) (parent tid : Z) (is_process : bool)
         (thread_map : thread_map_t) (existing : ThreadInfo),
    thread_map !! tid = Some existing ->
    active existing = false ->
    parent_pid existing <> tid ->
    handle_thread_creation env parent tid is_process thread_map !! tid
    = Some {| thread_id := thread_id existing; parent_pid := parent;
              name := name existing; active := true;
              process_type := process_type existing;
              child_processes := child_processes existing;
              child_threads := child_threads existing;
              creation_time := now env; exit_status := -1 |}.
Proof.
  intros env parent tid is_process thread_map existing Hlook Hact Hself.
  unfold handle_thread_creation. rewrite Hlook, Hact.
  assert (Hp : (if bool_decide (parent_pid existing <> parent) then parent
                else parent_pid existing) = parent).
  { case_bool_decide as H; [reflexivity|exact H]. }
  rewrite Hp.
  destruct (bool_decide (parent_pid existing <> parent)
            && bool_decide (parent_pid existing <> 0)); simpl.
  - destruct (_ !! parent_pid existing) as [op|].
    + rewrite lookup_insert_ne by exact Hself. apply lookup_insert_eq.
    + apply lookup_insert_eq.
  - apply lookup_insert_eq.
Qed.

(** Reactivation under another parent erases the TID from the list of the
    old parent that the [is_process] argument selects. *)
Lemma reactivation_unlinks_old_parent :
  forall (env : FsEnv) (parent tid : Z) (is_process : bool)
         (thread_map : thread_map_t) (existing old : ThreadInfo),
    thread_map !! tid = Some existing ->
    active existing = false ->
    parent_pid existing <> parent ->
    parent_pid existing <> 0 ->
    parent_pid existing <> tid ->
    thread_map !! parent_pid existing = Some old ->
    exists old' : ThreadInfo,
      handle_thread_creation env parent tid is_process thread_map
        !! parent_pid existing = Some old'
      /\ children_of is_process old'
         = erase_remove tid (children_of is_process old)
      /\ tid ∉ children_of is_process old'.
Proof.
  intros env parent tid is_process thread_map existing old
    Hlook Hact Hne H0 Hself Hold.
  unfold handle_thread_creation. rewrite Hlook, Hact.
  rewrite !bool_decide_eq_true_2 by assumption. cbn [andb].
  rewrite lookup_insert_ne by (intros E; apply Hself; symmetry; exact E).
  rewrite Hold. rewrite lookup_insert_eq.
  eexists. split; [reflexivity|].
  assert (E : children_of is_process
                (set_children is_process
                   (erase_remove tid (children_of is_process old)) old)
              = erase_remove tid (children_of is_process old))
    by (destruct is_process; reflexivity).
  split; [exact E|]. rewrite E. unfold erase_remove.
  intros Hin. apply list_elem_of_filter in Hin. destruct Hin as [Hneq _].
  apply Hneq. reflexivity.
Qed.

(** Scenario "fork accounting": create(0,1,process), create(1,2,thread),
    create(1,3,process), exit(1,0) leave 1, 2 and 3 inactive, with 2 in the
    child threads and 3 in the child processes of 1. *)
Example fork_accounting :
  let m := handle_thread_exit 1 0
             (handle_thread_creation Samples.plain_env 1 3 true
                (handle_thread_creation Samples.plain_env 1 2 false
                   (handle_thread_creation Samples.plain_env 0 1 true ∅))) in
  (active <$> m !! 1) = Some false
  /\ (active <$> m !! 2) = Some false
  /\ (active <$> m !! 3) = Some false
  /\ (exit_status <$> m !! 1) = Some 0
  /\ (child_threads <$> m !! 1) = Some [2]
  /\ (child_processes <$> m !! 1) = Some [3].
Proof. vm_compute. repeat split; reflexivity. Qed.

(** Scenario "reactivation": create(0,1,process), exit(1,0),
    create(0,1,process) leave record 1 active with its exit status reset. *)
Example reactivation_same_parent :
  let m := handle_thread_creation Samples.plain_env 0 1 true
             (handle_thread_exit 1 0
                (handle_thread_creation Samples.plain_env 0 1 true ∅)) in
  (active <$> m !! 1) = Some true
  /\ (exit_status <$> m !! 1) = Some (-1)
  /\ (parent_pid <$> m !! 1) = Some 0.
Proof. vm_compute. repeat split; reflexivity. Qed.

(** C1 (the code at the failing input). TID 3 was a child process of 1 and
    has exited; it is created again as a child process of 2.  The record is
    reactivated with parent 2 and removed from the child list of 1, but it
    is not added to the child list of 2: it is in no parent's child list. *)
Theorem reactivation_reparent_unlinked :
  let m := handle_thread_creation Samples.plain_env 2 3 true
             Samples.reuse_registry in
  (active <$> Samples.reuse_registry !! 3) = Some false
  /\ (parent_pid <$> Samples.reuse_registry !! 3) = Some 1
  /\ (active <$> m !! 3) = Some true
  /\ (parent_pid <$> m !! 3) = Some 2
  /\ (process_type <$> m !! 3) = Some PROCESS
  /\ (child_processes <$> m !! 1) = Some [2]
  /\ (child_processes <$> m !! 2) = Some []
  /\ (child_threads <$> m !! 2) = Some [].
Proof. vm_compute. repeat split; reflexivity. Qed.

End RegistryFacts.

(** ** The tracee memory reader *)

Module ReaderFacts.
Import Reader.

Lemma chars_of_long_length (val : Z) : length (chars_of_long val) = 8%nat.
Proof. reflexivity. Qed.

(** Without a NUL and with room in the buffer the inner loop copies every
    byte. *)
Lemma copy_chars_no_nul (chars : list Z) :
  forall (pos : Z) (buffer : list Z),
    Forall (fun c => c <> 0) chars ->
    pos + Z.of_nat (length chars) <= buffer_size - 1 ->
    copy_chars chars pos buffer = (buffer ++ chars, false).
Proof.
  induction chars as [|c chars IH]; intros pos buffer Hnz Hroom; simpl.
  - rewrite app_nil_r. reflexivity.
  - inversion Hnz as [|? ? Hc Hrest]; subst.
    simpl length in Hroom.
    destruct (Z.ltb_spec pos (buffer_size - 1)) as [_|Hge]; [|lia].
    destruct (Z.eqb_spec c 0) as [E|_]; [contradiction|].
    rewrite IH by (auto; lia).
    rewrite <- app_assoc. reflexivity.
Qed.

Lemma cstring_no_nul (bytes : list Z) :
  Forall (fun c => c <> 0) bytes ->
  cstring (bytes ++ [0]) = string_of_chars bytes.
Proof.
  induction 1 as [|c bytes Hc _ IH]; simpl; [reflexivity|].
  destruct (Z.eqb_spec c 0) as [E|_]; [contradiction|].
  unfold string_of_chars in *. simpl. rewrite IH. reflexivity.
Qed.

Lemma string_of_chars_length (bytes : list Z) :
  String.length (string_of_chars bytes) = length bytes.
Proof.
  unfold string_of_chars. induction bytes as [|c bytes IH]; simpl; [reflexivity|].
  rewrite IH. reflexivity.
Qed.

Section Failure.
Variables (env : FsEnv) (pid addr : Z).

Lemma readable_from_cons (start : Z) (w : Z) (words : list Z) :
  readable_from env pid addr start (w :: words) ->
  peekdata env pid ((addr + start) mod 2 ^ 64) = Some w
  /\ nul_free w
  /\ readable_from env pid addr (start + sizeof_long) words.
Proof.
  intros H. destruct (H 0%nat w eq_refl) as [Hp Hn].
  replace (start + sizeof_long * Z.of_nat 0) with start in Hp by lia.
  split; [exact Hp|]. split; [exact Hn|].
  intros j w' Hj. destruct (H (S j) w' Hj) as [Hp' Hn'].
  split; [|exact Hn'].
  rewrite <- Hp'. f_equal. f_equal. unfold sizeof_long. lia.
Qed.

Lemma read_loop_failure (words : list Z) :
  forall (rounds : nat) (i : Z) (buffer : list Z),
    0 <= i ->
    i + sizeof_long * Z.of_nat (length words) < buffer_size - sizeof_long ->
    (length words < rounds)%nat ->
    Forall (fun c => c <> 0) buffer ->
    readable_from env pid addr i words ->
    peekdata env pid
      ((addr + (i + sizeof_long * Z.of_nat (length words))) mod 2 ^ 64) = None ->
    read_loop env rounds pid addr i buffer
    = string_of_chars (buffer ++ concat (map chars_of_long words)).
Proof.
  induction words as [|w words IH];
    intros rounds i buffer Hi Hroom Hrounds Hbuf Hread Hfail.
  - destruct rounds as [|rounds]; [simpl in Hrounds; lia|].
    simpl length in *. cbn [read_loop map concat].
    replace (i + sizeof_long * Z.of_nat 0) with i in * by lia.
    destruct (Z.ltb_spec i (buffer_size - sizeof_long)) as [_|Hge]; [|lia].
    rewrite Hfail. rewrite app_nil_r. apply cstring_no_nul. exact Hbuf.
  - destruct rounds as [|rounds]; [simpl in Hrounds; lia|].
    apply readable_from_cons in Hread. destruct Hread as (Hp & Hn & Hread).
    simpl length in *. cbn [read_loop].
    destruct (Z.ltb_spec i (buffer_size - sizeof_long)) as [_|Hge];
      [|unfold sizeof_long, buffer_size in *; lia].
    rewrite Hp.
    rewrite copy_chars_no_nul;
      [| exact Hn
       | rewrite chars_of_long_length; unfold sizeof_long, buffer_size in *; lia].
    rewrite IH.
    + cbn [map concat]. rewrite app_assoc. reflexivity.
    + unfold sizeof_long in *. lia.
    + unfold sizeof_long in *. lia.
    + lia.
    + apply Forall_app. split; [exact Hbuf | exact Hn].
    + exact Hread.
    + rewrite <- Hfail. f_equal. f_equal. unfold sizeof_long. lia.
Qed.

End Failure.

(** C6 (as amended). When the reads of the first [k] words succeed without
    meeting a NUL and the read of word [k] fails, [read_process_string]
    returns the [8 * k] bytes read so far, not the empty string; it returns
    the empty string when the very first read fails ([k = 0]).  Being a
    total function, the reader returns normally in every case. *)
Theorem read_process_string_on_failure :
  forall (env : FsEnv) (pid addr : Z) (words : list Z),
    (length words < max_rounds)%nat ->
    readable_from env pid addr 0 words ->
    peekdata env pid
      ((addr + sizeof_long * Z.of_nat (length words)) mod 2 ^ 64) = None ->
    read_process_string env pid addr
    = string_of_chars (concat (map chars_of_long words))
    /\ String.length (read_process_string env pid addr) = (8 * length words)%nat
    /\ (words = [] -> read_process_string env pid addr = ""%string).
Proof.
  intros env pid addr words Hk Hread Hfail.
  assert (E : read_process_string env pid addr
              = string_of_chars (concat (map chars_of_long words))).
  { unfold read_process_string.
    rewrite (read_loop_failure env pid addr words max_rounds 0 []); auto.
    - lia.
    - unfold max_rounds, sizeof_long, buffer_size in *. lia. }
  split; [exact E|]. split.
  - rewrite E, string_of_chars_length.
    clear. induction words as [|w words IH]; [reflexivity|].
    cbn [map concat length]. rewrite length_app, chars_of_long_length, IH. lia.
  - intros ->. rewrite E. reflexivity.
Qed.

(** The first word "abcdefgh" is read, the second read fails. *)
Lemma read_process_string_on_failure_witness :
  let env := Samples.sample_env (Some Samples.word_abcdefgh) None in
  read_process_string env 7 4096 = "abcdefgh"%string
  /\ String.length (read_process_string env 7 4096) = 8%nat.
Proof.
  intros env.
  destruct (read_process_string_on_failure env 7 4096 [Samples.word_abcdefgh])
    as (E & L & _).
  - vm_compute. lia.
  - intros j w Hj. destruct j as [|j]; [|discriminate].
    injection Hj as <-. split; [reflexivity|].
    unfold nul_free. vm_compute. repeat constructor; discriminate.
  - reflexivity.
  - split; [exact E | exact L].
Defined.

(** C6 (counterexample). One NUL-free word is read, the next read fails,
    and the result is "abcdefgh", not the empty string. *)
Lemma read_process_string_partial_not_empty :
  let env := Samples.sample_env (Some Samples.word_abcdefgh) None in
  peekdata env 7 4096 = Some Samples.word_abcdefgh
  /\ nul_free Samples.word_abcdefgh
  /\ peekdata env 7 4104 = None
  /\ read_process_string env 7 4096 = "abcdefgh"%string
  /\ read_process_string env 7 4096 <> ""%string.
Proof.
  intros env. split; [reflexivity|]. split.
  { unfold nul_free. vm_compute. repeat constructor; discriminate. }
  split; [reflexivity|]. split; [reflexivity|].
  vm_compute. discriminate.
Qed.

End ReaderFacts.

(** ** The directory tree *)

Module TreeFacts.
Import Tree.

(** *** The child map *)

Lemma map_find_replace (key : string) (v : DirectoryNode)
    (m : list (string * DirectoryNode)) :
  is_Some (map_find key m) -> map_find key (map_replace key v m) = Some v.
Proof.
  induction m as [|[k x] m IH]; simpl; intros Hfound.
  - destruct Hfound as [? ?]. discriminate.
  - destruct (String.eqb key k) eqn:E; simpl; rewrite E; auto.
Qed.

Lemma map_find_add (key : string) (v : DirectoryNode)
    (m : list (string * DirectoryNode)) :
  map_find key m = None -> map_find key (map_add key v m) = Some v.
Proof.
  induction m as [|[k x] m IH]; simpl; intros Hnone.
  - rewrite String.eqb_refl. reflexivity.
  - destruct (String.eqb key k) eqn:E; [discriminate|].
    destruct (String.ltb key k); simpl.
    + rewrite String.eqb_refl. reflexivity.
    + rewrite E. auto.
Qed.

Lemma map_replace_replace (key : string) (v v' : DirectoryNode)
    (m : list (string * DirectoryNode)) :
  map_replace key v' (map_replace key v m) = map_replace key v' m.
Proof.
  induction m as [|[k x] m IH]; simpl; [reflexivity|].
  destruct (String.eqb key k) eqn:E; simpl; rewrite E; [reflexivity|].
  rewrite IH. reflexivity.
Qed.






(** *** Inserting the same path again *)





(** *** Rendering order *)

Lemma ltb_asym (a b : string) : String.ltb a b = true -> String.ltb b a = false.
Proof.
  unfold String.ltb. rewrite (String.compare_antisym b a).
  destruct (String.compare a b); simpl; congruence.
Qed.

Lemma not_ltb_leb (a b : string) : String.ltb b a = false -> String.leb a b = true.
Proof.
  unfold String.ltb, String.leb. rewrite (String.compare_antisym a b).
  destruct (String.compare b a); simpl; congruence.
Qed.

Lemma leb_trans (a b c : string) :
  String.leb a b = true -> String.leb b c = true -> String.leb a c = true.
Proof.
  assert (Hle : forall x y, String.leb x y = true <->
                            OrderedTypeEx.String_as_OT.lt x y \/ x = y).
  { intros x y. unfold String.leb.
    pose proof (OrderedTypeEx.String_as_OT.cmp_lt x y) as Hlt.
    pose proof (OrderedTypeEx.String_as_OT.cmp_eq x y) as Heq.
    unfold OrderedTypeEx.String_as_OT.cmp in *.
    destruct (String.compare x y) eqn:E.
    - split; [intros _; right; apply Heq; reflexivity | reflexivity].
    - split; [intros _; left; apply Hlt; reflexivity | reflexivity].
    - split; [discriminate|].
      intros [H|H]; [apply Hlt in H | apply Heq in H]; discriminate. }
  rewrite !Hle. intros [H1| ->] [H2| ->]; auto.
  left. eapply OrderedTypeEx.String_as_OT.lt_trans; eauto.
Qed.


Lemma node_before_asym (a b : DirectoryNode) :
  node_before a b = true -> node_before b a = false.
Proof.
  unfold node_before.
  destruct (is_file a), (is_file b); simpl; try congruence; apply ltb_asym.
Qed.

Lemma insert_sorted_perm (x : DirectoryNode) (l : list DirectoryNode) :
  Permutation (insert_sorted x l) (x :: l).
Proof.
  induction l as [|y l IH]; simpl; [reflexivity|].
  destruct (node_before x y); [reflexivity|].
  rewrite IH. apply perm_swap.
Qed.

Lemma sort_nodes_perm (l : list DirectoryNode) : Permutation (sort_nodes l) l.
Proof.
  induction l as [|x l IH]; simpl; [reflexivity|].
  rewrite insert_sorted_perm. rewrite IH. reflexivity.
Qed.

Lemma insert_sorted_hd (R : DirectoryNode -> DirectoryNode -> Prop)
    (a x : DirectoryNode) (l : list DirectoryNode) :
  R a x -> HdRel R a l -> HdRel R a (insert_sorted x l).
Proof.
  intros Hx Hl. destruct l as [|y l]; simpl.
  - constructor. exact Hx.
  - destruct (node_before x y); constructor; [exact Hx|].
    inversion Hl; assumption.
Qed.

Lemma insert_sorted_sorted (x : DirectoryNode) (l : list DirectoryNode) :
  Sorted may_precede l -> Sorted may_precede (insert_sorted x l).
Proof.
  induction 1 as [|y l Hs IH Hhd]; simpl.
  - repeat constructor.
  - destruct (node_before x y) eqn:E.
    + constructor; [constructor; assumption|].
      constructor. apply node_before_asym. exact E.
    + constructor; [exact IH|].
      apply insert_sorted_hd; [exact E | exact Hhd].
Qed.

Lemma sort_nodes_sorted (l : list DirectoryNode) :
  Sorted may_precede (sort_nodes l).
Proof.
  induction l as [|x l IH]; simpl; [constructor|].
  apply insert_sorted_sorted. exact IH.
Qed.


(** *** [std::sort] has one possible result *)

Lemma ltb_trans (a b c : string) :
  String.ltb a b = true -> String.ltb b c = true -> String.ltb a c = true.
Proof.
  assert (Hlt : forall x y, String.ltb x y = true <->
                            OrderedTypeEx.String_as_OT.lt x y).
  { intros x y. unfold String.ltb.
    pose proof (OrderedTypeEx.String_as_OT.cmp_lt x y) as H.
    unfold OrderedTypeEx.String_as_OT.cmp in H.
    destruct (String.compare x y); split; intros E;
      try discriminate; try reflexivity; try (apply H; reflexivity);
      apply H in E; discriminate. }
  rewrite !Hlt. apply OrderedTypeEx.String_as_OT.lt_trans.
Qed.

Lemma ltb_irrefl (a : string) : String.ltb a a = false.
Proof.
  destruct (String.ltb a a) eqn:E; [|reflexivity].
  pose proof (ltb_asym a a E). congruence.
Qed.

Lemma leb_not_ltb (a b : string) : String.leb a b = true -> String.ltb b a = false.
Proof.
  unfold String.ltb, String.leb. rewrite (String.compare_antisym a b).
  destruct (String.compare b a); simpl; congruence.
Qed.

Lemma may_precede_trans : Transitive may_precede.
Proof.
  intros a b c. unfold may_precede, node_before.
  destruct (is_file a), (is_file b), (is_file c); simpl; try congruence;
    intros H1 H2; apply not_ltb_leb in H1; apply not_ltb_leb in H2;
    apply leb_not_ltb; eapply leb_trans; eassumption.
Qed.

(** Two nodes that may each precede the other have the same name. *)
Lemma may_precede_antisym (a b : DirectoryNode) :
  may_precede a b -> may_precede b a -> name a = name b.
Proof.
  unfold may_precede, node_before.
  destruct (is_file a), (is_file b); simpl; try congruence;
    intros H1 H2; apply not_ltb_leb in H1; apply not_ltb_leb in H2;
    apply String.leb_antisym; assumption.
Qed.

(** Whatever algorithm [std::sort] runs, children with distinct names have
    a single arrangement that is sorted by [node_before]. *)
Lemma sorted_arrangement_unique (l1 : list DirectoryNode) :
  forall l2 : list DirectoryNode,
    NoDup (map name l1) ->
    Permutation l1 l2 ->
    Sorted may_precede l1 -> Sorted may_precede l2 ->
    l1 = l2.
Proof.
  induction l1 as [|a t1 IH]; intros l2 Hnd Hperm S1 S2.
  - apply Permutation_nil in Hperm. congruence.
  - destruct l2 as [|b t2];
      [symmetry in Hperm; apply Permutation_nil in Hperm; discriminate|].
    apply Sorted_StronglySorted in S1; [|exact may_precede_trans].
    apply Sorted_StronglySorted in S2; [|exact may_precede_trans].
    inversion S1 as [|? ? S1' H1]; subst.
    inversion S2 as [|? ? S2' H2]; subst.
    inversion Hnd as [|? ? Hnotin Hnd']; subst.
    assert (Hab : a = b).
    { assert (Hb : In b (a :: t1))
        by (eapply Permutation_in; [symmetry; exact Hperm | left; reflexivity]).
      assert (Ha : In a (b :: t2))
        by (eapply Permutation_in; [exact Hperm | left; reflexivity]).
      destruct Hb as [E|Hb]; [exact E|].
      destruct Ha as [E|Ha]; [symmetry; exact E|].
      exfalso. apply Hnotin.
      rewrite List.Forall_forall in H1, H2.
      rewrite (may_precede_antisym a b (H1 b Hb) (H2 a Ha)).
      apply list_elem_of_In, in_map. exact Hb. }
    subst b. f_equal.
    apply IH; auto using StronglySorted_Sorted.
    eapply Permutation_cons_inv. exact Hperm.
Qed.

(** *** The child maps stay well formed *)

Lemma well_formed_unfold (node : DirectoryNode) :
  well_formed node
  <-> keys_ascending (children node)
      /\ Forall (fun kc => name (snd kc) = fst kc /\ well_formed (snd kc))
           (children node).
Proof.
  destruct node as [n p f sq ti tn cs]. cbn [well_formed children].
  assert (H : forall l : list (string * DirectoryNode),
    (fix all (l : list (string * DirectoryNode)) : Prop :=
       match l with
       | [] => True
       | (k, c) :: l' => name c = k /\ well_formed c /\ all l'
       end) l
    <-> Forall (fun kc => name (snd kc) = fst kc /\ well_formed (snd kc)) l).
  { induction l as [|[k c] l IH].
    - split; [constructor | trivial].
    - rewrite List.Forall_cons_iff, <- IH. cbn [fst snd]. tauto. }
  rewrite H. reflexivity.
Qed.

Lemma map_fst_replace (key : string) (v : DirectoryNode)
    (m : list (string * DirectoryNode)) :
  map fst (map_replace key v m) = map fst m.
Proof.
  induction m as [|[k x] m IH]; simpl; [reflexivity|].
  destruct (String.eqb key k); simpl; [reflexivity|]. rewrite IH. reflexivity.
Qed.

Lemma map_find_In (key : string) (c : DirectoryNode)
    (m : list (string * DirectoryNode)) :
  map_find key m = Some c -> In (key, c) m.
Proof.
  induction m as [|[k x] m IH]; simpl; [discriminate|].
  destruct (String.eqb_spec key k) as [->|_].
  - intros [= ->]. left. reflexivity.
  - intros H. right. apply IH. exact H.
Qed.

Lemma map_find_None_not_key (key : string)
    (m : list (string * DirectoryNode)) :
  map_find key m = None -> ~ In key (map fst m).
Proof.
  induction m as [|[k x] m IH]; simpl; [tauto|].
  destruct (String.eqb_spec key k) as [->|Hne]; [discriminate|].
  intros H [E|Hin]; [congruence | exact (IH H Hin)].
Qed.

Lemma map_replace_Forall (P : string * DirectoryNode -> Prop) (key : string)
    (v : DirectoryNode) (m : list (string * DirectoryNode)) :
  Forall P m -> P (key, v) -> Forall P (map_replace key v m).
Proof.
  intros Hm Hv. induction Hm as [|[k x] m Hx Hm IH]; simpl; [constructor|].
  destruct (String.eqb_spec key k) as [->|_]; constructor; auto.
Qed.

Lemma map_add_Forall (P : string * DirectoryNode -> Prop) (key : string)
    (v : DirectoryNode) (m : list (string * DirectoryNode)) :
  Forall P m -> P (key, v) -> Forall P (map_add key v m).
Proof.
  intros Hm Hv. induction Hm as [|[k x] m Hx Hm IH]; simpl.
  - constructor; [exact Hv | constructor].
  - destruct (String.ltb key k); repeat constructor; auto.
Qed.

Lemma map_add_keys_Forall (Q : string -> Prop) (key : string)
    (v : DirectoryNode) (m : list (string * DirectoryNode)) :
  Forall Q (map fst m) -> Q key -> Forall Q (map fst (map_add key v m)).
Proof.
  intros Hm Hkey. induction m as [|[k x] m IH]; simpl in *.
  - repeat constructor. exact Hkey.
  - inversion Hm; subst.
    destruct (String.ltb key k); simpl; repeat constructor; auto.
Qed.

Lemma map_add_keys_ascending (key : string) (v : DirectoryNode)
    (m : list (string * DirectoryNode)) :
  keys_ascending m -> ~ In key (map fst m) -> keys_ascending (map_add key v m).
Proof.
  unfold keys_ascending. intros Hm Hnew.
  induction m as [|[k x] m IH]; simpl in *.
  - repeat constructor.
  - inversion Hm as [|? ? Hm' Hk]; subst.
    destruct (String.ltb key k) eqn:Hlt; simpl.
    + constructor; [exact Hm|]. constructor; [exact Hlt|].
      eapply Forall_impl; [exact Hk|].
      intros k' Hk'. cbn beta in Hk'. eapply ltb_trans; eassumption.
    + constructor; [apply IH; [exact Hm' | tauto]|].
      apply map_add_keys_Forall; [exact Hk|].
      unfold String.ltb in *. rewrite (String.compare_antisym k key).
      destruct (String.compare key k) eqn:E; simpl; try congruence.
      apply String.compare_eq_iff in E. subst. tauto.
Qed.

Lemma insert_components_name (components : list string) :
  forall (current_path : string) (sequence tid : Z) (tname : string)
         (node : DirectoryNode),
    name (insert_components components current_path sequence tid tname node)
    = name node.
Proof.
  destruct components as [|c rest]; intros; [reflexivity|].
  cbn [insert_components].
  destruct (map_find c (children node)); destruct node; reflexivity.
Qed.

(** Insertion keeps every child map sorted by key and every child under
    its own name. *)
Lemma insert_components_well_formed (components : list string) :
  forall (current_path : string) (sequence tid : Z) (tname : string)
         (node : DirectoryNode),
    well_formed node ->
    well_formed
      (insert_components components current_path sequence tid tname node).
Proof.
  induction components as [|c rest IH];
    intros current_path sequence tid tname node Hwf; [exact Hwf|].
  cbn [insert_components].
  apply well_formed_unfold in Hwf. destruct Hwf as [Hkeys Hall].
  assert (Htouch : forall n : DirectoryNode,
            well_formed n ->
            well_formed (if match rest with [] => true | _ => false end
                         then touch sequence tid tname n else n)).
  { intros n Hn. destruct rest; [|exact Hn].
    apply well_formed_unfold. apply well_formed_unfold in Hn. exact Hn. }
  assert (Hname : forall n : DirectoryNode,
            name (if match rest with [] => true | _ => false end
                  then touch sequence tid tname n else n) = name n).
  { intros n. destruct rest; reflexivity. }
  destruct (map_find c (children node)) as [child|] eqn:Hfind.
  - apply map_find_In in Hfind as Hin.
    rewrite List.Forall_forall in Hall. destruct (Hall _ Hin) as [Hn Hc].
    rewrite <- List.Forall_forall in Hall.
    apply well_formed_unfold. destruct node as [n p f sq ti tn cs].
    cbn [with_children children] in *. split.
    + unfold keys_ascending. rewrite map_fst_replace. exact Hkeys.
    + apply map_replace_Forall; [exact Hall|]. cbn [fst snd]. split.
      * rewrite insert_components_name, Hname. exact Hn.
      * apply IH. apply Htouch. exact Hc.
  - apply well_formed_unfold. destruct node as [n p f sq ti tn cs].
    cbn [with_children children] in *. split.
    + apply map_add_keys_ascending; [exact Hkeys|].
      apply map_find_None_not_key. exact Hfind.
    + apply map_add_Forall; [exact Hall|]. cbn [fst snd]. split.
      * rewrite insert_components_name, Hname. reflexivity.
      * apply IH. apply Htouch. apply well_formed_unfold. cbn [children new_node].
        split; constructor.
Qed.

(** X27. [insert_file] keeps the tree well formed: in every child map the
    keys stay strictly ascending and every child stays filed under its own
    name.  Every tree built from the empty tree by insertions is therefore
    well formed. *)
Lemma insert_file_well_formed (env : FsEnv) (path : string) (sequence tid : Z)
    (tname : string) (root : DirectoryNode) :
  well_formed root -> well_formed (insert_file env path sequence tid tname root).
Proof. apply insert_components_well_formed. Qed.

Lemma empty_tree_well_formed : well_formed empty_tree.
Proof. split; constructor. Qed.

Lemma keys_ascending_NoDup (ks : list string) :
  StronglySorted (fun a b => String.ltb a b = true) ks -> NoDup ks.
Proof.
  induction 1 as [|k ks Hs IH Hk]; constructor; [|exact IH].
  intros Hin. apply list_elem_of_In in Hin.
  rewrite List.Forall_forall in Hk. specialize (Hk k Hin).
  rewrite ltb_irrefl in Hk. discriminate.
Qed.

(** In a well-formed tree the children of a node have distinct names. *)
Lemma well_formed_distinct_names (node : DirectoryNode) :
  well_formed node -> NoDup (map name (map snd (children node))).
Proof.
  intros Hwf. apply well_formed_unfold in Hwf. destruct Hwf as [Hkeys Hall].
  apply keys_ascending_NoDup in Hkeys.
  assert (E : map name (map snd (children node)) = map fst (children node)).
  { clear Hkeys. induction Hall as [|[k c] l [Hn _] _ IH]; simpl in *;
      [reflexivity|]. rewrite Hn, IH. reflexivity. }
  rewrite E. exact Hkeys.
Qed.

(** In a well-formed tree the order in which the children of a node are
    rendered does not depend on how [std::sort] arranges its input: every
    arrangement of the children sorted by [node_before] is
    [sorted_children]. *)
Lemma sorted_children_unique (node : DirectoryNode)
    (arrangement : list DirectoryNode) :
  well_formed node ->
  Permutation (map snd (children node)) arrangement ->
  Sorted may_precede arrangement ->
  arrangement = sorted_children node.
Proof.
  intros Hwf Hperm Hsorted. symmetry.
  apply sorted_arrangement_unique.
  - unfold sorted_children. rewrite sort_nodes_perm.
    apply well_formed_distinct_names. exact Hwf.
  - etrans; [apply sort_nodes_perm | exact Hperm].
  - apply sort_nodes_sorted.
  - exact Hsorted.
Qed.

(** *** The recursion of the renderer *)

Lemma height_child (node child : DirectoryNode) :
  In child (map snd (children node)) -> (height child < height node)%nat.
Proof.
  destruct node as [n p f sq ti tn cs]. cbn [children].
  cbn [height]. induction cs as [|[k c] cs IH]; simpl; [tauto|].
  intros [<-|Hin]; [lia|]. specialize (IH Hin). simpl in IH. lia.
Qed.

Lemma height_sorted_child (node child : DirectoryNode) :
  In child (sorted_children node) -> (height child < height node)%nat.
Proof.
  intros Hin. apply height_child.
  eapply Permutation_in; [apply sort_nodes_perm | exact Hin].
Qed.

Lemma height_pos (node : DirectoryNode) : (0 < height node)%nat.
Proof. destruct node. cbn [height]. lia. Qed.

(** Any fuel that covers the height gives the same output. *)
Lemma generate_html_node_fuel_irrelevant (fuel1 : nat) :
  forall (fuel2 : nat) (node : DirectoryNode) (depth : Z),
    (height node <= fuel1)%nat -> (height node <= fuel2)%nat ->
    generate_html_node_fuel fuel1 node depth
    = generate_html_node_fuel fuel2 node depth.
Proof.
  induction fuel1 as [|fuel1 IH]; intros fuel2 node depth H1 H2.
  - pose proof (height_pos node). lia.
  - destruct fuel2 as [|fuel2]; [pose proof (height_pos node); lia|].
    cbn [generate_html_node_fuel].
    destruct (children node) as [|kc cs] eqn:Hcs; [reflexivity|].
    rewrite (map_ext_in
               (fun child => generate_html_node_fuel fuel1 child (depth + 2))
               (fun child => generate_html_node_fuel fuel2 child (depth + 2)));
      [reflexivity|].
    intros child Hin.
    pose proof (height_sorted_child node child Hin).
    apply IH; lia.
Qed.

(** [generate_html_node] satisfies the recursive equation of the source. *)
Lemma generate_html_node_unfold (node : DirectoryNode) (depth : Z) :
  generate_html_node node depth
  = (let indent := spaces (Z.to_nat (depth * 2)) in
     node_head node indent
     +:+ (match children node with
          | [] => ""
          | _ :: _ =>
              indent +:+ "  <div class='children'>" +:+ nl
              +:+ concat_strings
                    (map (fun child => generate_html_node child (depth + 2))
                       (sorted_children node))
              +:+ indent +:+ "  </div>" +:+ nl
          end)
     +:+ indent +:+ "</div>" +:+ nl)%string.
Proof.
  unfold generate_html_node.
  destruct (height node) as [|h] eqn:Hh; [pose proof (height_pos node); lia|].
  cbn [generate_html_node_fuel]. cbv zeta.
  destruct (children node) as [|kc cs] eqn:Hcs; [reflexivity|].
  rewrite (map_ext_in
             (fun child => generate_html_node_fuel h child (depth + 2))
             (fun child => generate_html_node_fuel (height child) child (depth + 2)));
    [reflexivity|].
  intros child Hin.
  pose proof (height_sorted_child node child Hin).
  apply generate_html_node_fuel_irrelevant; lia.
Qed.

(** Scenario "two siblings": "/tmp/b.txt" is inserted before
    "/tmp/a.txt"; under "/tmp" the file a.txt (sequence 2) is rendered
    before b.txt (sequence 1). *)
Example two_siblings_order :
  let tree := insert_file Samples.plain_env "/tmp/a.txt" 2 100 "p"
                (insert_file Samples.plain_env "/tmp/b.txt" 1 100 "p"
                   empty_tree) in
  map (fun tmp => map (fun c => (name c, sequence_number c))
                    (sorted_children tmp))
    (sorted_children tree)
  = [[("a.txt", 2); ("b.txt", 1)]]%string.
Proof. vm_compute. reflexivity. Qed.

(** Scenario "mixed directories and files": under "/root" the directory
    "a" is rendered before the file "z.log". *)
Example directory_before_file :
  let tree := insert_file Samples.plain_env "/root/a/b.log" 2 50 "t"
                (insert_file Samples.plain_env "/root/z.log" 1 50 "t"
                   empty_tree) in
  map (fun root => map (fun c => (name c, is_file c)) (sorted_children root))
    (sorted_children tree)
  = [[("a", false); ("z.log", true)]]%string.
Proof. vm_compute. reflexivity. Qed.


End TreeFacts.

(** ** The supervisor *)

Module SupervisorFacts.
Import Registry Supervisor.

Lemma to_int_small (x : Z) : - 2 ^ 31 <= x < 2 ^ 31 -> to_int x = x.
Proof. intros H. unfold to_int. rewrite Z.mod_small; lia. Qed.

(** *** What one classification does to the event log *)

Lemma handle_file_syscall_log (env : FsEnv) (flag : bool) (base : string)
    (pid : Z) (regs : Regs) (m : thread_map_t) (ops : list FileOperation) :
  let ops' := snd (handle_file_syscall env flag base pid regs m ops) in
  let p := classified_path env pid regs in
  (ops' = ops
   \/ exists op : FileOperation,
        ops' = ops ++ [op]
        /\ path op = p
        /\ sequence op = to_int (Z.of_nat (length ops) + 1)
        /\ orig_rax regs <> SYS_execve
        /\ is_Some (stat env p)
        /\ (string_empty base = false ->
            path_utils.is_within_directory env flag p base = true))
  /\ (stat env p = None -> ops' = ops)
  /\ (flag = false -> string_empty base = false ->
      path_utils.is_within_directory env flag p base = false -> ops' = ops)
  /\ (orig_rax regs = SYS_execve -> ops' = ops).
Proof.
  unfold handle_file_syscall, classified_path.
  set (filepath := extract_filepath env pid regs).
  set (p := path_utils.normalize_path env filepath).
  destruct (string_empty filepath) eqn:Hempty; cbn [snd].
  { repeat split; auto. }
  destruct (negb flag && negb (string_empty base)
            && negb (path_utils.is_within_directory env flag p base)) eqn:Hfilter;
    cbn [snd].
  { repeat split; auto. }
  assert (Hpass : string_empty base = false ->
                  path_utils.is_within_directory env flag p base = true).
  { intros Hb. rewrite Hb in Hfilter. destruct flag; [reflexivity|].
    simpl in Hfilter. apply negb_false_iff in Hfilter. exact Hfilter. }
  destruct (Z.eqb_spec (orig_rax regs) SYS_execve) as [Hexec|Hexec]; cbn [snd].
  { repeat split; auto. }
  destruct (stat env p) as [kind|] eqn:Hstat; cbn [snd].
  - split; [|split; [|split]].
    + right. eexists. split; [reflexivity|]. cbn [path sequence].
      repeat split; eauto.
    + discriminate.
    + intros -> Hb Hout. rewrite (Hpass Hb) in Hout. discriminate.
    + intros E. contradiction.
  - repeat split; auto.
Qed.

Lemma handle_syscall_entry_ops (env : FsEnv) (k : CloneOracle) (flag : bool)
    (base : string) (pid : Z) (regs : Regs) (m : thread_map_t)
    (ops : list FileOperation) :
  snd (handle_syscall_entry env k flag base pid regs m ops) = ops
  \/ exists m' : thread_map_t,
       snd (handle_syscall_entry env k flag base pid regs m ops)
       = snd (handle_file_syscall env flag base pid regs m' ops).
Proof.
  unfold handle_syscall_entry.
  destruct (if is_creation_syscall regs then _ else _) as [m1|]; [|left; reflexivity].
  destruct (is_file_syscall regs); [right; eexists; reflexivity | left; reflexivity].
Qed.

(** C4 (as amended). An entry is appended only by an open or openat
    classification; its path is the normalized path, on which stat
    succeeded at that moment (the path exists; whether it is a file or a
    directory is not looked at), and which passes the base-directory filter
    whenever the base directory is not empty.  A classified event whose path
    does not exist, or fails the filter while filtering is enabled and the
    base directory is not empty, leaves the event log unchanged, as does
    every execve. *)
Theorem handle_syscall_entry_log :
  forall (env : FsEnv) (k : CloneOracle) (flag : bool) (base : string)
         (pid : Z) (regs : Regs) (m : thread_map_t) (ops : list FileOperation),
    let ops' := snd (handle_syscall_entry env k flag base pid regs m ops) in
    let p := classified_path env pid regs in
    (ops' = ops
     \/ exists op : FileOperation,
          ops' = ops ++ [op]
          /\ path op = p
          /\ (orig_rax regs = SYS_open \/ orig_rax regs = SYS_openat)
          /\ is_Some (stat env p)
          /\ (string_empty base = false ->
              path_utils.is_within_directory env flag p base = true))
    /\ (stat env p = None -> ops' = ops)
    /\ (flag = false -> string_empty base = false ->
        path_utils.is_within_directory env flag p base = false -> ops' = ops)
    /\ (orig_rax regs = SYS_execve -> ops' = ops).
Proof.
  intros env k flag base pid regs m ops ops' p. subst ops'.
  unfold handle_syscall_entry.
  destruct (if is_creation_syscall regs then _ else _) as [m1|];
    [|cbn [snd]; repeat split; auto].
  destruct (is_file_syscall regs) eqn:Hfile; [|cbn [snd]; repeat split; auto].
  match goal with
  | |- context [handle_file_syscall env flag base pid regs ?m2 ops] =>
      pose proof (handle_file_syscall_log env flag base pid regs m2 ops) as H
  end.
  cbv zeta in H. fold p in H. destruct H as (Hshape & Hstat & Hfilter & Hexec).
  repeat split; auto.
  destruct Hshape as [E | (op & E & Hp & _ & Hne & Hs & Hw)]; [left; exact E|].
  right. exists op. repeat split; auto.
  unfold is_file_syscall in Hfile.
  destruct (Z.eqb_spec (orig_rax regs) SYS_open) as [?|?]; [left; assumption|].
  destruct (Z.eqb_spec (orig_rax regs) SYS_openat) as [?|?]; [right; assumption|].
  destruct (Z.eqb_spec (orig_rax regs) SYS_execve) as [?|?];
    [contradiction | discriminate].
Qed.

(** C4 (counterexample). The tracee opens "/tmp", an existing directory
    inside the base directory "/tmp": the event is appended to the log,
    with the path of a directory. *)
Lemma directory_open_is_recorded :
  let env := Samples.env_tmp in
  let ops' := snd (handle_syscall_entry env
                     (clone_oracle (Samples.clean_oracle env Samples.regs_open None None))
                     false "/tmp" 100 Samples.regs_open
                     (thread_map (initial_state env Samples.sample_cfg)) []) in
  map path ops' = ["/tmp"%string]
  /\ path_utils.is_within_directory env false "/tmp" "/tmp" = true
  /\ stat env "/tmp" = Some Directory
  /\ ~ (forall op, In op ops' -> stat env (path op) = Some RegularFile).
Proof.
  intros env ops'.
  assert (E : map path ops' = ["/tmp"%string]) by (vm_compute; reflexivity).
  split; [exact E|]. split; [vm_compute; reflexivity|].
  split; [reflexivity|].
  intros H. destruct ops' as [|op rest]; [discriminate|].
  specialize (H op (or_introl eq_refl)).
  injection E as Hp _. rewrite Hp in H. vm_compute in H. discriminate.
Qed.

(** Scenario "non-existent file": the tracee opens "/tmp/zz", which does
    not exist; the event log is unchanged. *)
Example nonexistent_file_dropped :
  let env := Samples.sample_env (Some Samples.word_tmp_zz) None in
  Reader.read_process_string env 100 4096 = "/tmp/zz"%string
  /\ snd (handle_syscall_entry env
            (clone_oracle (Samples.clean_oracle env Samples.regs_open None None))
            false "/tmp" 100 Samples.regs_open
            (thread_map (initial_state env Samples.sample_cfg)) [])
     = [].
Proof. vm_compute. split; reflexivity. Qed.

(** *** One iteration of the loop *)

(** What the handling of a stop does to the flip-flop, to the record of
    classifier calls and to the event log. *)
Lemma handle_syscall_stop_effect (cfg : Config) (k : StopOracle)
    (waited_pid : Z) (st : State) :
  let st' := handle_syscall_stop cfg k waited_pid st in
  if syscall_stop_reaches_toggle cfg k waited_pid st then
    in_syscall st' = negb (in_syscall st)
    /\ classified st'
       = classified st ++ (if in_syscall st then [] else [waited_pid])
    /\ (operations st' = operations st
        \/ exists (regs : Regs) (m : thread_map_t),
             operations st'
             = snd (handle_syscall_entry (fs k) (clone_oracle k)
                      (disable_directory_filtering cfg) (base_dir cfg)
                      waited_pid regs m (operations st)))
  else
    in_syscall st' = in_syscall st
    /\ classified st' = classified st
    /\ operations st' = operations st.
Proof.
  unfold handle_syscall_stop, syscall_stop_reaches_toggle.
  set (m0 := match thread_map st !! waited_pid with
             | Some _ => thread_map st
             | None => _
             end).
  destruct (negb (is_active m0 waited_pid)); [repeat split|].
  assert (Hregs :
    let st' :=
      match getregs_retry k 5 0 waited_pid m0 with
      | (None, m1) => with_map st (handle_thread_exit waited_pid (-1) m1)
      | (Some regs, m1) =>
          let '(m2, ops, calls) :=
            if negb (in_syscall st) then
              let '(m, ops) :=
                handle_syscall_entry (fs k) (clone_oracle k)
                  (disable_directory_filtering cfg) (base_dir cfg)
                  waited_pid regs m1 (operations st) in
              (m, ops, classified st ++ [waited_pid])
            else (m1, operations st, classified st) in
          let st2 m :=
            {| thread_map := m; operations := ops;
               in_syscall := negb (in_syscall st); classified := calls |} in
          match kill_after_entry k with
          | KillESRCH => st2 (handle_thread_exit waited_pid (-1) m2)
          | _ =>
              match resume_retry k 3 0 waited_pid m2 with
              | (true, m3) => st2 m3
              | (false, m3) => st2 (handle_thread_exit waited_pid (-1) m3)
              end
          end
      end in
    if match getregs_retry k 5 0 waited_pid m0 with
       | (Some _, _) => true
       | (None, _) => false
       end
    then
      in_syscall st' = negb (in_syscall st)
      /\ classified st'
         = classified st ++ (if in_syscall st then [] else [waited_pid])
      /\ (operations st' = operations st
          \/ exists (regs : Regs) (m : thread_map_t),
               operations st'
               = snd (handle_syscall_entry (fs k) (clone_oracle k)
                        (disable_directory_filtering cfg) (base_dir cfg)
                        waited_pid regs m (operations st)))
    else
      in_syscall st' = in_syscall st
      /\ classified st' = classified st
      /\ operations st' = operations st).
  { destruct (getregs_retry k 5 0 waited_pid m0) as [[regs|] m1];
      [|repeat split].
    destruct (in_syscall st) eqn:Hin; cbn [negb].
    - destruct (kill_after_entry k);
        try destruct (resume_retry k 3 0 waited_pid m1) as [[|] m3];
        cbn [in_syscall classified operations];
        rewrite ?app_nil_r; repeat split; auto.
    - destruct (handle_syscall_entry (fs k) (clone_oracle k)
                  (disable_directory_filtering cfg) (base_dir cfg)
                  waited_pid regs m1 (operations st)) as [m2 ops] eqn:Hentry.
      assert (Hops : ops = snd (handle_syscall_entry (fs k) (clone_oracle k)
                  (disable_directory_filtering cfg) (base_dir cfg)
                  waited_pid regs m1 (operations st)))
        by (rewrite Hentry; reflexivity).
      destruct (kill_after_entry k);
        try destruct (resume_retry k 3 0 waited_pid m2) as [[|] m3];
        cbn [in_syscall classified operations];
        repeat split; auto; right; exists regs, m1; exact Hops. }
  destruct (kill_before_regs k); try exact Hregs. repeat split.
Qed.

(** In every iteration the flip-flop, the record of classifier calls and
    the event log change only when the toggle is reached. *)
Lemma step_effect (cfg : Config) (st : State) (r : Report) :
  let st' := fst (step cfg st r) in
  match reaches_toggle cfg st r with
  | Some tid =>
      in_syscall st' = negb (in_syscall st)
      /\ classified st' = classified st ++ (if in_syscall st then [] else [tid])
      /\ (operations st' = operations st
          \/ exists (env : FsEnv) (k : CloneOracle) (regs : Regs)
                    (m : thread_map_t),
               operations st'
               = snd (handle_syscall_entry env k
                        (disable_directory_filtering cfg) (base_dir cfg)
                        tid regs m (operations st)))
  | None =>
      in_syscall st' = in_syscall st
      /\ classified st' = classified st
      /\ operations st' = operations st
  end.
Proof.
  destruct r as [env probe| |waited_pid status k]; cbn [step reaches_toggle fst];
    try (repeat split; reflexivity).
  destruct (WIFEXITED status || WIFSIGNALED status); cbn [fst].
  { unfold handle_exit_report.
    destruct (waited_pid =? child cfg); repeat split. }
  destruct (WIFSTOPPED status); cbn [fst]; [|repeat split].
  destruct (is_event status PTRACE_EVENT_FORK
            || is_event status PTRACE_EVENT_VFORK
            || is_event status PTRACE_EVENT_CLONE); cbn [fst].
  { unfold handle_event_stop. destruct (eventmsg k); repeat split. }
  pose proof (handle_syscall_stop_effect cfg k waited_pid st) as H.
  cbv zeta in H.
  destruct (syscall_stop_reaches_toggle cfg k waited_pid st); [|exact H].
  destruct H as (Hin & Hcl & [Hops | (regs & m & Hops)]).
  - repeat split; auto.
  - split; [exact Hin|]. split; [exact Hcl|].
    right. exists (fs k), (clone_oracle k), regs, m. exact Hops.
Qed.

(** *** The flip-flop over a run *)

Lemma run_classified (cfg : Config) (reports : list Report) :
  forall st : State,
    classified (run cfg st reports)
    = classified st
      ++ shared_entries (in_syscall st) (toggling_stops cfg st reports).
Proof.
  induction reports as [|r rest IH]; intros st; cbn [run toggling_stops].
  - cbn [shared_entries]. rewrite app_nil_r. reflexivity.
  - pose proof (step_effect cfg st r) as H. cbv zeta in H.
    destruct (step cfg st r) as [st' stop]. cbn [fst] in H.
    destruct (reaches_toggle cfg st r) as [tid|].
    + destruct H as (Hin & Hcl & _). cbn [app shared_entries].
      destruct stop.
      * rewrite Hcl. cbn [shared_entries]. rewrite app_nil_r. reflexivity.
      * rewrite IH, Hcl, Hin, <- app_assoc. reflexivity.
    + destruct H as (Hin & Hcl & _). cbn [app].
      destruct stop.
      * rewrite Hcl. cbn [shared_entries]. rewrite app_nil_r. reflexivity.
      * rewrite IH, Hcl, Hin. reflexivity.
Qed.

(** When every stop comes from the same tracee, the shared flip-flop and
    that tracee's own flip-flop agree. *)
Lemma shared_is_per_tracee_for_one (tid : Z) (stops : list Z) :
  Forall (eq tid) stops ->
  forall (flags : gmap Z bool) (b : bool),
    default false (flags !! tid) = b ->
    shared_entries b stops = spec_per_tracee_entries flags stops.
Proof.
  induction 1 as [|t stops <- _ IH]; intros flags b Hb; [reflexivity|].
  cbn [shared_entries spec_per_tracee_entries]. rewrite Hb. f_equal.
  apply IH. rewrite lookup_insert_eq. reflexivity.
Qed.

(** The classifier over a whole run.  The supervisor has one
    [in_syscall] flip-flop, shared by all tracees.  The stops that reach the
    toggle are all stops that are not fork, vfork or clone events and whose
    registers could be read: system-call stops, and equally exec and exit
    event stops and signal stops, which the loop does not tell apart.  The
    classifier is called exactly for those of them at which the shared flag
    is found false: every other one in the order the supervisor observes
    them, whichever tracee stopped.  If all of them come from one tracee,
    these are the calls a flip-flop of that tracee alone would give over
    the same stops. *)
Theorem classifier_follows_shared_flip_flop :
  forall (env : FsEnv) (cfg : Config) (reports : list Report),
    let st0 := initial_state env cfg in
    classified (run cfg st0 reports)
    = shared_entries false (toggling_stops cfg st0 reports)
    /\ (forall tid : Z,
          Forall (eq tid) (toggling_stops cfg st0 reports) ->
          classified (run cfg st0 reports)
          = spec_per_tracee_entries ∅ (toggling_stops cfg st0 reports)).
Proof.
  intros env cfg reports st0.
  assert (E : classified (run cfg st0 reports)
              = shared_entries false (toggling_stops cfg st0 reports)).
  { rewrite run_classified. reflexivity. }
  split; [exact E|].
  intros tid Hone. rewrite E.
  apply (shared_is_per_tracee_for_one tid); [exact Hone|].
  rewrite lookup_empty. reflexivity.
Qed.

(** C3 (the code at the failing input). Tracee 100 stops at the entry of a
    system call, then tracee 101 stops at the entry of one: both stops
    reach the toggle, both are entry halves of their own tracee, so with a
    flip-flop per tracee the classifier is called for both.  The code calls
    it for 100 only: the stop of 101 finds the one shared flag already set
    by 100. *)
Lemma second_tracee_entry_not_classified :
  let st0 := initial_state Samples.plain_env Samples.sample_cfg in
  let reports :=
    [Samples.syscall_stop 100 Samples.plain_env Samples.regs_getpid;
     Samples.syscall_stop 101 Samples.plain_env Samples.regs_getpid] in
  toggling_stops Samples.sample_cfg st0 reports = [100; 101]
  /\ spec_per_tracee_entries ∅ [100; 101] = [100; 101]
  /\ classified (run Samples.sample_cfg st0 reports) = [100]
  /\ classified (run Samples.sample_cfg st0 reports)
     <> spec_per_tracee_entries ∅ (toggling_stops Samples.sample_cfg st0 reports).
Proof.
  intros st0 reports.
  assert (Ht : toggling_stops Samples.sample_cfg st0 reports = [100; 101])
    by (vm_compute; reflexivity).
  assert (Hs : spec_per_tracee_entries ∅ [100; 101] = [100; 101])
    by (vm_compute; reflexivity).
  assert (Hc : classified (run Samples.sample_cfg st0 reports) = [100])
    by (vm_compute; reflexivity).
  split; [exact Ht|]. split; [exact Hs|]. split; [exact Hc|].
  rewrite Ht, Hs, Hc. discriminate.
Qed.

(** What the shared flag costs.  Tracee 100 enters getpid, tracee 101
    enters open("/tmp/a.txt"), then both leave their system calls.  The
    classifier is called at the entry and at the exit stop of 100 and at no
    stop of 101, and the open never reaches the event log; the same two
    stops of 101 alone are logged. *)
Example interleaved_open_never_logged :
  let st0 := initial_state Samples.plain_env Samples.sample_cfg in
  let stop100 := Samples.syscall_stop 100 Samples.plain_env Samples.regs_getpid in
  let stop101 := Samples.syscall_stop 101 Samples.env_a_txt Samples.regs_open in
  let reports := [stop100; stop101; stop100; stop101] in
  toggling_stops Samples.sample_cfg st0 reports = [100; 101; 100; 101]
  /\ spec_per_tracee_entries ∅ [100; 101; 100; 101] = [100; 101]
  /\ classified (run Samples.sample_cfg st0 reports) = [100; 100]
  /\ operations (run Samples.sample_cfg st0 reports) = []
  /\ map path (operations (run Samples.sample_cfg st0 [stop101; stop101]))
     = ["/tmp/a.txt"%string].
Proof. vm_compute. repeat split; reflexivity. Qed.

(** An exec event stop is not a system-call stop, yet it reaches the toggle
    like one: after the entry and the exit stop of a system call of tracee
    100, the classifier is called at the exec event stop of 100, and the
    flag is left set for the entry stop that follows. *)
Example exec_event_stop_toggles :
  let st0 := initial_state Samples.plain_env Samples.sample_cfg in
  let stop100 := Samples.syscall_stop 100 Samples.plain_env Samples.regs_getpid in
  let event :=
    WaitStatus 100 Samples.status_exec_event
      (Samples.clean_oracle Samples.plain_env Samples.regs_getpid None None) in
  is_event Samples.status_exec_event PTRACE_EVENT_FORK
  || is_event Samples.status_exec_event PTRACE_EVENT_VFORK
  || is_event Samples.status_exec_event PTRACE_EVENT_CLONE = false
  /\ toggling_stops Samples.sample_cfg st0 [stop100; stop100; event]
     = [100; 100; 100]
  /\ classified (run Samples.sample_cfg st0 [stop100; stop100; event])
     = [100; 100]
  /\ in_syscall (run Samples.sample_cfg st0 [stop100; stop100; event]) = true.
Proof. vm_compute. repeat split; reflexivity. Qed.

(** *** Sequence numbers over a run *)

Lemma step_log (cfg : Config) (st : State) (r : Report) :
  operations (fst (step cfg st r)) = operations st
  \/ exists op : FileOperation,
       operations (fst (step cfg st r)) = operations st ++ [op]
       /\ sequence op = to_int (Z.of_nat (length (operations st)) + 1).
Proof.
  pose proof (step_effect cfg st r) as H. cbv zeta in H.
  destruct (reaches_toggle cfg st r) as [tid|].
  - destruct H as (_ & _ & [E | (env & k & regs & m & E)]); [left; exact E|].
    rewrite E.
    destruct (handle_syscall_entry_ops env k (disable_directory_filtering cfg)
                (base_dir cfg) tid regs m (operations st)) as [E'|[m' E']];
      [left; exact E'|].
    rewrite E'.
    destruct (handle_file_syscall_log env (disable_directory_filtering cfg)
                (base_dir cfg) tid regs m' (operations st))
      as ([E''|(op & E'' & _ & Hseq & _)] & _); [left; exact E''|].
    right. exists op. split; [exact E'' | exact Hseq].
  - destruct H as (_ & _ & E). left. exact E.
Qed.

Lemma numbered_snoc (ops : list FileOperation) (op : FileOperation) :
  numbered ops ->
  sequence op = to_int (Z.of_nat (length ops) + 1) ->
  numbered (ops ++ [op]).
Proof.
  intros Hn Hop i x Hi.
  destruct (decide (i < length ops)%nat) as [Hlt|Hge].
  - rewrite lookup_app_l in Hi by exact Hlt. apply Hn. exact Hi.
  - rewrite lookup_app_r in Hi by lia.
    destruct (i - length ops)%nat as [|j] eqn:Hj; [|destruct j; discriminate].
    injection Hi as <-. rewrite Hop.
    replace i with (length ops) by lia. reflexivity.
Qed.

Lemma run_log (cfg : Config) (reports : list Report) :
  forall st : State,
    operations st `prefix_of` operations (run cfg st reports)
    /\ (numbered (operations st) -> numbered (operations (run cfg st reports))).
Proof.
  induction reports as [|r rest IH]; intros st; cbn [run].
  - split; [reflexivity | auto].
  - pose proof (step_log cfg st r) as H.
    destruct (step cfg st r) as [st' stop]. cbn [fst] in H.
    assert (Hstep : operations st `prefix_of` operations st'
                    /\ (numbered (operations st) -> numbered (operations st'))).
    { destruct H as [E | (op & E & Hseq)]; rewrite E.
      - split; [reflexivity | auto].
      - split; [apply prefix_app_r; reflexivity|].
        intros Hn. apply numbered_snoc; assumption. }
    destruct stop; [exact Hstep|].
    destruct Hstep as [Hp Hn]. destruct (IH st') as [Hp' Hn'].
    split; [etrans; eassumption | auto].
Qed.

Lemma run_log_extends (cfg : Config) (earlier rest : list Report) :
  forall st : State,
    operations (run cfg st earlier)
    `prefix_of` operations (run cfg st (earlier ++ rest)).
Proof.
  induction earlier as [|r earlier IH]; intros st.
  - apply run_log.
  - cbn [run app]. destruct (step cfg st r) as [st' stop].
    destruct stop; [reflexivity | apply IH].
Qed.

Lemma numbered_counts (ops : list FileOperation) :
  numbered ops ->
  Z.of_nat (length ops) < 2 ^ 31 ->
  map sequence ops = map Z.of_nat (seq 1 (length ops)).
Proof.
  induction ops as [|op ops IH] using rev_ind; intros Hn Hlen; [reflexivity|].
  rewrite length_app in *. cbn [length] in *.
  rewrite Nat.add_1_r, seq_S, !map_app.
  rewrite IH.
  - cbn [map]. f_equal. f_equal.
    rewrite (Hn (length ops) op).
    + rewrite to_int_small by lia. lia.
    + rewrite lookup_app_r by lia. rewrite Nat.sub_diag. reflexivity.
  - intros i x Hi. apply Hn. rewrite lookup_app_l; [exact Hi|].
    apply lookup_lt_Some in Hi. exact Hi.
  - lia.
Qed.

(** C5. At every point of a trace the event log only grows at its end, and
    the sequence numbers of the log are exactly 1, 2, ..., N in the order
    in which the entries were appended ([sequence] is an [int]: the
    statement is for logs of fewer than 2^31 entries). *)
Theorem event_log_sequence_numbers :
  forall (env : FsEnv) (cfg : Config) (reports : list Report),
    let log := operations (run cfg (initial_state env cfg) reports) in
    Z.of_nat (length log) < 2 ^ 31 ->
    map sequence log = map Z.of_nat (seq 1 (length log))
    /\ (forall earlier rest : list Report,
          reports = earlier ++ rest ->
          operations (run cfg (initial_state env cfg) earlier) `prefix_of` log).
Proof.
  intros env cfg reports log Hlen. split.
  - apply numbered_counts; [|exact Hlen].
    apply run_log. intros i op Hi. discriminate.
  - intros earlier rest ->. apply run_log_extends.
Qed.

(** Tracee 100 opens "/tmp/a.txt" twice (entry, exit, entry stops): the
    log holds the numbers 1 and 2. *)
Lemma event_log_sequence_numbers_witness :
  let reports :=
    [Samples.syscall_stop 100 Samples.env_a_txt Samples.regs_open;
     Samples.syscall_stop 100 Samples.env_a_txt Samples.regs_open;
     Samples.syscall_stop 100 Samples.env_a_txt Samples.regs_open] in
  map sequence
    (operations (run Samples.sample_cfg
                   (initial_state Samples.plain_env Samples.sample_cfg) reports))
  = [1; 2].
Proof.
  intros reports.
  destruct (event_log_sequence_numbers Samples.plain_env Samples.sample_cfg reports)
    as [E _].
  - vm_compute. reflexivity.
  - rewrite E. vm_compute. reflexivity.
Defined.

(** *** Fork, vfork and clone events *)

(** In the event branch the kind comes from the event bits alone: a clone
    event always registers a thread. *)
Lemma clone_event_registers_thread (k : StopOracle) (waited_pid status : Z)
    (st : State) (new_pid : Z) :
  is_event status PTRACE_EVENT_CLONE = true ->
  eventmsg k = Some new_pid ->
  handle_event_stop k waited_pid status st
  = with_map st (handle_thread_creation (fs k) waited_pid (to_int new_pid) false
                   (thread_map st)).
Proof.
  intros Hclone Hmsg. unfold handle_event_stop. rewrite Hmsg.
  unfold is_event in *. apply Z.eqb_eq in Hclone. rewrite Hclone.
  reflexivity.
Qed.

(** C2 (the code at the failing input). Tracee 100 enters clone(CLONE_VM),
    without the thread-group-sharing flag; at that stop the classifier
    finds no new TID yet.  The clone event stop that follows delivers the
    new TID 101, and 101 is registered as a thread of 100, although the
    flag seen at syscall entry says process. *)
Theorem clone_event_without_flag_is_thread :
  let st0 := initial_state Samples.plain_env Samples.sample_cfg in
  let entry :=
    WaitStatus 100 Samples.status_syscall_stop
      (Samples.clean_oracle Samples.plain_env Samples.regs_clone_vm None
         (Some Samples.regs_clone_pending)) in
  let event :=
    WaitStatus 100 Samples.status_clone_event
      (Samples.clean_oracle Samples.plain_env Samples.regs_clone_vm (Some 101)
         None) in
  let st := run Samples.sample_cfg st0 [entry; event] in
  Z.land (rdi Samples.regs_clone_vm) CLONE_THREAD = 0
  /\ entry_is_process Samples.regs_clone_vm = true
  /\ classified st = [100]
  /\ is_event Samples.status_clone_event PTRACE_EVENT_CLONE = true
  /\ (process_type <$> thread_map st !! 101) = Some THREAD
  /\ (child_threads <$> thread_map st !! 100) = Some [101]
  /\ (child_processes <$> thread_map st !! 100) = Some [].
Proof. vm_compute. repeat split; reflexivity. Qed.

End SupervisorFacts.

(** ** The registry: further properties *)

Module RegistryExtra.
Import Registry RegistryRel.

(** *** Exits *)

Lemma exit_evolves_refl (status_of : Z -> Z) (m : thread_map_t) :
  exit_evolves status_of m m.
Proof. intros t. destruct (m !! t); auto. Qed.

Lemma exit_evolves_trans (status_of : Z -> Z) (a b c : thread_map_t) :
  exit_evolves status_of a b -> exit_evolves status_of b c ->
  exit_evolves status_of a c.
Proof.
  intros Hab Hbc t. specialize (Hab t). specialize (Hbc t).
  destruct (a !! t) as [info|].
  - destruct Hab as [Hb | [Hact Hb]]; rewrite Hb in Hbc.
    + exact Hbc.
    + right. split; [exact Hact|].
      destruct Hbc as [Hc | [Habs _]]; [exact Hc | discriminate].
  - rewrite Hab in Hbc. exact Hbc.
Qed.

Lemma exit_evolves_inactive (status_of : Z -> Z) (a b : thread_map_t) (t : Z) :
  exit_evolves status_of a b -> is_active a t = false -> b !! t = a !! t.
Proof.
  intros Hab Hin. specialize (Hab t). unfold is_active in Hin.
  destruct (a !! t) as [info|]; [|exact Hab].
  destruct Hab as [Hb | [Hact _]]; [exact Hb | congruence].
Qed.

Lemma exit_evolves_shrinks (status_of : Z -> Z) (a b : thread_map_t) (t : Z) :
  exit_evolves status_of a b -> is_active a t = false -> is_active b t = false.
Proof.
  intros Hab Hin. unfold is_active at 1.
  rewrite (exit_evolves_inactive status_of a b t Hab Hin). exact Hin.
Qed.

Lemma exit_evolves_weaken (st st' : Z -> Z) (a b : thread_map_t) :
  (forall t, is_active a t = true -> st t = st' t) ->
  exit_evolves st a b -> exit_evolves st' a b.
Proof.
  intros Hst Hab t. specialize (Hab t). specialize (Hst t).
  unfold is_active in Hst.
  destruct (a !! t) as [info|]; [|exact Hab].
  destruct Hab as [Hb | [Hact Hb]]; [left; exact Hb|].
  right. split; [exact Hact|]. rewrite <- (Hst Hact). exact Hb.
Qed.

Lemma mark_exited_evolves (m : thread_map_t) (tid status : Z) (info : ThreadInfo) :
  m !! tid = Some info -> active info = true ->
  exit_evolves (status_at tid status) m (<[tid := mark_exited status info]> m).
Proof.
  intros Hlook Hact t. destruct (decide (t = tid)) as [->|Hne].
  - rewrite Hlook, lookup_insert_eq. right. split; [exact Hact|].
    unfold status_at. rewrite decide_True by reflexivity. reflexivity.
  - rewrite lookup_insert_ne by congruence. destruct (m !! t); auto.
Qed.

(** The loops over the children, for any property [Inv] of the registry
    that the nested calls keep. *)
Lemma exit_children_evolves (rec : Z -> thread_map_t -> thread_map_t)
    (Inv : thread_map_t -> Prop) (status_of : Z -> Z) (children : list Z) :
  (forall c acc, Inv acc ->
     exit_evolves status_of acc (rec c acc) /\ Inv (rec c acc)) ->
  forall m, Inv m ->
    exit_evolves status_of m (exit_children rec children m)
    /\ Inv (exit_children rec children m).
Proof.
  intros Hrec. unfold exit_children.
  induction children as [|c cs IH]; intros m Hm; cbn [foldl].
  - split; [apply exit_evolves_refl | exact Hm].
  - destruct (m !! c) as [ci|]; [|apply IH; exact Hm].
    destruct (active ci); [|apply IH; exact Hm].
    destruct (Hrec c m Hm) as [He Hi]. destruct (IH _ Hi) as [He' Hi'].
    split; [eapply exit_evolves_trans; eassumption | exact Hi'].
Qed.

Lemma status_at_other (tid status t : Z) : t <> tid -> status_at tid status t = -1.
Proof. intros H. unfold status_at. rewrite decide_False by exact H. reflexivity. Qed.

Lemma handle_thread_exit_fuel_evolves (fuel : nat) :
  forall (tid status : Z) (m : thread_map_t),
    exit_evolves (status_at tid status) m
      (handle_thread_exit_fuel fuel tid status m).
Proof.
  induction fuel as [|fuel IH]; intros tid status m;
    cbn [handle_thread_exit_fuel]; [apply exit_evolves_refl|].
  destruct (m !! tid) as [info|] eqn:Hlook; [|apply exit_evolves_refl].
  destruct (active info) eqn:Hact; cbn [negb]; [|apply exit_evolves_refl].
  set (m1 := <[tid := mark_exited status info]> m).
  assert (Hnested : forall c acc,
            is_active acc tid = false ->
            exit_evolves (status_at tid status) acc
              (handle_thread_exit_fuel fuel c (-1) acc)
            /\ is_active (handle_thread_exit_fuel fuel c (-1) acc) tid = false).
  { intros c acc Hacc.
    assert (He : exit_evolves (status_at tid status) acc
                   (handle_thread_exit_fuel fuel c (-1) acc)).
    { eapply exit_evolves_weaken; [|apply IH].
      intros t Ht. rewrite (status_at_other tid status t) by congruence.
      unfold status_at. destruct (decide (t = c)); reflexivity. }
    split; [exact He | eapply exit_evolves_shrinks; eassumption]. }
  assert (Hm1 : is_active m1 tid = false).
  { unfold is_active, m1. rewrite lookup_insert_eq. reflexivity. }
  destruct (exit_children_evolves _ (fun acc => is_active acc tid = false)
              (status_at tid status) (child_processes info) Hnested m1 Hm1)
    as [He1 Hi1].
  destruct (exit_children_evolves _ (fun acc => is_active acc tid = false)
              (status_at tid status) (child_threads info) Hnested _ Hi1)
    as [He2 _].
  eapply exit_evolves_trans; [apply mark_exited_evolves; eassumption|].
  eapply exit_evolves_trans; eassumption.
Qed.

Lemma handle_thread_exit_fuel_target (fuel : nat) (tid status : Z)
    (m : thread_map_t) :
  is_active (handle_thread_exit_fuel (S fuel) tid status m) tid = false.
Proof.
  cbn [handle_thread_exit_fuel]. unfold is_active at 1.
  destruct (m !! tid) as [info|] eqn:Hlook; [|rewrite Hlook; reflexivity].
  destruct (active info) eqn:Hact; cbn [negb]; [|rewrite Hlook; exact Hact].
  set (m1 := <[tid := mark_exited status info]> m).
  assert (Hnested : forall c acc,
            is_active acc tid = false ->
            exit_evolves (status_at c (-1)) acc
              (handle_thread_exit_fuel fuel c (-1) acc)
            /\ is_active (handle_thread_exit_fuel fuel c (-1) acc) tid = false).
  { intros c acc Hacc.
    pose proof (handle_thread_exit_fuel_evolves fuel c (-1) acc) as He.
    split; [exact He | eapply exit_evolves_shrinks; eassumption]. }
  assert (Hm1 : is_active m1 tid = false).
  { unfold is_active, m1. rewrite lookup_insert_eq. reflexivity. }
  assert (Hfold : forall cs acc,
            is_active acc tid = false ->
            is_active
              (exit_children
                 (fun child a => handle_thread_exit_fuel fuel child (-1) a)
                 cs acc) tid = false).
  { intros cs. unfold exit_children.
    induction cs as [|c cs IHcs]; intros acc Hacc; cbn [foldl]; [exact Hacc|].
    destruct (acc !! c) as [ci|]; [|apply IHcs; exact Hacc].
    destruct (active ci); [|apply IHcs; exact Hacc].
    apply IHcs. apply (Hnested c acc Hacc). }
  fold (is_active
          (exit_children
             (fun child acc => handle_thread_exit_fuel fuel child (-1) acc)
             (child_threads info)
             (exit_children
                (fun child acc => handle_thread_exit_fuel fuel child (-1) acc)
                (child_processes info) m1)) tid).
  apply Hfold. apply Hfold. exact Hm1.
Qed.

(** X1. What an exit does to the registry.  [handle_thread_exit] adds and
    removes no record and writes only the [active] flag and the exit status
    of records that were active: the record of [tid] gets [status], every
    record exited along with it gets -1, and inactive records, child lists,
    names, parents and kinds stay as they were.  Afterwards [tid] is not
    active. *)
Theorem handle_thread_exit_effect :
  forall (tid status : Z) (m : thread_map_t),
    exit_evolves (status_at tid status) m (handle_thread_exit tid status m)
    /\ is_active (handle_thread_exit tid status m) tid = false.
Proof.
  intros tid status m. unfold handle_thread_exit. split.
  - apply handle_thread_exit_fuel_evolves.
  - apply handle_thread_exit_fuel_target.
Qed.

(** *** The cascade of an exit *)

Lemma children_closed_refl (m : thread_map_t) : children_closed m m.
Proof.
  intros x c info Hx Hact Hin _. unfold is_active in Hin.
  rewrite Hx in Hin. congruence.
Qed.

Lemma children_closed_trans (st st' : Z -> Z) (a b c : thread_map_t) :
  exit_evolves st a b -> exit_evolves st' b c ->
  children_closed a b -> children_closed b c -> children_closed a c.
Proof.
  intros Eab Ebc Cab Cbc x ch info Hx Hact Hin Hch.
  destruct (is_active b x) eqn:Hb.
  - apply (Cbc x ch info); auto.
    specialize (Eab x). rewrite Hx in Eab.
    destruct Eab as [E | [_ E]]; [exact E|].
    unfold is_active in Hb. rewrite E in Hb. discriminate.
  - eapply exit_evolves_shrinks; [exact Ebc|].
    apply (Cab x ch info); auto.
Qed.

(** The loop over one child list, with nested calls that exit their target
    and keep [children_closed]. *)
Lemma exit_children_closed (rec : Z -> thread_map_t -> thread_map_t)
    (Inv : thread_map_t -> Prop) (children : list Z) :
  (forall c acc, Inv acc ->
     exit_evolves (fun _ => -1) acc (rec c acc)
     /\ children_closed acc (rec c acc)
     /\ is_active (rec c acc) c = false
     /\ Inv (rec c acc)) ->
  forall m, Inv m ->
    exit_evolves (fun _ => -1) m (exit_children rec children m)
    /\ children_closed m (exit_children rec children m)
    /\ (forall c, c ∈ children -> is_active (exit_children rec children m) c = false)
    /\ Inv (exit_children rec children m).
Proof.
  intros Hrec. unfold exit_children.
  induction children as [|c cs IH]; intros m Hm; cbn [foldl].
  - split; [apply exit_evolves_refl|]. split; [apply children_closed_refl|].
    split; [|exact Hm]. intros c Hc. apply elem_of_nil in Hc. contradiction.
  - set (m1 := match m !! c with
               | Some ci => if active ci then rec c m else m
               | None => m
               end).
    assert (H1 : exit_evolves (fun _ => -1) m m1
                 /\ children_closed m m1
                 /\ is_active m1 c = false /\ Inv m1).
    { unfold m1. destruct (m !! c) as [ci|] eqn:Hc.
      - destruct (active ci) eqn:Hact; [apply Hrec; exact Hm|].
        split; [apply exit_evolves_refl|]. split; [apply children_closed_refl|].
        split; [|exact Hm]. unfold is_active. rewrite Hc. exact Hact.
      - split; [apply exit_evolves_refl|]. split; [apply children_closed_refl|].
        split; [|exact Hm]. unfold is_active. rewrite Hc. reflexivity. }
    destruct H1 as (E1 & C1 & A1 & I1).
    destruct (IH m1 I1) as (E2 & C2 & A2 & I2).
    split; [eapply exit_evolves_trans; eassumption|].
    split; [eapply children_closed_trans; eassumption|].
    split; [|exact I2].
    intros c' Hc'. apply elem_of_cons in Hc'. destruct Hc' as [->|Hc'].
    + eapply exit_evolves_shrinks; eassumption.
    + apply A2. exact Hc'.
Qed.

Lemma active_set_subseteq (status_of : Z -> Z) (a b : thread_map_t) :
  exit_evolves status_of a b -> active_set b ⊆ active_set a.
Proof.
  intros E t. rewrite !RegistryFacts.elem_of_active_set. intros Hb.
  destruct (is_active a t) eqn:Ha; [reflexivity|].
  rewrite (exit_evolves_shrinks status_of a b t E Ha) in Hb. discriminate.
Qed.

Lemma handle_thread_exit_fuel_minus_one (fuel : nat) (c : Z) (m : thread_map_t) :
  exit_evolves (fun _ => -1) m (handle_thread_exit_fuel fuel c (-1) m).
Proof.
  eapply exit_evolves_weaken; [|apply handle_thread_exit_fuel_evolves].
  intros t _. unfold status_at. destruct (decide (t = c)); reflexivity.
Qed.

Lemma handle_thread_exit_fuel_closed (fuel : nat) :
  forall (tid status : Z) (m : thread_map_t),
    (size (active_set m) < fuel)%nat ->
    children_closed m (handle_thread_exit_fuel fuel tid status m).
Proof.
  induction fuel as [|fuel IH]; intros tid status m Hfuel; [lia|].
  cbn [handle_thread_exit_fuel].
  destruct (m !! tid) as [info|] eqn:Hlook; [|apply children_closed_refl].
  destruct (active info) eqn:Hact; cbn [negb]; [|apply children_closed_refl].
  pose proof (subset_size _ _
                (RegistryFacts.active_set_mark_exited m tid status info Hlook Hact))
    as Hless.
  set (m1 := <[tid := mark_exited status info]> m) in *.
  set (rec := fun child acc => handle_thread_exit_fuel fuel child (-1) acc).
  assert (Hnested : forall c acc,
            active_set acc ⊆ active_set m1 ->
            exit_evolves (fun _ => -1) acc (rec c acc)
            /\ children_closed acc (rec c acc)
            /\ is_active (rec c acc) c = false
            /\ active_set (rec c acc) ⊆ active_set m1).
  { intros c acc Hacc. unfold rec.
    pose proof (subseteq_size _ _ Hacc) as Hsz.
    pose proof (handle_thread_exit_fuel_minus_one fuel c acc) as He.
    split; [exact He|]. split; [apply IH; lia|]. split.
    - destruct fuel as [|fuel']; [lia|]. apply handle_thread_exit_fuel_target.
    - etrans; [eapply active_set_subseteq; exact He | exact Hacc]. }
  destruct (exit_children_closed rec (fun acc => active_set acc ⊆ active_set m1)
              (child_processes info) Hnested m1 (reflexivity _))
    as (E1 & C1 & A1 & I1).
  destruct (exit_children_closed rec (fun acc => active_set acc ⊆ active_set m1)
              (child_threads info) Hnested _ I1)
    as (E2 & C2 & A2 & _).
  intros x c info_x Hx Hactx Hin Hc.
  destruct (decide (x = tid)) as [->|Hne].
  - rewrite Hlook in Hx. injection Hx as <-.
    destruct Hc as [Hc|Hc].
    + eapply exit_evolves_shrinks; [exact E2 | apply A1; exact Hc].
    + apply A2. exact Hc.
  - apply (children_closed_trans _ _ m1 _ _ E1 E2 C1 C2 x c info_x); auto.
    unfold m1. rewrite lookup_insert_ne by congruence. exact Hx.
Qed.

Lemma reaches_closed (m m' : thread_map_t) (t u : Z) :
  children_closed m m' -> reaches m t u ->
  is_active m' t = false -> is_active m' u = false.
Proof.
  intros Hclosed Hreach.
  induction Hreach as [t | t c u info Ht Hact Hc _ IH]; intros Hstart.
  - exact Hstart.
  - apply IH. apply (Hclosed t c info); auto.
Qed.

(** X2. An exit cascades.  After [handle_thread_exit] of [tid], no record
    that can be reached from [tid] along child lists, through records that
    were active, is active any more: neither [tid], nor its children, nor
    theirs. *)
Theorem handle_thread_exit_cascades :
  forall (tid status : Z) (m : thread_map_t) (u : Z),
    reaches m tid u ->
    is_active (handle_thread_exit tid status m) u = false.
Proof.
  intros tid status m u Hreach.
  apply (reaches_closed m _ tid u); [|exact Hreach|].
  - unfold handle_thread_exit. apply handle_thread_exit_fuel_closed.
    assert (Hsize : (size (active_set m) <= size m)%nat).
    { rewrite <- size_dom. apply subseteq_size.
      unfold active_set. intros t. rewrite elem_of_filter. tauto. }
    lia.
  - apply handle_thread_exit_fuel_target.
Qed.

(** The root 1 has a thread 2 and a child process 3, which has a thread 4:
    the exit of 1 reaches 4. *)
Lemma handle_thread_exit_cascades_witness :
  let m := handle_thread_creation Samples.plain_env 3 4 false
             (handle_thread_creation Samples.plain_env 1 3 true
                (handle_thread_creation Samples.plain_env 1 2 false
                   (handle_thread_creation Samples.plain_env 0 1 true ∅))) in
  is_active m 4 = true /\ is_active (handle_thread_exit 1 0 m) 4 = false.
Proof.
  intros m. split; [reflexivity|].
  apply (handle_thread_exit_cascades 1 0 m 4).
  eapply (reaches_child m 1 3 4); [reflexivity | reflexivity | | ].
  - left. apply list_elem_of_In. vm_compute. left. reflexivity.
  - eapply (reaches_child m 3 4 4); [reflexivity | reflexivity | | apply reaches_here].
    right. apply list_elem_of_In. vm_compute. left. reflexivity.
Defined.

(** *** Creations *)

Lemma set_children_identity (b : bool) (cs : list Z) (p : ThreadInfo) :
  same_identity p (set_children b cs p) /\ active (set_children b cs p) = active p
  /\ parent_pid (set_children b cs p) = parent_pid p.
Proof. destruct b; repeat split. Qed.

Lemma created_is_active (env : FsEnv) (parent tid : Z) (is_process : bool)
    (m : thread_map_t) :
  is_active (handle_thread_creation env parent tid is_process m) tid = true.
Proof.
  unfold handle_thread_creation, is_active.
  destruct (m !! tid) as [existing|] eqn:Hlook.
  - destruct (active existing) eqn:Hact; [rewrite Hlook; exact Hact|].
    destruct (bool_decide (parent_pid existing <> parent)
              && bool_decide (parent_pid existing <> 0));
      [|rewrite lookup_insert_eq; reflexivity].
    destruct (decide (parent_pid existing = tid)) as [E|Hne].
    + rewrite E, lookup_insert_eq, lookup_insert_eq.
      destruct is_process; reflexivity.
    + rewrite lookup_insert_ne by congruence.
      destruct (m !! parent_pid existing);
        [rewrite lookup_insert_ne by congruence|];
        rewrite lookup_insert_eq; reflexivity.
  - rewrite lookup_insert_eq. reflexivity.
Qed.

(** X3. Whatever the registry held, after [handle_thread_creation] the TID
    has a record and the record is active. *)
Theorem handle_thread_creation_registers :
  forall (env : FsEnv) (parent tid : Z) (is_process : bool) (m : thread_map_t),
    is_active (handle_thread_creation env parent tid is_process m) tid = true.
Proof. intros. apply created_is_active. Qed.

(** X4. A creation writes at most three records: that of the TID, that of
    the supplied parent and, on a reactivation, that of the stored parent.
    Every other record is left as it was. *)
Theorem handle_thread_creation_frame :
  forall (env : FsEnv) (parent tid : Z) (is_process : bool) (m : thread_map_t)
         (t : Z),
    t <> tid -> t <> parent ->
    (forall existing, m !! tid = Some existing -> t <> parent_pid existing) ->
    handle_thread_creation env parent tid is_process m !! t = m !! t.
Proof.
  intros env parent tid is_process m t Htid Hparent Hold.
  unfold handle_thread_creation.
  destruct (m !! tid) as [existing|] eqn:Hlook.
  - specialize (Hold existing eq_refl).
    destruct (active existing); [reflexivity|].
    destruct (bool_decide (parent_pid existing <> parent)
              && bool_decide (parent_pid existing <> 0)).
    + destruct (_ !! parent_pid existing);
        [rewrite lookup_insert_ne by congruence|];
        rewrite lookup_insert_ne by congruence; reflexivity.
    + rewrite lookup_insert_ne by congruence. reflexivity.
  - rewrite lookup_insert_ne by congruence.
    case_bool_decide; [|reflexivity].
    destruct (m !! parent); rewrite lookup_insert_ne by congruence; reflexivity.
Qed.

(** Records 1, 2 and 3 exist; creating 4 under 2 leaves 1 and 3 alone. *)
Lemma handle_thread_creation_frame_witness :
  let m := handle_thread_creation Samples.plain_env 1 3 true
             (handle_thread_creation Samples.plain_env 1 2 true
                (handle_thread_creation Samples.plain_env 0 1 true ∅)) in
  handle_thread_creation Samples.plain_env 2 4 false m !! 3 = m !! 3.
Proof.
  intros m.
  apply (handle_thread_creation_frame Samples.plain_env 2 4 false m 3).
  - discriminate.
  - discriminate.
  - intros existing H. vm_compute in H. discriminate.
Defined.

(** X5. The creation of a TID that has no record yet.  The new record is
    active, has the supplied parent, the kind the flag says, the name read
    from /proc (or "unknown"), no children and exit status -1.  When the
    parent is not 0 the parent has a record afterwards, with the new TID
    appended to the child list of the new TID's kind and its other child
    list unchanged; a parent that had no record gets an active process
    record without a parent of its own. *)
Theorem handle_thread_creation_fresh :
  forall (env : FsEnv) (parent tid : Z) (is_process : bool) (m : thread_map_t),
    m !! tid = None ->
    parent <> 0 ->
    parent <> tid ->
    let m' := handle_thread_creation env parent tid is_process m in
    m' !! tid
    = Some {| thread_id := tid; parent_pid := parent;
              name := get_thread_name env tid; active := true;
              process_type := if is_process then PROCESS else THREAD;
              child_processes := []; child_threads := [];
              creation_time := now env; exit_status := -1 |}
    /\ exists p' : ThreadInfo,
         m' !! parent = Some p'
         /\ children_of is_process p'
            = match m !! parent with
              | Some p => children_of is_process p ++ [tid]
              | None => [tid]
              end
         /\ children_of (negb is_process) p'
            = match m !! parent with
              | Some p => children_of (negb is_process) p
              | None => []
              end
         /\ match m !! parent with
            | Some p => same_identity p p' /\ active p' = active p
                        /\ parent_pid p' = parent_pid p
            | None => active p' = true /\ process_type p' = PROCESS
                      /\ parent_pid p' = 0 /\ thread_id p' = parent
            end.
Proof.
  intros env parent tid is_process m Hlook Hp0 Hpt m'. subst m'.
  unfold handle_thread_creation. rewrite Hlook.
  split; [apply lookup_insert_eq|].
  rewrite lookup_insert_ne by (intros E; apply Hpt; symmetry; exact E).
  rewrite bool_decide_eq_true_2 by exact Hp0.
  destruct (m !! parent) as [p|]; rewrite lookup_insert_eq; eexists;
    (split; [reflexivity|]).
  - destruct is_process; repeat split.
  - destruct is_process; repeat split.
Qed.

(** The first child thread 2 of the root 1. *)
Lemma handle_thread_creation_fresh_witness :
  let m := handle_thread_creation Samples.plain_env 0 1 true ∅ in
  let m' := handle_thread_creation Samples.plain_env 1 2 false m in
  (process_type <$> m' !! 2) = Some THREAD
  /\ (child_threads <$> m' !! 1) = Some [2].
Proof.
  intros m m'.
  destruct (handle_thread_creation_fresh Samples.plain_env 1 2 false m)
    as [Hrec (p' & Hp & Hkids & _)];
    [reflexivity | discriminate | discriminate |].
  fold m' in Hrec, Hp. rewrite Hrec, Hp. cbn [fmap option_fmap option_map].
  split; [reflexivity|]. f_equal. exact Hkids.
Defined.

(** *** Records are never removed or renamed *)

Lemma same_identity_refl (a : ThreadInfo) : same_identity a a.
Proof. repeat split. Qed.

Lemma same_identity_trans (a b c : ThreadInfo) :
  same_identity a b -> same_identity b c -> same_identity a c.
Proof. unfold same_identity. intuition congruence. Qed.

Lemma keeps_records_refl (m : thread_map_t) : keeps_records m m.
Proof. intros t info H. exists info. split; [exact H | apply same_identity_refl]. Qed.

Lemma keeps_records_trans (a b c : thread_map_t) :
  keeps_records a b -> keeps_records b c -> keeps_records a c.
Proof.
  intros Hab Hbc t info H. destruct (Hab t info H) as (i1 & H1 & S1).
  destruct (Hbc t i1 H1) as (i2 & H2 & S2).
  exists i2. split; [exact H2 | eapply same_identity_trans; eassumption].
Qed.

Lemma keeps_records_insert (m : thread_map_t) (t : Z) (new : ThreadInfo) :
  (forall old, m !! t = Some old -> same_identity old new) ->
  keeps_records m (<[t := new]> m).
Proof.
  intros Hsame u info Hu. destruct (decide (u = t)) as [->|Hne].
  - exists new. rewrite lookup_insert_eq. split; [reflexivity | auto].
  - exists info. rewrite lookup_insert_ne by congruence.
    split; [exact Hu | apply same_identity_refl].
Qed.

Lemma handle_thread_creation_keeps (env : FsEnv) (parent tid : Z)
    (is_process : bool) (m : thread_map_t) :
  keeps_records m (handle_thread_creation env parent tid is_process m).
Proof.
  unfold handle_thread_creation.
  destruct (m !! tid) as [existing|] eqn:Hlook.
  - destruct (active existing); [apply keeps_records_refl|].
    set (m1 := <[tid := _]> m).
    assert (H1 : keeps_records m m1).
    { apply keeps_records_insert. intros old Hold.
      rewrite Hlook in Hold. injection Hold as <-. repeat split. }
    destruct (bool_decide (parent_pid existing <> parent)
              && bool_decide (parent_pid existing <> 0)); [|exact H1].
    destruct (m1 !! parent_pid existing) as [op|] eqn:Hop; [|exact H1].
    eapply keeps_records_trans; [exact H1|].
    apply keeps_records_insert. intros old Hold.
    rewrite Hop in Hold. injection Hold as <-. apply set_children_identity.
  - assert (H1 : keeps_records m
                   (if bool_decide (parent <> 0)
                    then match m !! parent with
                         | Some p =>
                             <[parent :=
                                 set_children is_process
                                   (children_of is_process p ++ [tid]) p]> m
                         | None =>
                             <[parent :=
                                 {| thread_id := parent; parent_pid := 0;
                                    name := get_thread_name env parent;
                                    active := true; process_type := PROCESS;
                                    child_processes :=
                                      if is_process then [tid] else [];
                                    child_threads :=
                                      if is_process then [] else [tid];
                                    creation_time := now env;
                                    exit_status := -1 |}]> m
                         end
                    else m)).
    { case_bool_decide; [|apply keeps_records_refl].
      destruct (m !! parent) as [p|] eqn:Hp; apply keeps_records_insert;
        intros old Hold; rewrite Hp in Hold; [|discriminate].
      injection Hold as <-. apply set_children_identity. }
    intros t info Ht. destruct (H1 t info Ht) as (i1 & Hi1 & S1).
    destruct (decide (t = tid)) as [->|Hne]; [congruence|].
    exists i1. rewrite lookup_insert_ne by congruence. split; assumption.
Qed.

Lemma exit_evolves_keeps (status_of : Z -> Z) (m m' : thread_map_t) :
  exit_evolves status_of m m' -> keeps_records m m'.
Proof.
  intros E t info Ht. specialize (E t). rewrite Ht in E.
  destruct E as [E | [_ E]]; eexists; (split; [exact E|]); repeat split.
Qed.

Lemma handle_thread_exit_keeps (tid status : Z) (m : thread_map_t) :
  keeps_records m (handle_thread_exit tid status m).
Proof.
  eapply exit_evolves_keeps. apply handle_thread_exit_fuel_evolves.
Qed.


(** TID 3, exited under parent 1, is created again under parent 2. *)
Lemma reactivation_record_witness :
  (parent_pid
     <$> handle_thread_creation Samples.plain_env 2 3 true Samples.reuse_registry
         !! 3) = Some 2
  /\ (active
        <$> handle_thread_creation Samples.plain_env 2 3 true
              Samples.reuse_registry !! 3) = Some true.
Proof.
  pose (existing := mark_exited 0
                      {| thread_id := 3; parent_pid := 1; name := "main";
                         active := true; process_type := PROCESS;
                         child_processes := []; child_threads := [];
                         creation_time := 1000; exit_status := -1 |}).
  rewrite (RegistryFacts.reactivation_record Samples.plain_env 2 3 true
             Samples.reuse_registry existing);
    [split; reflexivity | vm_compute; reflexivity | reflexivity | discriminate].
Defined.

Lemma exit_inactive_noop (tid status : Z) (m : thread_map_t) :
  is_active m tid = false -> handle_thread_exit tid status m = m.
Proof.
  unfold handle_thread_exit, is_active. cbn [handle_thread_exit_fuel].
  destruct (m !! tid) as [info|]; [intros ->|]; reflexivity.
Qed.

(** X28. An exit is recorded once.  A second [handle_thread_exit] of the
    same TID, with whatever status, changes nothing: the status of the
    first exit stays, and the records exited along with it are not touched
    again. *)
Theorem handle_thread_exit_idempotent :
  forall (tid status status' : Z) (m : thread_map_t),
    handle_thread_exit tid status' (handle_thread_exit tid status m)
    = handle_thread_exit tid status m.
Proof.
  intros tid status status' m. apply exit_inactive_noop.
  unfold handle_thread_exit at 1. apply handle_thread_exit_fuel_target.
Qed.
End RegistryExtra.

(** ** The tracee memory reader: further properties *)

Module ReaderExtra.
Import Reader.

Lemma copy_chars_nul (pre post : list Z) :
  forall (pos : Z) (buffer : list Z),
    Forall (fun c => c <> 0) pre ->
    pos + Z.of_nat (length pre) < buffer_size - 1 ->
    copy_chars (pre ++ 0 :: post) pos buffer = (buffer ++ pre ++ [0], true).
Proof.
  induction pre as [|c pre IH]; intros pos buffer Hnz Hroom; cbn [app copy_chars].
  - simpl length in Hroom.
    destruct (Z.ltb_spec pos (buffer_size - 1)) as [_|Hge]; [|lia].
    reflexivity.
  - inversion Hnz as [|? ? Hc Hrest]; subst. simpl length in Hroom.
    destruct (Z.ltb_spec pos (buffer_size - 1)) as [_|Hge]; [|lia].
    destruct (Z.eqb_spec c 0) as [E|_]; [contradiction|].
    rewrite IH by (auto; lia). rewrite <- app_assoc. reflexivity.
Qed.

Lemma read_loop_terminated (env : FsEnv) (pid addr : Z) (last : Z)
    (pre post : list Z) (words : list Z) :
  forall (rounds : nat) (i : Z) (buffer : list Z),
    0 <= i ->
    i + sizeof_long * Z.of_nat (length words) < buffer_size - sizeof_long ->
    (length words < rounds)%nat ->
    Forall (fun c => c <> 0) buffer ->
    readable_from env pid addr i words ->
    peekdata env pid
      ((addr + (i + sizeof_long * Z.of_nat (length words))) mod 2 ^ 64)
    = Some last ->
    chars_of_long last = pre ++ 0 :: post ->
    Forall (fun c => c <> 0) pre ->
    read_loop env rounds pid addr i buffer
    = string_of_chars (buffer ++ concat (map chars_of_long words) ++ pre).
Proof.
  induction words as [|w words IH];
    intros rounds i buffer Hi Hroom Hrounds Hbuf Hread Hlast Hchars Hpre.
  - destruct rounds as [|rounds]; [simpl in Hrounds; lia|].
    simpl length in *. cbn [read_loop map concat app].
    replace (i + sizeof_long * Z.of_nat 0) with i in * by lia.
    destruct (Z.ltb_spec i (buffer_size - sizeof_long)) as [_|Hge]; [|lia].
    rewrite Hlast, Hchars.
    assert (Hlen : (length pre <= 7)%nat).
    { pose proof (f_equal (@length Z) Hchars) as L.
      rewrite ReaderFacts.chars_of_long_length, length_app in L.
      simpl length in L. lia. }
    rewrite copy_chars_nul;
      [| exact Hpre | unfold sizeof_long, buffer_size in *; lia].
    rewrite app_assoc. apply ReaderFacts.cstring_no_nul.
    apply Forall_app. split; assumption.
  - destruct rounds as [|rounds]; [simpl in Hrounds; lia|].
    apply ReaderFacts.readable_from_cons in Hread.
    destruct Hread as (Hp & Hn & Hread).
    simpl length in *. cbn [read_loop].
    destruct (Z.ltb_spec i (buffer_size - sizeof_long)) as [_|Hge];
      [|unfold sizeof_long, buffer_size in *; lia].
    rewrite Hp.
    rewrite ReaderFacts.copy_chars_no_nul;
      [| exact Hn
       | rewrite ReaderFacts.chars_of_long_length;
         unfold sizeof_long, buffer_size in *; lia].
    rewrite (IH rounds (i + sizeof_long) (buffer ++ chars_of_long w)).
    + cbn [map concat]. rewrite <- !app_assoc. reflexivity.
    + unfold sizeof_long in *. lia.
    + unfold sizeof_long in *. lia.
    + lia.
    + apply Forall_app. split; [exact Hbuf | exact Hn].
    + exact Hread.
    + rewrite <- Hlast. f_equal. f_equal. unfold sizeof_long. lia.
    + exact Hchars.
    + exact Hpre.
Qed.

(** X6. Reading a terminated string.  When the tracee's memory from the
    address on holds [k] readable words without a NUL (k at most 510)
    followed by a readable word whose first NUL comes after the bytes
    [pre], [read_process_string] returns exactly the bytes of the [k] words
    followed by [pre]: the C string stored at the address. *)
Theorem read_process_string_terminated :
  forall (env : FsEnv) (pid addr : Z) (words : list Z) (last : Z)
         (pre post : list Z),
    (length words < max_rounds)%nat ->
    readable_from env pid addr 0 words ->
    peekdata env pid
      ((addr + sizeof_long * Z.of_nat (length words)) mod 2 ^ 64) = Some last ->
    chars_of_long last = pre ++ 0 :: post ->
    Forall (fun c => c <> 0) pre ->
    read_process_string env pid addr
    = string_of_chars (concat (map chars_of_long words) ++ pre).
Proof.
  intros env pid addr words last pre post Hk Hread Hlast Hchars Hpre.
  unfold read_process_string.
  rewrite (read_loop_terminated env pid addr last pre post words max_rounds 0 []);
    auto.
  - lia.
  - unfold max_rounds, sizeof_long, buffer_size in *. lia.
Qed.

(** "/tmp/a.t" then "xt" and a NUL. *)
Lemma read_process_string_terminated_witness :
  read_process_string Samples.env_a_txt 7 4096 = "/tmp/a.txt"%string.
Proof.
  rewrite (read_process_string_terminated Samples.env_a_txt 7 4096
             [Samples.word_tmp_a_t] Samples.word_xt [120; 116] [0; 0; 0; 0; 0]).
  - reflexivity.
  - vm_compute. lia.
  - intros j w Hj. destruct j as [|j]; [|discriminate].
    injection Hj as <-. split; [reflexivity|].
    unfold nul_free. vm_compute. repeat constructor; discriminate.
  - reflexivity.
  - reflexivity.
  - repeat constructor; discriminate.
Defined.

Lemma cstring_length (l : list Z) : (String.length (cstring l) <= length l)%nat.
Proof.
  induction l as [|c l IH]; cbn [cstring String.length length]; [lia|].
  destruct (c =? 0); cbn [String.length]; lia.
Qed.

Lemma cstring_terminated_length (l : list Z) :
  (String.length (cstring (l ++ [0%Z])) <= length l)%nat.
Proof.
  induction l as [|c l IH]; cbn [cstring String.length length app]; [simpl; lia|].
  destruct (c =? 0); cbn [String.length]; lia.
Qed.

Lemma copy_chars_length (chars : list Z) :
  forall (pos : Z) (buffer : list Z),
    (length (fst (copy_chars chars pos buffer)) <= length buffer + length chars)%nat
    /\ (snd (copy_chars chars pos buffer) = true ->
        (String.length (cstring (fst (copy_chars chars pos buffer)))
         < length buffer + length chars)%nat).
Proof.
  induction chars as [|c chars IH]; intros pos buffer; cbn [copy_chars].
  - cbn [fst snd length]. split; [lia | discriminate].
  - destruct (pos <? buffer_size - 1); [|cbn [fst snd length]; split; [lia|discriminate]].
    destruct (c =? 0) eqn:E.
    + cbn [fst snd]. rewrite length_app. cbn [length]. split; [lia|].
      intros _. apply Z.eqb_eq in E. subst c.
      pose proof (cstring_terminated_length buffer). lia.
    + destruct (IH (pos + 1) (buffer ++ [c])) as [H1 H2].
      rewrite length_app in H1, H2. cbn [length] in *. split; [lia|].
      intros Hn. specialize (H2 Hn). lia.
Qed.

Lemma read_loop_length (env : FsEnv) (pid addr : Z) (rounds : nat) :
  forall (i : Z) (buffer : list Z),
    (String.length (read_loop env rounds pid addr i buffer)
     <= length buffer + 8 * rounds)%nat.
Proof.
  induction rounds as [|rounds IH]; intros i buffer; cbn [read_loop].
  - pose proof (cstring_terminated_length buffer). lia.
  - destruct (i <? buffer_size - sizeof_long);
      [|pose proof (cstring_terminated_length buffer); lia].
    destruct (peekdata env pid ((addr + i) mod 2 ^ 64)) as [val|];
      [|pose proof (cstring_terminated_length buffer); lia].
    pose proof (copy_chars_length (chars_of_long val) i buffer) as [H1 H2].
    rewrite ReaderFacts.chars_of_long_length in H1, H2.
    destruct (copy_chars (chars_of_long val) i buffer) as [buffer' nul].
    cbn [fst snd] in *. destruct nul.
    + specialize (H2 eq_refl). lia.
    + specialize (IH (i + sizeof_long) buffer'). lia.
Qed.

(** X7. Whatever the tracee's memory holds and wherever reads fail,
    [read_process_string] returns at most 4088 bytes: the string always
    fits the 4096-byte buffer together with its terminator. *)
Theorem read_process_string_bounded :
  forall (env : FsEnv) (pid addr : Z),
    (String.length (read_process_string env pid addr) <= 4088)%nat.
Proof.
  intros env pid addr. unfold read_process_string.
  pose proof (read_loop_length env pid addr max_rounds 0 []) as H.
  change (length (@nil Z)) with 0%nat in H.
  change (8 * max_rounds)%nat with 4088%nat in H. exact H.
Qed.

End ReaderExtra.

(** ** path_utils: further properties *)

Module PathExtra.
Import path_utils.

Lemma string_empty_false (s : string) : string_empty s = false <-> s <> ""%string.
Proof. destruct s; simpl; split; congruence. Qed.

(** X8. The base-directory filter on absolute paths outside the allow-list.
    With filtering enabled, such a path is accepted exactly when neither
    normalized form is empty and the normalized path either equals the
    normalized base or starts with the normalized base followed by a
    separator: a name that merely shares a prefix with the base directory,
    like "/tmpfoo" for base "/tmp", is not accepted. *)
Theorem is_within_directory_absolute :
  forall (env : FsEnv) (path base_dir : string),
    system_path path = false ->
    first_not_slash path = false ->
    is_within_directory env false path base_dir = true
    <-> (let norm_path := normalize_path env path in
         let norm_base := normalize_path env base_dir in
         norm_path <> ""%string /\ norm_base <> ""%string
         /\ (norm_path = norm_base
             \/ exists rest : string,
                  norm_path
                  = (if back_not_slash norm_base then norm_base +:+ "/"
                     else norm_base) +:+ rest)).
Proof.
  intros env path base_dir Hsys Habs. unfold is_within_directory.
  rewrite Hsys. cbv zeta.
  set (np := normalize_path env path). set (nb := normalize_path env base_dir).
  rewrite Habs, andb_false_r.
  destruct (string_empty np) eqn:Hnp; cbn [orb].
  { split; [discriminate|]. intros (H & _). apply string_empty_false in H.
    congruence. }
  destruct (string_empty nb) eqn:Hnb.
  { split; [discriminate|]. intros (_ & H & _). apply string_empty_false in H.
    congruence. }
  apply string_empty_false in Hnp. apply string_empty_false in Hnb.
  destruct (String.eqb_spec np nb) as [E|Hne].
  { split; [intros _; auto | reflexivity]. }
  split.
  - intros H. apply PathFacts.find_at_0_prefix in H. destruct H as [rest H].
    split; [exact Hnp|]. split; [exact Hnb|]. right. exists rest. exact H.
  - intros (_ & _ & [E | [rest E]]); [contradiction|].
    rewrite E. apply PathFacts.find_at_0_app.
Qed.

(** "/tmp/a.txt" is within "/tmp". *)
Lemma is_within_directory_absolute_witness :
  is_within_directory Samples.plain_env false "/tmp/a.txt" "/tmp" = true.
Proof.
  apply (is_within_directory_absolute Samples.plain_env "/tmp/a.txt" "/tmp");
    [reflexivity | reflexivity |].
  cbv zeta. split; [discriminate|]. split; [discriminate|].
  right. exists "a.txt"%string. reflexivity.
Defined.

(** "/tmpfoo" is not within "/tmp". *)
Example shared_prefix_is_outside :
  is_within_directory Samples.plain_env false "/tmpfoo" "/tmp" = false.
Proof. reflexivity. Qed.

End PathExtra.

(** ** The supervisor: further properties *)

Module SupervisorExtra.
Import Registry RegistryRel Supervisor SupervisorRel.

(** *** Records over a run *)

Lemma getregs_retry_keeps (k : StopOracle) (left : nat) :
  forall (retry_count : nat) (pid : Z) (m : thread_map_t),
    keeps_records m (snd (getregs_retry k left retry_count pid m)).
Proof.
  induction left as [|left IH]; intros retry_count pid m; cbn [getregs_retry].
  - apply RegistryExtra.keeps_records_refl.
  - destruct (getregs k retry_count); cbn [snd];
      try apply RegistryExtra.keeps_records_refl;
      try apply RegistryExtra.handle_thread_exit_keeps.
    destruct (kill_in_regs_retry k retry_count); cbn [snd];
      try apply IH; apply RegistryExtra.handle_thread_exit_keeps.
Qed.

Lemma resume_retry_keeps (k : StopOracle) (left : nat) :
  forall (continue_retry : nat) (pid : Z) (m : thread_map_t),
    keeps_records m (snd (resume_retry k left continue_retry pid m)).
Proof.
  induction left as [|left IH]; intros continue_retry pid m; cbn [resume_retry].
  - apply RegistryExtra.keeps_records_refl.
  - destruct (resume k continue_retry); cbn [snd];
      try apply RegistryExtra.keeps_records_refl;
      try apply RegistryExtra.handle_thread_exit_keeps;
      destruct (kill_in_resume_retry k continue_retry); cbn [snd];
      try apply IH; apply RegistryExtra.handle_thread_exit_keeps.
Qed.

Lemma handle_file_syscall_keeps (env : FsEnv) (flag : bool) (base : string)
    (pid : Z) (regs : Regs) (m : thread_map_t) (ops : list FileOperation) :
  keeps_records m (fst (handle_file_syscall env flag base pid regs m ops)).
Proof.
  unfold handle_file_syscall.
  repeat match goal with
         | |- context [if ?b then _ else _] => destruct b
         | |- context [match stat ?e ?p with _ => _ end] => destruct (stat e p)
         end; cbn [fst];
    first [ apply RegistryExtra.keeps_records_refl
          | apply RegistryExtra.handle_thread_creation_keeps ].
Qed.

Lemma handle_syscall_entry_keeps (env : FsEnv) (k : CloneOracle) (flag : bool)
    (base : string) (pid : Z) (regs : Regs) (m : thread_map_t)
    (ops : list FileOperation) :
  keeps_records m (fst (handle_syscall_entry env k flag base pid regs m ops)).
Proof.
  unfold handle_syscall_entry.
  set (after_clone := if is_creation_syscall regs then _ else _).
  assert (Hclone : match after_clone with
                   | Some m1 => keeps_records m m1
                   | None => True
                   end).
  { unfold after_clone.
    destruct (is_creation_syscall regs); [|apply RegistryExtra.keeps_records_refl].
    destruct (negb (clone_resume_ok k)); [exact I|].
    destruct (negb (clone_wait_ok k)); [exact I|].
    destruct (clone_post_regs k) as [post|];
      [|apply RegistryExtra.keeps_records_refl].
    destruct (0 <? to_long (rax post));
      [apply RegistryExtra.handle_thread_creation_keeps
      |apply RegistryExtra.keeps_records_refl]. }
  destruct after_clone as [m1|]; [|apply RegistryExtra.keeps_records_refl].
  assert (Hexit : keeps_records m
                    (if is_exit_syscall regs
                     then handle_thread_exit pid (to_int (rdi regs)) m1 else m1)).
  { destruct (is_exit_syscall regs); [|exact Hclone].
    eapply RegistryExtra.keeps_records_trans; [exact Hclone|].
    apply RegistryExtra.handle_thread_exit_keeps. }
  destruct (is_file_syscall regs); [|exact Hexit].
  eapply RegistryExtra.keeps_records_trans; [exact Hexit|].
  apply handle_file_syscall_keeps.
Qed.

Lemma foldl_keeps (f : thread_map_t -> Z -> thread_map_t) (l : list Z) :
  (forall m t, keeps_records m (f m t)) ->
  forall m, keeps_records m (foldl f m l).
Proof.
  intros Hf. induction l as [|t l IH]; intros m; cbn [foldl].
  - apply RegistryExtra.keeps_records_refl.
  - eapply RegistryExtra.keeps_records_trans; [apply Hf | apply IH].
Qed.

(** Chains of [keeps_records] facts, followed backwards from the goal. *)
Ltac keeps_back :=
  repeat match goal with
         | |- keeps_records ?a ?a => apply RegistryExtra.keeps_records_refl
         | H : keeps_records ?a ?b |- keeps_records ?a ?b => exact H
         | |- keeps_records _ (handle_thread_exit _ _ _) =>
             eapply RegistryExtra.keeps_records_trans;
             [|apply RegistryExtra.handle_thread_exit_keeps]
         | |- keeps_records _ (handle_thread_creation _ _ _ _ _) =>
             eapply RegistryExtra.keeps_records_trans;
             [|apply RegistryExtra.handle_thread_creation_keeps]
         | H : keeps_records _ ?b |- keeps_records _ ?b =>
             eapply RegistryExtra.keeps_records_trans; [|exact H]
         end.

(** The shape of the handling of a stop: either the log is untouched, or
    it is the log [handle_syscall_entry] returned; the registry only grows
    from its value before, through the classifier's, to its value after. *)
Lemma handle_syscall_stop_shape (cfg : Config) (k : StopOracle)
    (waited_pid : Z) (st : State) :
  let st' := handle_syscall_stop cfg k waited_pid st in
  (operations st' = operations st
   /\ keeps_records (thread_map st) (thread_map st'))
  \/ exists (regs : Regs) (m1 : thread_map_t),
       keeps_records (thread_map st) m1
       /\ operations st'
          = snd (handle_syscall_entry (fs k) (clone_oracle k)
                   (disable_directory_filtering cfg) (base_dir cfg)
                   waited_pid regs m1 (operations st))
       /\ keeps_records
            (fst (handle_syscall_entry (fs k) (clone_oracle k)
                    (disable_directory_filtering cfg) (base_dir cfg)
                    waited_pid regs m1 (operations st)))
            (thread_map st').
Proof.
  unfold handle_syscall_stop.
  set (m0 := match thread_map st !! waited_pid with
             | Some _ => thread_map st
             | None => _
             end).
  assert (H0 : keeps_records (thread_map st) m0).
  { unfold m0. destruct (thread_map st !! waited_pid); keeps_back. }
  destruct (negb (is_active m0 waited_pid)); [left; split; [reflexivity|exact H0]|].
  pose proof (getregs_retry_keeps k 5 0 waited_pid m0) as Hregs.
  destruct (getregs_retry k 5 0 waited_pid m0) as [[regs|] m1]; cbn [snd] in Hregs.
  2:{ destruct (kill_before_regs k); left; (split; [reflexivity|]);
        cbn [thread_map with_map]; keeps_back. }
  destruct (in_syscall st) eqn:Hin; cbn [negb].
  - pose proof (resume_retry_keeps k 3 0 waited_pid m1) as Hres.
    destruct (kill_before_regs k);
      try (left; split; [reflexivity | cbn [thread_map with_map]; keeps_back]);
      destruct (kill_after_entry k);
      try destruct (resume_retry k 3 0 waited_pid m1) as [[|] m3];
      cbn [snd operations thread_map] in *;
      left; (split; [reflexivity|]); keeps_back.
  - destruct (kill_before_regs k);
      try (left; split; [reflexivity | cbn [thread_map with_map]; keeps_back]);
      right; exists regs, m1; (split; [keeps_back|]);
      destruct (handle_syscall_entry (fs k) (clone_oracle k)
                  (disable_directory_filtering cfg) (base_dir cfg)
                  waited_pid regs m1 (operations st)) as [m2 ops];
      pose proof (resume_retry_keeps k 3 0 waited_pid m2) as Hres;
      destruct (kill_after_entry k);
      try destruct (resume_retry k 3 0 waited_pid m2) as [[|] m3];
      cbn [fst snd operations thread_map] in *;
      (split; [reflexivity|]); keeps_back.
Qed.

Lemma step_keeps (cfg : Config) (st : State) (r : Report) :
  keeps_records (thread_map st) (thread_map (fst (step cfg st r))).
Proof.
  destruct r as [env probe| |waited_pid status k]; cbn [step fst thread_map with_map].
  - apply foldl_keeps. intros m t. keeps_back.
  - apply foldl_keeps. intros m t. destruct (is_active m t); keeps_back.
  - destruct (WIFEXITED status || WIFSIGNALED status); cbn [fst].
    { unfold handle_exit_report.
      destruct (waited_pid =? child cfg); cbn [thread_map with_map];
        [|keeps_back].
      eapply RegistryExtra.keeps_records_trans;
        [apply RegistryExtra.handle_thread_exit_keeps|].
      apply foldl_keeps. intros m t.
      destruct (is_active m t && negb (t =? child cfg) && detach_ok k t);
        keeps_back. }
    destruct (WIFSTOPPED status); cbn [fst]; [|keeps_back].
    destruct (is_event status PTRACE_EVENT_FORK
              || is_event status PTRACE_EVENT_VFORK
              || is_event status PTRACE_EVENT_CLONE); cbn [fst].
    { unfold handle_event_stop.
      destruct (eventmsg k); cbn [thread_map with_map]; keeps_back. }
    destruct (handle_syscall_stop_shape cfg k waited_pid st)
      as [[_ H] | (regs & m1 & H1 & _ & H2)]; [exact H|].
    eapply RegistryExtra.keeps_records_trans; [exact H1|].
    eapply RegistryExtra.keeps_records_trans; [|exact H2].
    apply handle_syscall_entry_keeps.
Qed.

(** X9. Records are permanent.  Over any run of the supervisor loop, from
    any state, no record is ever removed from the registry, and the thread
    id, the name and the kind of a record never change once the record
    exists: a TID that is reused keeps the name and the kind it was first
    registered with. *)
Theorem run_keeps_records :
  forall (cfg : Config) (reports : list Report) (st : State),
    keeps_records (thread_map st) (thread_map (run cfg st reports)).
Proof.
  intros cfg reports. induction reports as [|r rest IH]; intros st; cbn [run].
  - apply RegistryExtra.keeps_records_refl.
  - pose proof (step_keeps cfg st r) as H.
    destruct (step cfg st r) as [st' stop]. cbn [fst] in H.
    destruct stop; [exact H|].
    eapply RegistryExtra.keeps_records_trans; [exact H | apply IH].
Qed.

(** *** The thread names in the event log *)

Lemma log_registered_keeps (m m' : thread_map_t) (ops : list FileOperation) :
  keeps_records m m' -> log_registered m ops -> log_registered m' ops.
Proof.
  intros Hk Hl op Hop. destruct (Hl op Hop) as (H1 & H2 & info & Hi & Hn).
  split; [exact H1|]. split; [exact H2|].
  destruct (Hk _ _ Hi) as (info' & Hi' & (_ & Hname & _)).
  exists info'. split; [exact Hi' | congruence].
Qed.

Lemma handle_file_syscall_registered (env : FsEnv) (flag : bool) (base : string)
    (pid : Z) (regs : Regs) (m : thread_map_t) (ops : list FileOperation) :
  log_registered m ops ->
  log_registered (fst (handle_file_syscall env flag base pid regs m ops))
    (snd (handle_file_syscall env flag base pid regs m ops)).
Proof.
  intros Hl.
  pose proof (handle_file_syscall_keeps env flag base pid regs m ops) as Hk.
  revert Hk. unfold handle_file_syscall.
  destruct (string_empty (extract_filepath env pid regs)); [auto|].
  destruct (negb flag && negb (string_empty base) && _); [auto|].
  destruct (orig_rax regs =? SYS_execve); [auto|].
  destruct (stat env _); [|auto].
  cbn [fst snd]. intros Hk op Hop.
  apply elem_of_app in Hop. destruct Hop as [Hop|Hop].
  - exact (log_registered_keeps _ _ _ Hk Hl op Hop).
  - apply list_elem_of_singleton in Hop. subst op.
    cbn [op_thread_id Supervisor.pid is_actual_open op_thread_name].
    split; [reflexivity|]. split; [reflexivity|].
    assert (Hreg : is_Some
              (match m !! pid with
               | Some _ => m
               | None => handle_thread_creation env pid pid false m
               end !! pid)).
    { destruct (m !! pid) as [info|] eqn:Hp; [rewrite Hp; eauto|].
      pose proof (RegistryExtra.created_is_active env pid pid false m)
        as Hact.
      unfold is_active in Hact.
      destruct (handle_thread_creation env pid pid false m !! pid);
        [eauto | discriminate]. }
    destruct Hreg as [info Hinfo]. rewrite Hinfo.
    exists info. split; reflexivity.
Qed.

Lemma handle_syscall_entry_registered (env : FsEnv) (k : CloneOracle)
    (flag : bool) (base : string) (pid : Z) (regs : Regs) (m : thread_map_t)
    (ops : list FileOperation) :
  log_registered m ops ->
  log_registered (fst (handle_syscall_entry env k flag base pid regs m ops))
    (snd (handle_syscall_entry env k flag base pid regs m ops)).
Proof.
  intros Hl.
  pose proof (handle_syscall_entry_keeps env k flag base pid regs m ops) as Hk.
  revert Hk. unfold handle_syscall_entry.
  destruct (if is_creation_syscall regs then _ else _) as [m1|] eqn:Hclone;
    [|auto].
  assert (H1 : keeps_records m m1).
  { revert Hclone. destruct (is_creation_syscall regs);
      [|intros [= <-]; keeps_back].
    destruct (negb (clone_resume_ok k)); [discriminate|].
    destruct (negb (clone_wait_ok k)); [discriminate|].
    destruct (clone_post_regs k) as [post|]; [|intros [= <-]; keeps_back].
    destruct (0 <? to_long (rax post)); intros [= <-]; keeps_back. }
  destruct (is_file_syscall regs); cbn [fst snd].
  - intros _. apply handle_file_syscall_registered.
    eapply log_registered_keeps; [|exact Hl].
    destruct (is_exit_syscall regs); keeps_back.
  - intros Hk. eapply log_registered_keeps; eassumption.
Qed.

Lemma step_registered (cfg : Config) (st : State) (r : Report) :
  log_registered (thread_map st) (operations st) ->
  log_registered (thread_map (fst (step cfg st r)))
    (operations (fst (step cfg st r))).
Proof.
  intros Hl. pose proof (step_keeps cfg st r) as Hk.
  assert (Hsame : operations (fst (step cfg st r)) = operations st ->
                  log_registered (thread_map (fst (step cfg st r)))
                    (operations (fst (step cfg st r)))).
  { intros E. rewrite E. eapply log_registered_keeps; eassumption. }
  destruct r as [env probe| |waited_pid status k];
    try (apply Hsame; reflexivity).
  revert Hk Hsame. cbn [step].
  destruct (WIFEXITED status || WIFSIGNALED status); cbn [fst].
  { intros _ Hsame. apply Hsame. unfold handle_exit_report.
    destruct (waited_pid =? child cfg); reflexivity. }
  destruct (WIFSTOPPED status); cbn [fst]; [|intros _ Hsame; apply Hsame; reflexivity].
  destruct (is_event status PTRACE_EVENT_FORK
            || is_event status PTRACE_EVENT_VFORK
            || is_event status PTRACE_EVENT_CLONE); cbn [fst].
  { intros _ Hsame. apply Hsame. unfold handle_event_stop.
    destruct (eventmsg k); reflexivity. }
  intros _ Hsame.
  destruct (handle_syscall_stop_shape cfg k waited_pid st)
    as [[E _] | (regs & m1 & H1 & E & H2)]; [apply Hsame; exact E|].
  rewrite E. eapply log_registered_keeps; [exact H2|].
  apply handle_syscall_entry_registered.
  eapply log_registered_keeps; eassumption.
Qed.

Lemma run_registered (cfg : Config) (reports : list Report) :
  forall st : State,
    log_registered (thread_map st) (operations st) ->
    log_registered (thread_map (run cfg st reports))
      (operations (run cfg st reports)).
Proof.
  induction reports as [|r rest IH]; intros st Hl; cbn [run]; [exact Hl|].
  pose proof (step_registered cfg st r Hl) as H.
  destruct (step cfg st r) as [st' stop]. cbn [fst] in H.
  destruct stop; [exact H | apply IH; exact H].
Qed.

(** X10. The event log and the registry agree.  At every point of a trace,
    each entry of the event log is an actual open whose thread id equals
    its pid, the TID has a record in the registry (it is registered on
    demand when its first event is logged), and the thread name stored in
    the entry is the name of that record. *)
Theorem event_log_names_registered :
  forall (env : FsEnv) (cfg : Config) (reports : list Report),
    let st := run cfg (initial_state env cfg) reports in
    log_registered (thread_map st) (operations st).
Proof.
  intros env cfg reports. apply run_registered.
  intros op Hop. apply elem_of_nil in Hop. contradiction.
Qed.

(** *** Leaving the loop, and teardown *)

Lemma elem_of_map_keys (m : thread_map_t) (t : Z) :
  t ∈ map_keys m <-> is_Some (m !! t).
Proof.
  unfold map_keys. rewrite merge_sort_Permutation.
  rewrite list_elem_of_In, in_map_iff. split.
  - intros ([t' info] & <- & Hin). apply list_elem_of_In in Hin.
    apply elem_of_map_to_list in Hin. eauto.
  - intros [info Hinfo]. exists (t, info). split; [reflexivity|].
    apply list_elem_of_In. apply elem_of_map_to_list. exact Hinfo.
Qed.

Lemma is_active_registered (m : thread_map_t) (t : Z) :
  is_active m t = true -> t ∈ map_keys m.
Proof.
  intros H. apply elem_of_map_keys. unfold is_active in H.
  destruct (m !! t); [eauto | discriminate].
Qed.

Lemma handle_thread_exit_minus_one (t : Z) (m : thread_map_t) :
  exit_evolves (fun _ => -1) m (handle_thread_exit t (-1) m)
  /\ is_active (handle_thread_exit t (-1) m) t = false.
Proof.
  split.
  - apply RegistryExtra.handle_thread_exit_fuel_minus_one.
  - apply RegistryExtra.handle_thread_exit_fuel_target.
Qed.

(** A loop that exits the TIDs of a list that satisfy [selected] (a test
    that may look at the registry when the TID's turn comes). *)
Lemma exit_loop_effect (selected : thread_map_t -> Z -> bool) (l : list Z) :
  forall m : thread_map_t,
    let m' := foldl (fun acc t =>
                       if selected acc t then handle_thread_exit t (-1) acc
                       else acc) m l in
    exit_evolves (fun _ => -1) m m'
    /\ (forall t, t ∈ l ->
          (forall acc, exit_evolves (fun _ => -1) m acc ->
                       is_active acc t = true -> selected acc t = true) ->
          is_active m' t = false).
Proof.
  induction l as [|x l IH]; intros m; cbn [foldl].
  - split; [apply RegistryExtra.exit_evolves_refl|].
    intros t Ht. apply elem_of_nil in Ht. contradiction.
  - set (m1 := if selected m x then handle_thread_exit x (-1) m else m).
    assert (E1 : exit_evolves (fun _ => -1) m m1).
    { unfold m1. destruct (selected m x);
        [apply handle_thread_exit_minus_one | apply RegistryExtra.exit_evolves_refl]. }
    destruct (IH m1) as [E2 A2]. cbv zeta in E2, A2.
    split; [eapply RegistryExtra.exit_evolves_trans; eassumption|].
    intros t Ht Hsel. apply elem_of_cons in Ht. destruct Ht as [->|Ht].
    + eapply RegistryExtra.exit_evolves_shrinks; [exact E2|].
      unfold m1. destruct (selected m x) eqn:Hs;
        [apply handle_thread_exit_minus_one|].
      destruct (is_active m x) eqn:Ha; [|reflexivity].
      rewrite (Hsel m (RegistryExtra.exit_evolves_refl _ m) Ha) in Hs.
      discriminate.
    + apply A2; [exact Ht|]. intros acc Hacc. apply Hsel.
      eapply RegistryExtra.exit_evolves_trans; eassumption.
Qed.

Lemma all_inactive_from_keys (m m' : thread_map_t) :
  exit_evolves (fun _ => -1) m m' ->
  (forall t, t ∈ map_keys m -> is_active m' t = false) ->
  all_inactive m'.
Proof.
  intros E H t. destruct (m !! t) as [info|] eqn:Ht.
  - apply H. apply elem_of_map_keys. eauto.
  - eapply RegistryExtra.exit_evolves_shrinks; [exact E|].
    unfold is_active. rewrite Ht. reflexivity.
Qed.

Lemma echild_stops_when_all_inactive (cfg : Config) (st : State) (env : FsEnv)
    (probe : Z -> KillResult) :
  all_inactive (thread_map st) ->
  snd (step cfg st (WaitECHILD env probe)) = true.
Proof.
  intros Hall. cbn [step snd].
  assert (E : filter (fun tid => is_active (thread_map st) tid = true)
                (map_keys (thread_map st)) = []).
  { apply elem_of_nil_inv. intros t Ht. apply list_elem_of_filter in Ht.
    destruct Ht as [Ht _]. rewrite Hall in Ht. discriminate. }
  rewrite E. reflexivity.
Qed.

(** X11. A failed wait tears everything down.  When [waitpid] fails with an
    error other than ECHILD, the iteration exits every record that is still
    active with status -1 (changing nothing else in the registry, and
    neither the log nor the flip-flop) and leaves the loop. *)
Theorem wait_failure_teardown :
  forall (cfg : Config) (st : State),
    let st' := fst (step cfg st WaitFailed) in
    snd (step cfg st WaitFailed) = true
    /\ all_inactive (thread_map st')
    /\ exit_evolves (fun _ => -1) (thread_map st) (thread_map st')
    /\ operations st' = operations st
    /\ in_syscall st' = in_syscall st.
Proof.
  intros cfg st. cbn [step fst snd thread_map with_map operations in_syscall].
  destruct (exit_loop_effect is_active (map_keys (thread_map st)) (thread_map st))
    as [E A]. cbv zeta in E, A.
  split; [reflexivity|]. split; [|split; [exact E | split; reflexivity]].
  apply (all_inactive_from_keys (thread_map st)); [exact E|].
  intros t Ht. apply A; [exact Ht|]. intros acc _ Hact. exact Hact.
Qed.

(** X12. The exit of the root tears down the trace.  When the report is the
    exit (or death by signal) of the root tracee and every detach succeeds,
    no record is active afterwards and the iteration does not leave the
    loop; a report of "no child processes" handled in the state this
    iteration leaves, with no other report in between, does leave it.
    (Nothing is said about a later such report: a stop of a TID without a
    record in between registers an active record again.) *)
Theorem root_exit_teardown :
  forall (cfg : Config) (st : State) (status : Z) (k : StopOracle),
    WIFEXITED status || WIFSIGNALED status = true ->
    (forall t, detach_ok k t = true) ->
    let st' := fst (step cfg st (WaitStatus (child cfg) status k)) in
    snd (step cfg st (WaitStatus (child cfg) status k)) = false
    /\ all_inactive (thread_map st')
    /\ (forall env probe, snd (step cfg st' (WaitECHILD env probe)) = true).
Proof.
  intros cfg st status k Hexit Hdetach. cbn [step]. rewrite Hexit. cbn [fst snd].
  split; [reflexivity|].
  assert (Hall : all_inactive
                   (thread_map (handle_exit_report cfg k (child cfg) status st))).
  { unfold handle_exit_report. rewrite Z.eqb_refl. cbn [thread_map with_map].
    set (code := if WIFEXITED status then WEXITSTATUS status else -1).
    set (m1 := handle_thread_exit (child cfg) code (thread_map st)).
    assert (Hroot : is_active m1 (child cfg) = false)
      by apply RegistryExtra.handle_thread_exit_fuel_target.
    destruct (exit_loop_effect
                (fun m t => is_active m t && negb (t =? child cfg) && detach_ok k t)
                (map_keys m1) m1) as [E A]. cbv zeta in E, A.
    apply (all_inactive_from_keys m1); [exact E|].
    intros t Ht. destruct (Z.eqb_spec t (child cfg)) as [->|Hne].
    - eapply RegistryExtra.exit_evolves_shrinks; eassumption.
    - apply A; [exact Ht|]. intros acc _ Hact.
      rewrite Hact, Hdetach.
      destruct (Z.eqb_spec t (child cfg)); [contradiction | reflexivity]. }
  split; [exact Hall|].
  intros env probe.
  apply (echild_stops_when_all_inactive cfg _ env probe). exact Hall.
Qed.

(** X13. "No child processes".  On ECHILD every active tracee is probed;
    those that are gone (ESRCH) are exited with status -1, together with
    what an exit takes along, and nothing else changes.  The loop is left
    exactly when no active tracee answered the probe. *)
Theorem echild_cleanup :
  forall (cfg : Config) (st : State) (env : FsEnv) (probe : Z -> KillResult),
    let st' := fst (step cfg st (WaitECHILD env probe)) in
    exit_evolves (fun _ => -1) (thread_map st) (thread_map st')
    /\ (forall t, is_active (thread_map st) t = true ->
                  probe t = KillESRCH -> is_active (thread_map st') t = false)
    /\ (snd (step cfg st (WaitECHILD env probe)) = true
        <-> forall t, is_active (thread_map st) t = true -> probe t <> KillOk)
    /\ operations st' = operations st
    /\ in_syscall st' = in_syscall st.
Proof.
  intros cfg st env probe.
  cbn [step fst snd thread_map with_map operations in_syscall].
  set (m := thread_map st).
  set (actives := filter (fun tid => is_active m tid = true) (map_keys m)).
  set (dead := filter (fun tid => probe tid = KillESRCH) actives).
  destruct (exit_loop_effect (fun _ _ => true) dead m) as [E A].
  cbv zeta in E, A.
  split; [exact E|]. split; [|split; [|split; reflexivity]].
  - intros t Hact Hdead. apply A; [|reflexivity].
    unfold dead, actives. rewrite !list_elem_of_filter.
    split; [exact Hdead|]. split; [exact Hact|].
    apply is_active_registered. exact Hact.
  - rewrite negb_true_iff. split.
    + intros Hnone t Hact Hok.
      assert (Hex : existsb
                (fun tid => match probe tid with KillOk => true | _ => false end)
                actives = true).
      { apply existsb_exists. exists t. split; [|rewrite Hok; reflexivity].
        apply list_elem_of_In. unfold actives. rewrite list_elem_of_filter.
        split; [exact Hact | apply is_active_registered; exact Hact]. }
      congruence.
    + intros Hnone.
      destruct (existsb _ actives) eqn:Hex; [|reflexivity].
      apply existsb_exists in Hex. destruct Hex as (t & Hin & Hok).
      apply list_elem_of_In in Hin. unfold actives in Hin.
      rewrite list_elem_of_filter in Hin. destruct Hin as [Hact _].
      specialize (Hnone t Hact). destruct (probe t); congruence.
Qed.

(** The state in which the root 100 has the child process 101, and the
    report that 100 exited with code 0. *)
Lemma root_exit_teardown_witness :
  let st := with_map (initial_state Samples.plain_env Samples.sample_cfg)
              (handle_thread_creation Samples.plain_env 100 101 true
                 (thread_map (initial_state Samples.plain_env Samples.sample_cfg))) in
  let k := Samples.clean_oracle Samples.plain_env Samples.regs_getpid None None in
  is_active (thread_map st) 101 = true
  /\ all_inactive (thread_map (fst (step Samples.sample_cfg st (WaitStatus 100 0 k)))).
Proof.
  intros st k. split; [reflexivity|].
  apply (root_exit_teardown Samples.sample_cfg st 0 k);
    [reflexivity | intros t; reflexivity].
Defined.

(** *** Classification at syscall entry *)

Lemma exit_of_active (tid status : Z) (m : thread_map_t) (info : ThreadInfo) :
  m !! tid = Some info -> active info = true ->
  handle_thread_exit tid status m !! tid = Some (mark_exited status info).
Proof.
  intros Hlook Hact.
  pose proof (RegistryExtra.handle_thread_exit_fuel_evolves
                (S (size m)) tid status m tid) as E.
  pose proof (RegistryExtra.handle_thread_exit_fuel_target
                (size m) tid status m) as T.
  fold (handle_thread_exit tid status m) in E, T.
  rewrite Hlook in E. destruct E as [E | [_ E]].
  - unfold is_active in T. rewrite E in T. congruence.
  - rewrite E. unfold status_at. rewrite decide_True by reflexivity. reflexivity.
Qed.

(** X14. exit and exit_group at syscall entry.  For an active tracee the
    classifier marks its record inactive and stores the first argument
    register, converted to [int], as the exit status; the record's other
    fields and the event log are unchanged. *)
Theorem handle_syscall_entry_exit :
  forall (env : FsEnv) (k : CloneOracle) (flag : bool) (base : string)
         (pid : Z) (regs : Regs) (m : thread_map_t) (ops : list FileOperation)
         (info : ThreadInfo),
    is_exit_syscall regs = true ->
    m !! pid = Some info ->
    active info = true ->
    fst (handle_syscall_entry env k flag base pid regs m ops) !! pid
    = Some (mark_exited (to_int (rdi regs)) info)
    /\ snd (handle_syscall_entry env k flag base pid regs m ops) = ops.
Proof.
  intros env k flag base pid regs m ops info Hexit Hlook Hact.
  unfold handle_syscall_entry. rewrite Hexit.
  assert (Hc : is_creation_syscall regs = false /\ is_file_syscall regs = false).
  { unfold is_exit_syscall, is_creation_syscall, is_file_syscall,
      SYS_exit, SYS_exit_group, SYS_clone, SYS_fork, SYS_vfork, SYS_open,
      SYS_openat, SYS_execve in *.
    apply orb_true_iff in Hexit. rewrite !Z.eqb_eq in Hexit.
    destruct Hexit as [E|E]; rewrite E; split; reflexivity. }
  destruct Hc as [Hc Hf]. rewrite Hc, Hf. cbn [fst snd].
  split; [|reflexivity]. apply exit_of_active; assumption.
Qed.

(** The root 100 calls exit_group(2^32 + 3): the stored status is 3. *)
Lemma handle_syscall_entry_exit_witness :
  let regs := {| orig_rax := SYS_exit_group; rax := 0;
                 rdi := 2 ^ 32 + 3; rsi := 0 |} in
  let m := thread_map (initial_state Samples.plain_env Samples.sample_cfg) in
  (exit_status <$>
     fst (handle_syscall_entry Samples.plain_env
            (clone_oracle (Samples.clean_oracle Samples.plain_env regs None None))
            false "/tmp" 100 regs m []) !! 100)
  = Some 3.
Proof.
  intros regs m.
  destruct (handle_syscall_entry_exit Samples.plain_env
              (clone_oracle (Samples.clean_oracle Samples.plain_env regs None None))
              false "/tmp" 100 regs m []
              {| thread_id := 100; parent_pid := 0; name := "main";
                 active := true; process_type := PROCESS;
                 child_processes := []; child_threads := [];
                 creation_time := 1000; exit_status := -1 |})
    as [E _]; [reflexivity | reflexivity | reflexivity |].
  rewrite E. reflexivity.
Defined.

Lemma fresh_record (env : FsEnv) (parent tid : Z) (is_process : bool)
    (m : thread_map_t) :
  m !! tid = None ->
  handle_thread_creation env parent tid is_process m !! tid
  = Some {| thread_id := tid; parent_pid := parent;
            name := get_thread_name env tid; active := true;
            process_type := if is_process then PROCESS else THREAD;
            child_processes := []; child_threads := [];
            creation_time := now env; exit_status := -1 |}.
Proof.
  intros Hlook. unfold handle_thread_creation. rewrite Hlook.
  apply lookup_insert_eq.
Qed.

(** X15. fork, vfork and clone at syscall entry.  When the tracee could be
    resumed and waited for and the return register then holds a positive
    TID that has no record yet, the classifier registers that TID with the
    calling tracee as its parent, as a process for fork and vfork, and for
    clone as a thread exactly when the CLONE_THREAD bit of the first
    argument register is set; the event log is unchanged. *)
Theorem handle_syscall_entry_creation :
  forall (env : FsEnv) (k : CloneOracle) (flag : bool) (base : string)
         (pid : Z) (regs post : Regs) (m : thread_map_t)
         (ops : list FileOperation),
    is_creation_syscall regs = true ->
    clone_resume_ok k = true ->
    clone_wait_ok k = true ->
    clone_post_regs k = Some post ->
    0 < to_long (rax post) ->
    m !! to_int (to_long (rax post)) = None ->
    let new_tid := to_int (to_long (rax post)) in
    let m' := fst (handle_syscall_entry env k flag base pid regs m ops) in
    (parent_pid <$> m' !! new_tid) = Some pid
    /\ (active <$> m' !! new_tid) = Some true
    /\ (process_type <$> m' !! new_tid)
       = Some (if (orig_rax regs =? SYS_clone)
                  && negb (Z.land (rdi regs) CLONE_THREAD =? 0)
               then THREAD else PROCESS)
    /\ snd (handle_syscall_entry env k flag base pid regs m ops) = ops.
Proof.
  intros env k flag base pid regs post m ops Hc Hr Hw Hp Hpos Hnew new_tid m'.
  subst m'. unfold handle_syscall_entry.
  rewrite Hc, Hr, Hw, Hp. cbn [negb].
  destruct (Z.ltb_spec 0 (to_long (rax post))) as [_|?]; [|lia].
  assert (He : is_exit_syscall regs = false /\ is_file_syscall regs = false
               /\ entry_is_process regs
                  = negb ((orig_rax regs =? SYS_clone)
                          && negb (Z.land (rdi regs) CLONE_THREAD =? 0))).
  { unfold is_exit_syscall, is_creation_syscall, is_file_syscall,
      entry_is_process, SYS_exit, SYS_exit_group, SYS_clone, SYS_fork,
      SYS_vfork, SYS_open, SYS_openat, SYS_execve, CLONE_THREAD in *.
    apply orb_true_iff in Hc. destruct Hc as [Hc|Hc];
      [apply orb_true_iff in Hc; destruct Hc as [Hc|Hc]|];
      apply Z.eqb_eq in Hc; rewrite Hc; cbn;
      destruct (Z.land (rdi regs) 65536 =? 0); repeat split. }
  destruct He as (He & Hf & Hkind). rewrite He, Hf. cbn [fst snd].
  fold new_tid. rewrite (fresh_record env pid new_tid _ m Hnew).
  cbn [fmap option_fmap option_map parent_pid active process_type].
  rewrite Hkind.
  destruct ((orig_rax regs =? SYS_clone)
            && negb (Z.land (rdi regs) CLONE_THREAD =? 0)); repeat split.
Qed.

(** The root 100 calls clone(CLONE_VM) and the return register holds
    101: the new tracee is a process. *)
Lemma handle_syscall_entry_creation_witness :
  let post := {| orig_rax := SYS_clone; rax := 101; rdi := 256; rsi := 0 |} in
  let k := clone_oracle (Samples.clean_oracle Samples.plain_env
                           Samples.regs_clone_vm None (Some post)) in
  let m := thread_map (initial_state Samples.plain_env Samples.sample_cfg) in
  (process_type <$>
     fst (handle_syscall_entry Samples.plain_env k false "/tmp" 100
            Samples.regs_clone_vm m []) !! 101)
  = Some PROCESS.
Proof.
  intros post k m.
  destruct (handle_syscall_entry_creation Samples.plain_env k false "/tmp" 100
              Samples.regs_clone_vm post m [])
    as (_ & _ & E & _); [reflexivity .. | exact E].
Defined.

(** *** Fork and vfork events *)

(** X16. A fork or vfork event stop whose event message names a TID that has
    no record yet registers that TID as an active process with the stopped
    tracee as its parent; the log and the flip-flop are unchanged. *)
Theorem fork_event_registers_process :
  forall (k : StopOracle) (waited_pid status new_pid : Z) (st : State),
    is_event status PTRACE_EVENT_FORK || is_event status PTRACE_EVENT_VFORK = true ->
    eventmsg k = Some new_pid ->
    thread_map st !! to_int new_pid = None ->
    let st' := handle_event_stop k waited_pid status st in
    (process_type <$> thread_map st' !! to_int new_pid) = Some PROCESS
    /\ (parent_pid <$> thread_map st' !! to_int new_pid) = Some waited_pid
    /\ (active <$> thread_map st' !! to_int new_pid) = Some true
    /\ operations st' = operations st
    /\ in_syscall st' = in_syscall st.
Proof.
  intros k waited_pid status new_pid st Hev Hmsg Hnew st'. subst st'.
  unfold handle_event_stop. rewrite Hmsg, Hev.
  cbn [thread_map with_map operations in_syscall].
  rewrite (fresh_record (fs k) waited_pid (to_int new_pid) true _ Hnew).
  repeat split.
Qed.

(** The root 100 forks 101 (status 0x1057f). *)
Lemma fork_event_registers_process_witness :
  let k := Samples.clean_oracle Samples.plain_env Samples.regs_getpid
             (Some 101) None in
  let st := initial_state Samples.plain_env Samples.sample_cfg in
  (process_type <$> thread_map (handle_event_stop k 100 66943 st) !! 101)
  = Some PROCESS.
Proof.
  intros k st.
  destruct (fork_event_registers_process k 100 66943 101 st) as (E & _);
    [reflexivity .. | exact E].
Defined.

(** *** The retry loops *)

Lemma getregs_retry_run (k : StopOracle) (pid : Z) (m : thread_map_t)
    (left : nat) :
  forall (start j : nat),
    (forall i, (i < j)%nat ->
       getregs k (start + i) = PEINVAL
       /\ kill_in_regs_retry k (start + i) <> KillESRCH) ->
    ((j < left)%nat ->
     forall regs, getregs k (start + j) = POk regs ->
     getregs_retry k left start pid m = (Some regs, m))
    /\ ((left <= j)%nat -> getregs_retry k left start pid m = (None, m)).
Proof.
  induction left as [|left IH]; intros start j Hfail.
  - split; [lia | reflexivity].
  - cbn [getregs_retry]. destruct j as [|j].
    + split; [|lia]. intros _ regs Hok.
      rewrite Nat.add_0_r in Hok. rewrite Hok. reflexivity.
    + destruct (Hfail 0%nat ltac:(lia)) as [H0 K0].
      rewrite Nat.add_0_r in H0, K0. rewrite H0.
      assert (Hrest : forall i, (i < j)%nat ->
                getregs k (S start + i) = PEINVAL
                /\ kill_in_regs_retry k (S start + i) <> KillESRCH).
      { intros i Hi. specialize (Hfail (S i) ltac:(lia)).
        replace (S start + i)%nat with (start + S i)%nat by lia. exact Hfail. }
      destruct (IH (S start) j Hrest) as [Hs Hn].
      replace (start + S j)%nat with (S start + j)%nat by lia.
      destruct (kill_in_regs_retry k start); try contradiction;
        (split; [intros Hj regs Hok; apply Hs; [lia | exact Hok]
                | intros Hj; apply Hn; lia]).
Qed.

(** X17. The register-read retries.  While PTRACE_GETREGS fails with EINVAL
    and the tracee still exists, the read is tried again, five times in
    all: a success at one of the first five attempts yields the registers,
    and after five such failures the loop gives up; in both cases the loop
    itself leaves the registry as it was. *)
Theorem getregs_retry_discipline :
  forall (k : StopOracle) (pid : Z) (m : thread_map_t) (j : nat),
    (forall i, (i < j)%nat ->
       getregs k i = PEINVAL /\ kill_in_regs_retry k i <> KillESRCH) ->
    ((j < 5)%nat ->
     forall regs, getregs k j = POk regs ->
     getregs_retry k 5 0 pid m = (Some regs, m))
    /\ ((5 <= j)%nat -> getregs_retry k 5 0 pid m = (None, m)).
Proof.
  intros k pid m j Hfail.
  apply (getregs_retry_run k pid m 5 0 j). exact Hfail.
Qed.

Lemma resume_retry_run (k : StopOracle) (pid : Z) (m : thread_map_t)
    (left : nat) :
  forall (start j : nat),
    (forall i, (i < j)%nat ->
       (resume k (start + i) = PEINVAL \/ resume k (start + i) = PEIO)
       /\ kill_in_resume_retry k (start + i) <> KillESRCH) ->
    ((j < left)%nat ->
     resume k (start + j) = POk tt ->
     resume_retry k left start pid m = (true, m))
    /\ ((left <= j)%nat -> resume_retry k left start pid m = (false, m)).
Proof.
  induction left as [|left IH]; intros start j Hfail.
  - split; [lia | reflexivity].
  - cbn [resume_retry]. destruct j as [|j].
    + split; [|lia]. intros _ Hok.
      rewrite Nat.add_0_r in Hok. rewrite Hok. reflexivity.
    + destruct (Hfail 0%nat ltac:(lia)) as [H0 K0].
      rewrite Nat.add_0_r in H0, K0.
      assert (Hrest : forall i, (i < j)%nat ->
                (resume k (S start + i) = PEINVAL
                 \/ resume k (S start + i) = PEIO)
                /\ kill_in_resume_retry k (S start + i) <> KillESRCH).
      { intros i Hi. specialize (Hfail (S i) ltac:(lia)).
        replace (S start + i)%nat with (start + S i)%nat by lia. exact Hfail. }
      destruct (IH (S start) j Hrest) as [Hs Hn].
      replace (start + S j)%nat with (S start + j)%nat by lia.
      destruct H0 as [H0|H0]; rewrite H0;
        destruct (kill_in_resume_retry k start); try contradiction;
        (split; [intros Hj Hok; apply Hs; [lia | exact Hok]
                | intros Hj; apply Hn; lia]).
Qed.

(** X18. The resume retries.  While PTRACE_SYSCALL fails with EINVAL or EIO
    and the tracee still exists, the resume is tried again, three times in
    all: a success at one of the first three attempts resumes the tracee,
    and after three such failures the loop gives up; in both cases the loop
    itself leaves the registry as it was. *)
Theorem resume_retry_discipline :
  forall (k : StopOracle) (pid : Z) (m : thread_map_t) (j : nat),
    (forall i, (i < j)%nat ->
       (resume k i = PEINVAL \/ resume k i = PEIO)
       /\ kill_in_resume_retry k i <> KillESRCH) ->
    ((j < 3)%nat -> resume k j = POk tt ->
     resume_retry k 3 0 pid m = (true, m))
    /\ ((3 <= j)%nat -> resume_retry k 3 0 pid m = (false, m)).
Proof.
  intros k pid m j Hfail.
  apply (resume_retry_run k pid m 3 0 j). exact Hfail.
Qed.


(** Two EINVAL failures, then the registers. *)
Lemma getregs_retry_discipline_witness :
  getregs_retry (Samples.flaky_oracle 2) 5 0 100 ∅
  = (Some Samples.regs_getpid, ∅).
Proof.
  destruct (getregs_retry_discipline (Samples.flaky_oracle 2) 100 ∅ 2) as [H _].
  - intros i Hi. destruct i as [|[|i]]; [split; [reflexivity|discriminate] ..|lia].
  - apply H; [lia | reflexivity].
Defined.

(** Two EIO failures, then the tracee is resumed. *)
Lemma resume_retry_discipline_witness :
  resume_retry (Samples.flaky_oracle 2) 3 0 100 ∅ = (true, ∅).
Proof.
  destruct (resume_retry_discipline (Samples.flaky_oracle 2) 100 ∅ 2) as [H _].
  - intros i Hi.
    destruct i as [|[|i]];
      [split; [right; reflexivity|discriminate] ..|lia].
  - apply H; [lia | reflexivity].
Defined.
End SupervisorExtra.

(** ** The directory tree: further properties *)

Module TreeExtra.
Import Tree TreeRel.

(** *** Insertion and lookup *)

Lemma map_find_replace_ne (key k : string) (v : DirectoryNode)
    (m : list (string * DirectoryNode)) :
  k <> key -> map_find k (map_replace key v m) = map_find k m.
Proof.
  intros Hne. induction m as [|[k0 x] m IH]; simpl; [reflexivity|].
  destruct (String.eqb_spec key k0) as [->|Hk]; simpl.
  - destruct (String.eqb_spec k k0); [contradiction | reflexivity].
  - destruct (String.eqb k k0); [reflexivity | exact IH].
Qed.

Lemma map_find_add_ne (key k : string) (v : DirectoryNode)
    (m : list (string * DirectoryNode)) :
  k <> key -> map_find k (map_add key v m) = map_find k m.
Proof.
  intros Hne. induction m as [|[k0 x] m IH]; simpl.
  - destruct (String.eqb_spec k key); [contradiction | reflexivity].
  - destruct (String.ltb key k0); simpl.
    + destruct (String.eqb_spec k key); [contradiction | reflexivity].
    + destruct (String.eqb k k0); [reflexivity | exact IH].
Qed.

Lemma find_path_touch (q : list string) (s t : Z) (n : string)
    (node : DirectoryNode) (b : bool) :
  q <> [] ->
  find_path q (if b then touch s t n node else node) = find_path q node.
Proof. destruct q; [congruence|]. destruct b; reflexivity. Qed.

Lemma insert_components_lookup (components : list string) :
  forall (current_path : string) (s t : Z) (n : string) (node : DirectoryNode),
    components <> [] ->
    exists leaf : DirectoryNode,
      find_path components
        (insert_components components current_path s t n node) = Some leaf
      /\ is_file leaf = true /\ sequence_number leaf = s
      /\ thread_id leaf = Some t /\ thread_name leaf = n.
Proof.
  induction components as [|c rest IH]; intros current_path s t n node Hne;
    [congruence|].
  cbn [insert_components find_path].
  set (cp := path_append current_path c).
  assert (Hdescend : forall child : DirectoryNode,
    exists leaf : DirectoryNode,
      find_path rest
        (insert_components rest cp s t n
           (if match rest with [] => true | _ => false end
            then touch s t n child else child)) = Some leaf
      /\ is_file leaf = true /\ sequence_number leaf = s
      /\ thread_id leaf = Some t /\ thread_name leaf = n).
  { intros child. destruct rest as [|c' rest'].
    - eexists. split; [reflexivity|]. repeat split.
    - apply IH. discriminate. }
  destruct (map_find c (children node)) as [child|] eqn:Hfind;
    destruct node as [nm p f sq ti tn cs]; cbn [with_children children] in *.
  - rewrite TreeFacts.map_find_replace by (rewrite Hfind; eauto).
    apply Hdescend.
  - rewrite TreeFacts.map_find_add by exact Hfind. apply Hdescend.
Qed.

(** X19. Insert, then look up.  After [insert_file] of a path with at least
    one component, following the components of the normalized path from the
    root reaches a node that is marked as a file and carries the sequence
    number, thread id and thread name just given. *)
Theorem insert_file_lookup :
  forall (env : FsEnv) (path : string) (s t : Z) (n : string)
         (root : DirectoryNode),
    path_components (path_utils.normalize_path env path) <> [] ->
    exists leaf : DirectoryNode,
      find_path (path_components (path_utils.normalize_path env path))
        (insert_file env path s t n root) = Some leaf
      /\ is_file leaf = true /\ sequence_number leaf = s
      /\ thread_id leaf = Some t /\ thread_name leaf = n.
Proof.
  intros env path s t n root Hne. unfold insert_file.
  apply insert_components_lookup. exact Hne.
Qed.

(** "/tmp/a.txt" in the empty tree. *)
Lemma insert_file_lookup_witness :
  exists leaf : DirectoryNode,
    find_path ["tmp"; "a.txt"]%string
      (insert_file Samples.plain_env "/tmp/a.txt" 1 100 "main" empty_tree)
    = Some leaf
    /\ is_file leaf = true /\ sequence_number leaf = 1
    /\ thread_id leaf = Some 100 /\ thread_name leaf = "main"%string.
Proof.
  apply (insert_file_lookup Samples.plain_env "/tmp/a.txt" 1 100 "main" empty_tree).
  discriminate.
Defined.

Lemma insert_components_frame (components : list string) :
  forall (current_path : string) (s t : Z) (n : string) (node : DirectoryNode)
         (q : list string),
    ~ q `prefix_of` components ->
    find_path q (insert_components components current_path s t n node)
    = find_path q node.
Proof.
  induction components as [|c rest IH];
    intros current_path s t n node q Hq; [reflexivity|].
  destruct q as [|k q']; [exfalso; apply Hq; apply prefix_nil|].
  cbn [insert_components find_path].
  set (cp := path_append current_path c).
  destruct (String.eqb_spec k c) as [->|Hk].
  - assert (Hq' : ~ q' `prefix_of` rest).
    { intros Hp. apply Hq. apply prefix_cons. exact Hp. }
    assert (Hq'ne : q' <> []).
    { intros ->. apply Hq'. apply prefix_nil. }
    destruct (map_find c (children node)) as [child|] eqn:Hfind;
      destruct node as [nm p f sq ti tn cs]; cbn [with_children children] in *.
    + rewrite TreeFacts.map_find_replace by (rewrite Hfind; eauto).
      rewrite IH by exact Hq'. apply find_path_touch. exact Hq'ne.
    + rewrite TreeFacts.map_find_add by exact Hfind.
      rewrite IH by exact Hq'. rewrite find_path_touch by exact Hq'ne.
      destruct q'; [congruence | reflexivity].
  - destruct (map_find c (children node)) as [child|] eqn:Hfind;
      destruct node as [nm p f sq ti tn cs]; cbn [with_children children] in *.
    + rewrite map_find_replace_ne by exact Hk. reflexivity.
    + rewrite map_find_add_ne by exact Hk. reflexivity.
Qed.

(** X20. Insertion leaves the rest of the tree alone.  For every sequence
    of components that is not a prefix of the inserted path, the lookup
    gives the same answer after [insert_file] as before: the same subtree
    if there was one, nothing if there was none. *)
Theorem insert_file_frame :
  forall (env : FsEnv) (path : string) (s t : Z) (n : string)
         (root : DirectoryNode) (q : list string),
    ~ q `prefix_of` path_components (path_utils.normalize_path env path) ->
    find_path q (insert_file env path s t n root) = find_path q root.
Proof.
  intros env path s t n root q Hq. unfold insert_file.
  apply insert_components_frame. exact Hq.
Qed.

(** Inserting "/tmp/b.txt" does not change what is at "/tmp/a.txt". *)
Lemma insert_file_frame_witness :
  let tree := insert_file Samples.plain_env "/tmp/a.txt" 1 100 "main" empty_tree in
  find_path ["tmp"; "a.txt"]%string
    (insert_file Samples.plain_env "/tmp/b.txt" 2 101 "worker" tree)
  = find_path ["tmp"; "a.txt"]%string tree.
Proof.
  intros tree.
  apply (insert_file_frame Samples.plain_env "/tmp/b.txt" 2 101 "worker" tree).
  intros [k Hk]. vm_compute in Hk. discriminate.
Defined.

Lemma insert_components_fields (components : list string) :
  forall (current_path : string) (s t : Z) (n : string) (node : DirectoryNode),
    full_path (insert_components components current_path s t n node)
    = full_path node
    /\ (components <> [] ->
        is_file (insert_components components current_path s t n node)
        = is_file node).
Proof.
  destruct components as [|c rest]; intros; [split; [reflexivity|congruence]|].
  cbn [insert_components].
  destruct (map_find c (children node)); destruct node; split; reflexivity.
Qed.

Lemma insert_components_keeps_nodes (components : list string) :
  forall (current_path : string) (s t : Z) (n : string) (node : DirectoryNode)
         (q : list string) (old : DirectoryNode),
    find_path q node = Some old ->
    exists new : DirectoryNode,
      find_path q (insert_components components current_path s t n node)
      = Some new
      /\ name new = name old /\ full_path new = full_path old
      /\ (is_file old = true -> is_file new = true).
Proof.
  induction components as [|c rest IH];
    intros current_path s t n node q old Hold.
  - exists old. repeat split; auto.
  - destruct q as [|k q'].
    + injection Hold as <-. eexists. split; [reflexivity|].
      split; [apply TreeFacts.insert_components_name|].
      destruct (insert_components_fields (c :: rest) current_path s t n node)
        as [Hp Hf].
      split; [exact Hp|]. intros H. rewrite Hf by discriminate. exact H.
    + cbn [find_path] in Hold. cbn [insert_components find_path].
      set (cp := path_append current_path c).
      destruct (map_find k (children node)) as [ch|] eqn:Hk; [|discriminate].
      destruct (String.eqb_spec k c) as [->|Hne].
      * rewrite Hk. destruct node as [nm p f sq ti tn cs].
        cbn [with_children children] in *.
        rewrite TreeFacts.map_find_replace by (rewrite Hk; eauto).
        destruct rest as [|c' rest'].
        -- cbn [insert_components]. destruct q' as [|k' q''].
           ++ injection Hold as <-. eexists. split; [reflexivity|].
              repeat split.
           ++ exists old. split; [exact Hold|]. repeat split; auto.
        -- apply IH. exact Hold.
      * destruct (map_find c (children node)) as [child|] eqn:Hfind;
          destruct node as [nm p f sq ti tn cs]; cbn [with_children children] in *.
        -- rewrite map_find_replace_ne by exact Hne. rewrite Hk.
           exists old. repeat split; auto.
        -- rewrite map_find_add_ne by exact Hne. rewrite Hk.
           exists old. repeat split; auto.
Qed.

(** X21. Insertion loses and renames nothing.  Every node that could be
    reached before [insert_file] can be reached by the same components
    afterwards, with the same name and full path; a node that was marked as
    a file stays marked as a file. *)
Theorem insert_file_keeps_nodes :
  forall (env : FsEnv) (path : string) (s t : Z) (n : string)
         (root : DirectoryNode) (q : list string) (old : DirectoryNode),
    find_path q root = Some old ->
    exists new : DirectoryNode,
      find_path q (insert_file env path s t n root) = Some new
      /\ name new = name old /\ full_path new = full_path old
      /\ (is_file old = true -> is_file new = true).
Proof.
  intros env path s t n root q old Hold. unfold insert_file.
  apply insert_components_keeps_nodes. exact Hold.
Qed.

(** The directory "/tmp" is still there after "/tmp/b.txt" is inserted. *)
Lemma insert_file_keeps_nodes_witness :
  let tree := insert_file Samples.plain_env "/tmp/a.txt" 1 100 "main" empty_tree in
  exists new : DirectoryNode,
    find_path ["tmp"]%string
      (insert_file Samples.plain_env "/tmp/b.txt" 2 101 "worker" tree) = Some new
    /\ name new = "tmp"%string /\ full_path new = "/tmp"%string.
Proof.
  intros tree.
  destruct (insert_file_keeps_nodes Samples.plain_env "/tmp/b.txt" 2 101 "worker"
              tree ["tmp"]%string
              (default empty_tree (find_path ["tmp"]%string tree)))
    as (new & Hn & Hname & Hpath & _); [reflexivity|].
  exists new. split; [exact Hn|]. split; [exact Hname | exact Hpath].
Defined.


(** *** Names and full paths of the nodes of a built tree *)

Lemma paths_consistent_unfold (node : DirectoryNode) :
  paths_consistent node
  <-> Forall (fun kc => full_path (snd kc) = path_append (full_path node) (fst kc)
                        /\ paths_consistent (snd kc))
        (children node).
Proof.
  destruct node as [n p f sq ti tn cs]. cbn [paths_consistent children full_path].
  induction cs as [|[k c] l IH].
  - split; [constructor | trivial].
  - split.
    + intros (H1 & H2 & H3). constructor; [split; assumption | apply IH; exact H3].
    + intros H. inversion H as [|? ? [H1 H2] H3]; subst.
      split; [exact H1|]. split; [exact H2 | apply IH; exact H3].
Qed.

Lemma insert_components_paths (components : list string) :
  forall (s t : Z) (n : string) (node : DirectoryNode),
    paths_consistent node ->
    paths_consistent (insert_components components (full_path node) s t n node).
Proof.
  induction components as [|c rest IH]; intros s t n node Hnode; [exact Hnode|].
  cbn [insert_components].
  set (cp := path_append (full_path node) c).
  assert (Hdescend : forall child : DirectoryNode,
    full_path child = cp -> paths_consistent child ->
    let child' := insert_components rest cp s t n
                    (if match rest with [] => true | _ => false end
                     then touch s t n child else child) in
    full_path child' = cp /\ paths_consistent child').
  { intros child Hp Hc. cbv zeta.
    set (start := if match rest with [] => true | _ => false end
                  then touch s t n child else child).
    assert (Hsp : full_path start = cp)
      by (subst start; destruct rest; destruct child; exact Hp).
    assert (Hsc : paths_consistent start).
    { subst start. destruct rest; [|exact Hc].
      apply paths_consistent_unfold. apply paths_consistent_unfold in Hc.
      destruct child; exact Hc. }
    split.
    - rewrite (proj1 (insert_components_fields rest cp s t n start)). exact Hsp.
    - rewrite <- Hsp. apply IH. exact Hsc. }
  pose proof (proj1 (paths_consistent_unfold node) Hnode) as Hall.
  destruct (map_find c (children node)) as [child|] eqn:Hfind.
  - apply paths_consistent_unfold.
    assert (Hchild : full_path child = cp /\ paths_consistent child).
    { apply TreeFacts.map_find_In in Hfind.
      rewrite List.Forall_forall in Hall. exact (Hall _ Hfind). }
    destruct Hchild as [Hp Hc].
    destruct node as [nm p f sq ti tn cs];
      cbn [with_children children full_path] in *.
    apply TreeFacts.map_replace_Forall; [exact Hall|].
    apply Hdescend; assumption.
  - apply paths_consistent_unfold.
    destruct node as [nm p f sq ti tn cs];
      cbn [with_children children full_path] in *.
    apply TreeFacts.map_add_Forall; [exact Hall|].
    apply Hdescend; [reflexivity|].
    apply paths_consistent_unfold. constructor.
Qed.

Lemma build_tree_invariant (env : FsEnv)
    (operations : list Supervisor.FileOperation) :
  well_formed (build_tree env operations)
  /\ paths_consistent (build_tree env operations)
  /\ full_path (build_tree env operations) = "/"%string.
Proof.
  unfold build_tree.
  assert (H : forall tree : DirectoryNode,
    well_formed tree /\ paths_consistent tree /\ full_path tree = "/"%string ->
    let tree' :=
      foldl (fun tree op =>
               insert_file env (Supervisor.path op) (Supervisor.sequence op)
                 (Supervisor.op_thread_id op) (Supervisor.op_thread_name op) tree)
        tree operations in
    well_formed tree' /\ paths_consistent tree' /\ full_path tree' = "/"%string).
  { induction operations as [|op ops IH]; intros tree Htree; [exact Htree|].
    cbn [foldl]. apply IH. destruct Htree as (Hwf & Hpc & Hroot).
    unfold insert_file. split; [|split].
    - apply TreeFacts.insert_components_well_formed. exact Hwf.
    - rewrite <- Hroot. apply insert_components_paths. exact Hpc.
    - rewrite (proj1 (insert_components_fields _ _ _ _ _ _)). exact Hroot. }
  apply H. split; [split; constructor|]. split; [exact I | reflexivity].
Qed.

Lemma find_path_identity (q : list string) :
  forall node found : DirectoryNode,
    well_formed node -> paths_consistent node ->
    find_path q node = Some found ->
    full_path found = foldl path_append (full_path node) q
    /\ (q <> [] -> name found = List.last q ""%string)
    /\ well_formed found.
Proof.
  induction q as [|k q IH]; intros node found Hwf Hpc Hfind.
  - injection Hfind as <-. split; [reflexivity|]. split; [congruence | exact Hwf].
  - cbn [find_path] in Hfind.
    destruct (map_find k (children node)) as [child|] eqn:Hk; [|discriminate].
    apply TreeFacts.map_find_In in Hk.
    apply TreeFacts.well_formed_unfold in Hwf. destruct Hwf as [_ Hwf].
    apply paths_consistent_unfold in Hpc.
    rewrite List.Forall_forall in Hwf, Hpc.
    destruct (Hwf _ Hk) as [Hname Hwfc]. destruct (Hpc _ Hk) as [Hpath Hpcc].
    cbn [fst snd] in *.
    destruct (IH child found Hwfc Hpcc Hfind) as (Hp & Hn & Hw).
    split; [|split; [|exact Hw]].
    + cbn [foldl]. rewrite <- Hpath. exact Hp.
    + intros _. destruct q as [|k' q'].
      * injection Hfind as <-. exact Hname.
      * change (List.last (k :: k' :: q') ""%string)
          with (List.last (k' :: q') ""%string).
        apply Hn. discriminate.
Qed.

(** X22. Names and full paths in the tree of an event log.  In the tree
    [generate_html_output] builds, a node reached from the root by a
    non-empty sequence of components is named after the last of them, and
    its full path is "/" extended by the components in turn; the child maps
    of the tree have strictly ascending keys throughout. *)
Theorem build_tree_node_identity :
  forall (env : FsEnv) (operations : list Supervisor.FileOperation)
         (q : list string) (found : DirectoryNode),
    q <> [] ->
    find_path q (build_tree env operations) = Some found ->
    name found = List.last q ""%string
    /\ full_path found = foldl path_append "/"%string q
    /\ well_formed (build_tree env operations).
Proof.
  intros env operations q found Hq Hfind.
  destruct (build_tree_invariant env operations) as (Hwf & Hpc & Hroot).
  destruct (find_path_identity q _ found Hwf Hpc Hfind) as (Hp & Hn & _).
  split; [exact (Hn Hq)|]. split; [|exact Hwf].
  rewrite Hp, Hroot. reflexivity.
Qed.

(** The file "/tmp/a.txt" of a log of two opens. *)
Lemma build_tree_node_identity_witness :
  exists found : DirectoryNode,
    find_path ["tmp"; "a.txt"]%string
      (build_tree Samples.plain_env Samples.sample_log) = Some found
    /\ name found = "a.txt"%string /\ full_path found = "/tmp/a.txt"%string.
Proof.
  exists (default empty_tree
            (find_path ["tmp"; "a.txt"]%string
               (build_tree Samples.plain_env Samples.sample_log))).
  destruct (build_tree_node_identity Samples.plain_env Samples.sample_log
              ["tmp"; "a.txt"]%string
              (default empty_tree
                 (find_path ["tmp"; "a.txt"]%string
                    (build_tree Samples.plain_env Samples.sample_log))))
    as (Hn & Hp & _); [discriminate | reflexivity |].
  split; [reflexivity|]. split; [exact Hn | exact Hp].
Defined.


(** *** What the rendering contains *)

Lemma append_assoc (a b c : string) : (a +:+ b) +:+ c = a +:+ b +:+ c.
Proof.
  induction a as [|x a IH]; simpl; [reflexivity | rewrite IH; reflexivity].
Qed.

Lemma append_empty_r (a : string) : a +:+ "" = a.
Proof.
  induction a as [|x a IH]; simpl; [reflexivity | rewrite IH; reflexivity].
Qed.

Lemma occurs_refl (s : string) : occurs_in s s.
Proof. exists ""%string, ""%string. simpl. rewrite append_empty_r. reflexivity. Qed.

Lemma occurs_here (s b : string) : occurs_in s (s +:+ b).
Proof. exists ""%string, b. reflexivity. Qed.

Lemma occurs_skip (s a t : string) : occurs_in s t -> occurs_in s (a +:+ t).
Proof.
  intros (pre & post & ->). exists (a +:+ pre), post.
  rewrite append_assoc. reflexivity.
Qed.

Lemma occurs_left (s a b : string) : occurs_in s a -> occurs_in s (a +:+ b).
Proof.
  intros (pre & post & ->). exists pre, (post +:+ b).
  rewrite !append_assoc. reflexivity.
Qed.

Lemma occurs_trans (a b c : string) :
  occurs_in a b -> occurs_in b c -> occurs_in a c.
Proof.
  intros (p1 & q1 & ->) (p2 & q2 & ->). exists (p2 +:+ p1), (q1 +:+ q2).
  rewrite !append_assoc. reflexivity.
Qed.

Lemma occurs_concat (f : DirectoryNode -> string) (l : list DirectoryNode)
    (x : DirectoryNode) (sub : string) :
  In x l -> occurs_in sub (f x) -> occurs_in sub (concat_strings (map f l)).
Proof.
  intros Hin Hocc. induction l as [|y l IH]; [destruct Hin|].
  cbn [map concat_strings foldr]. destruct Hin as [->|Hin].
  - apply occurs_left. exact Hocc.
  - apply occurs_skip. apply IH. exact Hin.
Qed.

Lemma occurs_four (a b c d r : string) :
  occurs_in (a +:+ b +:+ c +:+ d) (a +:+ b +:+ c +:+ d +:+ r).
Proof.
  exists ""%string, r. simpl. rewrite !append_assoc. reflexivity.
Qed.

(** Finds the place of the searched text in a chain of appended pieces of
    which the text is one, or a tail. *)
Ltac occurs_chain :=
  lazymatch goal with
  | |- occurs_in ?s ?s => apply occurs_refl
  | |- occurs_in ?s (String.append ?a ?b) =>
      first [ apply occurs_left; occurs_chain | apply occurs_skip; occurs_chain ]
  end.

Lemma node_head_name (node : DirectoryNode) (indent : string) :
  occurs_in (name_line (name node)) (node_head node indent).
Proof.
  unfold node_head, name_line.
  do 10 apply occurs_skip. apply occurs_four.
Qed.

Lemma node_head_sequence (node : DirectoryNode) (indent : string) :
  is_file node = true -> 0 < sequence_number node ->
  occurs_in (sequence_line (sequence_number node)) (node_head node indent).
Proof.
  intros Hfile Hseq. unfold node_head, sequence_line.
  rewrite Hfile. apply Z.ltb_lt in Hseq. rewrite Hseq.
  occurs_chain.
Qed.

Lemma node_head_thread (node : DirectoryNode) (indent : string) (t : Z) :
  is_file node = true -> thread_id node = Some t ->
  thread_name node <> ""%string ->
  occurs_in (thread_line t (thread_name node)) (node_head node indent).
Proof.
  intros Hfile Htid Hname. unfold node_head, thread_line.
  rewrite Hfile, Htid. change (default 0 (Some t)) with t.
  assert (E : string_empty (thread_name node) = false)
    by (destruct (thread_name node); [congruence | reflexivity]).
  rewrite E. cbn [negb].
  occurs_chain.
Qed.

Lemma render_contains_head (d node : DirectoryNode) :
  in_tree d node ->
  forall depth : Z,
    exists depth' : Z,
      occurs_in (node_head d (spaces (Z.to_nat (depth' * 2))))
        (generate_html_node node depth).
Proof.
  induction 1 as [|node child Hin Hsub IH]; intros depth.
  - exists depth. rewrite TreeFacts.generate_html_node_unfold. cbv zeta.
    apply occurs_here.
  - destruct (IH (depth + 2)) as [depth' Hocc]. exists depth'.
    rewrite TreeFacts.generate_html_node_unfold. cbv zeta.
    assert (Hs : In child (sorted_children node)).
    { eapply Permutation_in; [symmetry; apply TreeFacts.sort_nodes_perm | exact Hin]. }
    destruct (children node) as [|kc cs] eqn:Hcs; [destruct Hin|].
    apply occurs_skip, occurs_left.
    do 3 apply occurs_skip. apply occurs_left.
    apply (occurs_concat (fun c => generate_html_node c (depth + 2))
             (sorted_children node) child); assumption.
Qed.

Lemma generate_html_contains_head (d root : DirectoryNode) :
  in_tree d root ->
  exists depth : Z,
    occurs_in (node_head d (spaces (Z.to_nat (depth * 2)))) (generate_html root).
Proof.
  intros Hin. destruct (render_contains_head d root Hin 0) as [depth Hocc].
  exists depth. unfold generate_html.
  do 2 apply occurs_skip. apply occurs_left. exact Hocc.
Qed.

Lemma find_path_in_tree (q : list string) :
  forall node d : DirectoryNode, find_path q node = Some d -> in_tree d node.
Proof.
  induction q as [|k q IH]; intros node d Hfind.
  - injection Hfind as <-. constructor.
  - cbn [find_path] in Hfind.
    destruct (map_find k (children node)) as [child|] eqn:Hk; [|discriminate].
    apply in_tree_below with child; [|apply IH; exact Hfind].
    apply TreeFacts.map_find_In in Hk.
    change child with (snd (k, child)). apply in_map. exact Hk.
Qed.

Lemma find_path_name (q : list string) :
  forall node found : DirectoryNode,
    well_formed node -> q <> [] ->
    find_path q node = Some found ->
    name found = List.last q ""%string.
Proof.
  induction q as [|k q IH]; intros node found Hwf Hq Hfind; [congruence|].
  cbn [find_path] in Hfind.
  destruct (map_find k (children node)) as [child|] eqn:Hk; [|discriminate].
  apply TreeFacts.map_find_In in Hk.
  apply TreeFacts.well_formed_unfold in Hwf. destruct Hwf as [_ Hwf].
  rewrite List.Forall_forall in Hwf.
  destruct (Hwf _ Hk) as [Hname Hwfc]. cbn [fst snd] in *.
  destruct q as [|k' q'].
  - injection Hfind as <-. exact Hname.
  - change (List.last (k :: k' :: q') ""%string)
      with (List.last (k' :: q') ""%string).
    apply (IH child); [exact Hwfc | discriminate | exact Hfind].
Qed.

(** X23. Every node of the tree is rendered.  The output of [generate_html]
    contains, for each node of the tree, the block the node writes about
    itself at some indentation, and within it the line with the node's
    name; for a node marked as a file it contains the line with the sequence
    number when that is positive, and the line with its thread id and
    thread name when the thread name is not empty. *)
Theorem generate_html_mentions_every_node :
  forall d root : DirectoryNode,
    in_tree d root ->
    (exists depth : Z,
       occurs_in (node_head d (spaces (Z.to_nat (depth * 2))))
         (generate_html root))
    /\ occurs_in (name_line (name d)) (generate_html root)
    /\ (is_file d = true -> 0 < sequence_number d ->
        occurs_in (sequence_line (sequence_number d)) (generate_html root))
    /\ (forall t : Z,
          is_file d = true -> thread_id d = Some t ->
          thread_name d <> ""%string ->
          occurs_in (thread_line t (thread_name d)) (generate_html root)).
Proof.
  intros d root Hin.
  destruct (generate_html_contains_head d root Hin) as [depth Hocc].
  split; [exists depth; exact Hocc|]. split; [|split].
  - eapply occurs_trans; [apply node_head_name | exact Hocc].
  - intros Hf Hs. eapply occurs_trans; [apply node_head_sequence | exact Hocc];
      assumption.
  - intros t Hf Ht Hn.
    eapply occurs_trans; [apply node_head_thread | exact Hocc]; assumption.
Qed.

(** The directory "tmp" of the tree holding "/tmp/a.txt". *)
Lemma generate_html_mentions_every_node_witness :
  occurs_in (name_line "tmp")
    (generate_html
       (insert_file Samples.plain_env "/tmp/a.txt" 1 100 "main" empty_tree)).
Proof.
  pose (root := insert_file Samples.plain_env "/tmp/a.txt" 1 100 "main" empty_tree).
  pose (d := default empty_tree (find_path ["tmp"]%string root)).
  assert (Hin : in_tree d root).
  { apply in_tree_below with d; [left; reflexivity | apply in_tree_here]. }
  exact (proj1 (proj2 (generate_html_mentions_every_node d root Hin))).
Defined.

(** X24. An inserted file is rendered.  After [insert_file] of a path with
    at least one component into a tree whose child maps are in order, the
    output of [generate_html] contains the name line of the path's last
    component, the sequence line of the given sequence number when it is
    positive, and the thread line of the given thread id and name when the
    name is not empty. *)
Theorem inserted_file_is_rendered :
  forall (env : FsEnv) (path : string) (s t : Z) (n : string)
         (root : DirectoryNode),
    well_formed root ->
    path_components (path_utils.normalize_path env path) <> [] ->
    let html := generate_html (insert_file env path s t n root) in
    occurs_in
      (name_line
         (List.last (path_components (path_utils.normalize_path env path))
            ""%string)) html
    /\ (0 < s -> occurs_in (sequence_line s) html)
    /\ (n <> ""%string -> occurs_in (thread_line t n) html).
Proof.
  intros env path s t n root Hwf Hne html. subst html. unfold insert_file.
  set (comps := path_components (path_utils.normalize_path env path)) in *.
  destruct (insert_components_lookup comps "/" s t n root Hne)
    as (leaf & Hfind & Hfile & Hseq & Htid & Hname).
  pose proof (TreeFacts.insert_components_well_formed comps "/" s t n root Hwf)
    as Hwf'.
  pose proof (find_path_name comps _ leaf Hwf' Hne Hfind) as Hleaf.
  pose proof (find_path_in_tree comps _ leaf Hfind) as Hin.
  destruct (generate_html_contains_head leaf _ Hin) as [depth Hocc].
  split; [|split].
  - rewrite <- Hleaf.
    eapply occurs_trans; [apply node_head_name | exact Hocc].
  - intros Hs.
    replace (sequence_line s) with (sequence_line (sequence_number leaf))
      by (rewrite Hseq; reflexivity).
    eapply occurs_trans; [apply node_head_sequence | exact Hocc];
      [exact Hfile | rewrite Hseq; exact Hs].
  - intros Hn.
    replace (thread_line t n) with (thread_line t (thread_name leaf))
      by (rewrite Hname; reflexivity).
    eapply occurs_trans; [apply node_head_thread | exact Hocc];
      [exact Hfile | exact Htid | rewrite Hname; exact Hn].
Qed.

(** "/tmp/a.txt", opened as event 1 by thread 100 "main". *)
Lemma inserted_file_is_rendered_witness :
  let html :=
    generate_html
      (insert_file Samples.plain_env "/tmp/a.txt" 1 100 "main" empty_tree) in
  occurs_in (name_line "a.txt") html
  /\ occurs_in (sequence_line 1) html
  /\ occurs_in (thread_line 100 "main") html.
Proof.
  intros html.
  destruct (inserted_file_is_rendered Samples.plain_env "/tmp/a.txt" 1 100 "main"
              empty_tree) as (Hn & Hs & Ht);
    [split; constructor | discriminate |].
  split; [exact Hn|]. split; [apply Hs; lia | apply Ht; discriminate].
Defined.

Lemma foldl_insert_keeps (env : FsEnv)
    (operations : list Supervisor.FileOperation) :
  forall (tree : DirectoryNode) (q : list string) (old : DirectoryNode),
    find_path q tree = Some old ->
    exists new : DirectoryNode,
      find_path q
        (foldl (fun tree op =>
                  insert_file env (Supervisor.path op) (Supervisor.sequence op)
                    (Supervisor.op_thread_id op) (Supervisor.op_thread_name op)
                    tree)
           tree operations) = Some new
      /\ (is_file old = true -> is_file new = true).
Proof.
  induction operations as [|op ops IH]; intros tree q old Hold.
  - exists old. split; [exact Hold | auto].
  - cbn [foldl].
    destruct (insert_components_keeps_nodes
                (path_components
                   (path_utils.normalize_path env (Supervisor.path op)))
                "/" (Supervisor.sequence op) (Supervisor.op_thread_id op)
                (Supervisor.op_thread_name op) tree q old Hold)
      as (mid & Hmid & _ & _ & Hf).
    destruct (IH _ q mid Hmid) as (new & Hnew & Hf').
    exists new. split; [exact Hnew | auto].
Qed.

(** X25. Every entry of the event log is shown.  For each entry of the log
    whose normalized path has at least one component, the tree that
    [generate_html_output] builds has a node at that path which is marked
    as a file, whatever was inserted afterwards, and the rendered tree
    contains the name line of the path's last component. *)
Theorem build_tree_renders_every_entry :
  forall (env : FsEnv) (operations : list Supervisor.FileOperation)
         (op : Supervisor.FileOperation),
    In op operations ->
    path_components (path_utils.normalize_path env (Supervisor.path op)) <> [] ->
    (exists d : DirectoryNode,
       find_path
         (path_components (path_utils.normalize_path env (Supervisor.path op)))
         (build_tree env operations) = Some d
       /\ is_file d = true)
    /\ occurs_in
         (name_line
            (List.last
               (path_components
                  (path_utils.normalize_path env (Supervisor.path op)))
               ""%string))
         (generate_html (build_tree env operations)).
Proof.
  intros env operations op Hin Hne.
  set (comps := path_components
                  (path_utils.normalize_path env (Supervisor.path op))) in *.
  destruct (build_tree_invariant env operations) as (Hwf & _ & _).
  assert (Hnode : exists d : DirectoryNode,
            find_path comps (build_tree env operations) = Some d
            /\ is_file d = true).
  { apply in_split in Hin. destruct Hin as (l1 & l2 & ->).
    unfold build_tree. rewrite foldl_app. cbn [foldl].
    unfold insert_file at 2. fold comps.
    destruct (insert_components_lookup comps "/" (Supervisor.sequence op)
                (Supervisor.op_thread_id op) (Supervisor.op_thread_name op)
                (foldl (fun tree op0 =>
                          insert_file env (Supervisor.path op0)
                            (Supervisor.sequence op0)
                            (Supervisor.op_thread_id op0)
                            (Supervisor.op_thread_name op0) tree)
                   empty_tree l1) Hne)
      as (leaf & Hleaf & Hfile & _).
    destruct (foldl_insert_keeps env l2 _ comps leaf Hleaf)
      as (new & Hnew & Hf).
    exists new. split; [exact Hnew | exact (Hf Hfile)]. }
  split; [exact Hnode|].
  destruct Hnode as (d & Hd & _).
  rewrite <- (find_path_name comps _ d Hwf Hne Hd).
  destruct (generate_html_contains_head d _ (find_path_in_tree comps _ d Hd))
    as [depth Hocc].
  eapply occurs_trans; [apply node_head_name | exact Hocc].
Qed.

(** The first entry of a log of two opens. *)
Lemma build_tree_renders_every_entry_witness :
  occurs_in (name_line "a.txt")
    (generate_html (build_tree Samples.plain_env Samples.sample_log)).
Proof.
  apply (build_tree_renders_every_entry Samples.plain_env Samples.sample_log
           (default
              {| Supervisor.pid := 0; Supervisor.path := "";
                 Supervisor.sequence := 0; Supervisor.op_thread_id := 0;
                 Supervisor.op_thread_name := "";
                 Supervisor.is_actual_open := false |}
              (head Samples.sample_log))).
  - left. reflexivity.
  - discriminate.
Defined.


(** "/tmp/a.txt" into the empty tree. *)
Lemma insert_file_well_formed_witness :
  well_formed (insert_file Samples.plain_env "/tmp/a.txt" 1 100 "main" empty_tree).
Proof.
  apply (TreeFacts.insert_file_well_formed Samples.plain_env "/tmp/a.txt" 1 100
           "main" empty_tree).
  split; constructor.
Defined.
End TreeExtra.
